(** * CPU scheduling simulator: process.py, scheduler.py and gui.py

    A shallow embedding of the [Process] class, of the four scheduling
    functions [fcfs], [sjf], [priority_scheduling] and [round_robin], and
    of the window [SchedulerGUI] that calls them.

    Python objects are mutable and shared by reference, so the embedding
    keeps an explicit object store: a [heap] is the list of all [Process]
    objects that exist, and a reference [ref] is an index into it.  A
    Python list of processes is a [list ref].  [copy.deepcopy] allocates
    new objects at the end of the store, attribute assignment is [alter]
    at a reference.  Python integers are unbounded, hence [Z]. *)

From Stdlib Require Import ZArith QArith Lia.
From stdpp Require Import list sorting strings.

Open Scope Z_scope.

(** ** process.py *)

Record Process := mkProcess {
  p_id : Z;
  arrival_time : Z;
  burst_time : Z;
  priority : Z;
  remaining_burst_time : Z;
  start_time : Z;
  completion_time : Z;
  waiting_time : Z;
  turnaround_time : Z
}.

(** [Process.__init__]. *)
Definition Process_init (p_id arrival_time burst_time priority : Z) : Process :=
  mkProcess p_id arrival_time burst_time priority burst_time (-1) (-1) (-1) (-1).

#[global] Instance Process_inhabited : Inhabited Process :=
  populate (Process_init 0 0 0 0).

(** Attribute assignment [self.x = v]. *)
Definition set_remaining_burst_time (v : Z) (p : Process) : Process :=
  mkProcess (p_id p) (arrival_time p) (burst_time p) (priority p)
            v (start_time p) (completion_time p)
            (waiting_time p) (turnaround_time p).

Definition set_start_time (v : Z) (p : Process) : Process :=
  mkProcess (p_id p) (arrival_time p) (burst_time p) (priority p)
            (remaining_burst_time p) v (completion_time p)
            (waiting_time p) (turnaround_time p).

Definition set_completion_time (v : Z) (p : Process) : Process :=
  mkProcess (p_id p) (arrival_time p) (burst_time p) (priority p)
            (remaining_burst_time p) (start_time p) v
            (waiting_time p) (turnaround_time p).

Definition set_waiting_time (v : Z) (p : Process) : Process :=
  mkProcess (p_id p) (arrival_time p) (burst_time p) (priority p)
            (remaining_burst_time p) (start_time p) (completion_time p)
            v (turnaround_time p).

Definition set_turnaround_time (v : Z) (p : Process) : Process :=
  mkProcess (p_id p) (arrival_time p) (burst_time p) (priority p)
            (remaining_burst_time p) (start_time p) (completion_time p)
            (waiting_time p) v.

(** [Process.calculate_metrics].  The warning printed in the [else]
    branch goes to standard output and is not part of the state. *)
Definition calculate_metrics (self : Process) : Process :=
  if negb (completion_time self =? -1) then
    let self := set_turnaround_time (completion_time self - arrival_time self) self in
    let self := set_waiting_time (turnaround_time self - burst_time self) self in
    if waiting_time self <? 0 then set_waiting_time 0 self else self
  else
    let self := set_waiting_time (-1) self in
    set_turnaround_time (-1) self.

(** ** The object store *)

Abbreviation ref := nat.
Abbreviation heap := (list Process).

(** [copy.deepcopy(processes)] for a list of [Process] objects.  The memo
    table maps an object already copied to its copy, so that an object
    listed twice is copied once and stays shared in the copy. *)
Fixpoint memo_find (memo : list (ref * ref)) (r : ref) : option ref :=
  match memo with
  | [] => None
  | (old, new) :: memo' => if Nat.eqb old r then Some new else memo_find memo' r
  end.

Fixpoint deepcopy_memo (memo : list (ref * ref)) (h : heap) (processes : list ref)
  : heap * list ref :=
  match processes with
  | [] => (h, [])
  | r :: rest =>
      match memo_find memo r with
      | Some r' =>
          let '(h', copies) := deepcopy_memo memo h rest in (h', r' :: copies)
      | None =>
          let r' := length h in
          let '(h', copies) :=
            deepcopy_memo ((r, r') :: memo) (h ++ [h !!! r]) rest in
          (h', r' :: copies)
      end
  end.

Definition deepcopy (h : heap) (processes : list ref) : heap * list ref :=
  deepcopy_memo [] h processes.

(** ** Python built-ins used by the scheduler *)

(** [sorted(l, key=...)] and [list.sort(key=...)] are stable: elements
    with equal keys keep their order.  The result of a stable sort is
    determined by the input, so insertion sort stands for it. *)
Fixpoint insert_by {A} (key : A → Z) (x : A) (l : list A) : list A :=
  match l with
  | [] => [x]
  | y :: l' => if key x <=? key y then x :: l else y :: insert_by key x l'
  end.

Fixpoint sorted {A} (key : A → Z) (l : list A) : list A :=
  match l with
  | [] => []
  | x :: l' => insert_by key x (sorted key l')
  end.

(** [min(...)] over a sequence; [None] stands for the [ValueError] that
    Python raises on an empty sequence. *)
Fixpoint min_of (l : list Z) : option Z :=
  match l with
  | [] => None
  | x :: l' => match min_of l' with
               | None => Some x
               | Some m => Some (Z.min x m)
               end
  end.

(** [list.remove(x)] on a list of objects: drops the first element that is
    the object [x]; [None] stands for the [ValueError] when it is absent. *)
Fixpoint remove_first (x : ref) (l : list ref) : option (list ref) :=
  match l with
  | [] => None
  | y :: l' => if Nat.eqb y x then Some l'
               else match remove_first x l' with
                    | Some l'' => Some (y :: l'')
                    | None => None
                    end
  end.

(** [d[k] = v] on a dict, kept in insertion order: an existing key keeps
    its place and gets the new value. *)
Fixpoint dict_set (k : Z) (v : ref) (d : list (Z * ref)) : list (Z * ref) :=
  match d with
  | [] => [(k, v)]
  | (k', v') :: d' => if k' =? k then (k, v) :: d' else (k', v') :: dict_set k v d'
  end.

Definition dict_values (d : list (Z * ref)) : list ref := snd <$> d.

(** ** Results *)

Inductive occupant := Idle | Pid (id : Z).

Abbreviation gantt_entry := (occupant * Z * Z)%type.

Definition occupant_eqb (a b : occupant) : bool :=
  match a, b with
  | Idle, Idle => true
  | Pid i, Pid j => i =? j
  | _, _ => false
  end.

(** The averages are Python floats obtained by one true division of two
    integers; they are kept as the exact quotient, of which the float is
    the rounding. *)
Definition average (total : Z) (count : nat) : Q :=
  (inject_Z total / inject_Z (Z.of_nat count))%Q.

Record result := mkResult {
  gantt_chart : list gantt_entry;
  avg_waiting_time : Q;
  avg_turnaround_time : Q;
  completed_processes : list ref
}.

Definition empty_result : result := mkResult [] 0%Q 0%Q [].

Inductive exn := ValueError | IndexError.

Inductive outcome :=
| Return (r : result)
| Raise (e : exn).

(** The objects a returned list of references denotes. *)
Definition objects (h : heap) (l : list ref) : list Process := (h !!!.) <$> l.

(** Replacing the last element, [l[-1] = x]; [None] stands for the
    [IndexError] on an empty list. *)
Definition set_last {A} (x : A) (l : list A) : option (list A) :=
  match l with
  | [] => None
  | _ => Some (removelast l ++ [x])
  end.

(** ** Loops *)

Inductive ctrl (S : Type) :=
| Next (s : S)
| Break (s : S)
| Throw (e : exn) (s : S).
Arguments Next {S} s.
Arguments Break {S} s.
Arguments Throw {S} e s.

(** [while cond: body], where the body may [continue] (or reach its end),
    [break] or raise.  [fuel] bounds the number of iterations; the result
    is [None] when one more would be needed. *)
Fixpoint while_loop {S} (fuel : nat) (cond : S → bool) (body : S → ctrl S) (s : S)
  : option (S * option exn) :=
  if cond s then
    match fuel with
    | O => None
    | Datatypes.S fuel' =>
        match body s with
        | Next s' => while_loop fuel' cond body s'
        | Break s' => Some (s', None)
        | Throw e s' => Some (s', Some e)
        end
    end
  else Some (s, None).

(** The state at the head of iteration number [k] (from 0), when the
    loop gets that far. *)
Fixpoint loop_state {S} (k : nat) (cond : S → bool) (body : S → ctrl S) (s : S)
  : option S :=
  match k with
  | O => if cond s then Some s else None
  | Datatypes.S k' =>
      if cond s then
        match body s with
        | Next s' => loop_state k' cond body s'
        | _ => None
        end
      else None
  end.

(** ** scheduler.py: fcfs *)

(** The local variables shared by the three non-preemptive loops. *)
Record sim := mkSim {
  sim_heap : heap;
  completed : list ref;
  gantt : list gantt_entry;
  current_time : Z;
  total_waiting_time : Z;
  total_turnaround_time : Z
}.

Definition sim_init (h : heap) : sim := mkSim h [] [] 0 0 0.

(** The idle gap: [gantt_chart.append(("Idle", current_time, t));
    current_time = t]. *)
Definition idle_until (t : Z) (s : sim) : sim :=
  mkSim (sim_heap s) (completed s) (gantt s ++ [(Idle, current_time s, t)]) t
        (total_waiting_time s) (total_turnaround_time s).

(** One iteration of the loop of [fcfs], for the process popped from the
    front of [process_queue]. *)
Definition fcfs_body (proc : ref) (s : sim) : sim :=
  let s := if current_time s <? arrival_time (sim_heap s !!! proc)
           then idle_until (arrival_time (sim_heap s !!! proc)) s else s in
  let h := alter (set_start_time (current_time s)) proc (sim_heap s) in
  let execution_start := current_time s in
  let now := current_time s + burst_time (h !!! proc) in
  let h := alter (set_completion_time now) proc h in
  let chart := gantt s ++ [(Pid (p_id (h !!! proc)), execution_start,
                            completion_time (h !!! proc))] in
  let h := alter calculate_metrics proc h in
  mkSim h (completed s ++ [proc]) chart now
        (total_waiting_time s + waiting_time (h !!! proc))
        (total_turnaround_time s + turnaround_time (h !!! proc)).

(** [while process_queue: proc = process_queue.pop(0); ...] *)
Fixpoint fcfs_loop (process_queue : list ref) (s : sim) : sim :=
  match process_queue with
  | [] => s
  | proc :: process_queue' => fcfs_loop process_queue' (fcfs_body proc s)
  end.

(** The common end of the three non-preemptive functions. *)
Definition finish (s : sim) : heap * outcome :=
  match completed s with
  | [] => (sim_heap s, Return empty_result)
  | _ =>
      (sim_heap s,
       Return (mkResult (gantt s)
                 (average (total_waiting_time s) (length (completed s)))
                 (average (total_turnaround_time s) (length (completed s)))
                 (sorted (λ p, p_id (sim_heap s !!! p)) (completed s))))
  end.

Definition fcfs (h : heap) (processes : list ref) : heap * outcome :=
  let '(h, copies) := deepcopy h processes in
  let process_queue := sorted (λ p, arrival_time (h !!! p)) copies in
  finish (fcfs_loop process_queue (sim_init h)).

(** ** scheduler.py: sjf and priority_scheduling

    The two functions have the same text up to the attribute the ready
    queue is sorted by, which is the parameter [key] here. *)

Record np_state := mkNp {
  np_sim : sim;
  remaining_processes : list ref
}.

Definition ready_at (h : heap) (t : Z) (l : list ref) : list ref :=
  filter (λ p, arrival_time (h !!! p) ≤ t) l.

(** The dispatch of [proc]: the body of [if ready_queue:] after the
    selection. *)
Definition np_run (proc : ref) (s : sim) : sim :=
  let h := sim_heap s in
  let h := if start_time (h !!! proc) =? -1
           then alter (set_start_time (current_time s)) proc h else h in
  let execution_start := current_time s in
  let now := current_time s + burst_time (h !!! proc) in
  let h := alter (set_completion_time now) proc h in
  let chart := gantt s ++ [(Pid (p_id (h !!! proc)), execution_start,
                            completion_time (h !!! proc))] in
  let h := alter calculate_metrics proc h in
  mkSim h (completed s ++ [proc]) chart now
        (total_waiting_time s + waiting_time (h !!! proc))
        (total_turnaround_time s + turnaround_time (h !!! proc)).

(** The first half of the loop body: the ready queue, after the idle gap
    when nothing is ready. *)
Definition np_ready (st : np_state) : exn + (sim * list ref) :=
  let s := np_sim st in
  let ready_queue := ready_at (sim_heap s) (current_time s) (remaining_processes st) in
  match ready_queue with
  | [] =>
      match min_of ((λ p, arrival_time (sim_heap s !!! p)) <$> remaining_processes st) with
      | None => inl ValueError
      | Some next_arrival_time =>
          let s := if current_time s <? next_arrival_time
                   then idle_until next_arrival_time s else s in
          inr (s, ready_at (sim_heap s) (current_time s) (remaining_processes st))
      end
  | _ => inr (s, ready_queue)
  end.

(** [ready_queue.sort(key=...); proc = ready_queue[0]] *)
Definition np_select (key : Process → Z) (h : heap) (ready_queue : list ref) : option ref :=
  head (sorted (λ p, key (h !!! p)) ready_queue).

Definition np_body (key : Process → Z) (st : np_state) : ctrl np_state :=
  match np_ready st with
  | inl e => Throw e st
  | inr (s, ready_queue) =>
      match np_select key (sim_heap s) ready_queue with
      | Some proc =>
          match remove_first proc (remaining_processes st) with
          | None => Throw ValueError (mkNp s (remaining_processes st))
          | Some remaining' => Next (mkNp (np_run proc s) remaining')
          end
      | None =>
          match remaining_processes st with
          | [] => Break (mkNp s [])
          | _ => Next (mkNp s (remaining_processes st))
          end
      end
  end.

Definition np_cond (n : nat) (st : np_state) : bool :=
  (length (completed (np_sim st)) <? n)%nat.

Definition nonpreemptive (key : Process → Z) (fuel : nat) (h : heap) (processes : list ref)
  : option (heap * outcome) :=
  let '(h, copies) := deepcopy h processes in
  let process_list := sorted (λ p, arrival_time (h !!! p)) copies in
  let n := length process_list in
  match while_loop fuel (np_cond n) (np_body key) (mkNp (sim_init h) process_list) with
  | None => None
  | Some (st, Some e) => Some (sim_heap (np_sim st), Raise e)
  | Some (st, None) => Some (finish (np_sim st))
  end.

Definition sjf := nonpreemptive burst_time.
Definition priority_scheduling := nonpreemptive priority.

(** ** scheduler.py: round_robin *)

Record rr_state := mkRR {
  rr_heap : heap;
  completed_processes_dict : list (Z * ref);
  rr_gantt : list gantt_entry;
  rr_time : Z;
  rr_total_waiting_time : Z;
  rr_total_turnaround_time : Z;
  ready_queue : list ref;
  process_idx : nat;
  last_gantt_entry : option gantt_entry
}.

Definition rr_init (h : heap) : rr_state := mkRR h [] [] 0 0 0 [] 0%nat None.

(** The two arrival loops
    [while process_idx < n and process_list[process_idx].arrival_time <= current_time],
    run over the part of [process_list] from [process_idx] on. *)
Fixpoint enqueue_arrivals (pending : list ref) (now : Z) (h : heap) (queue : list ref) (idx : nat)
  : heap * list ref * nat :=
  match pending with
  | [] => (h, queue, idx)
  | p :: pending' =>
      if arrival_time (h !!! p) <=? now then
        enqueue_arrivals pending' now
              (alter (λ o, set_remaining_burst_time (burst_time o) o) p h)
              (queue ++ [p]) (S idx)
      else (h, queue, idx)
  end.

(** The idle branch: a new ["Idle"] entry, or the previous one extended. *)
Definition rr_idle (next_arrival_time : Z) (s : rr_state) : ctrl rr_state :=
  let fresh :=
    Next (mkRR (rr_heap s) (completed_processes_dict s)
               (rr_gantt s ++ [(Idle, rr_time s, next_arrival_time)])
               next_arrival_time
               (rr_total_waiting_time s) (rr_total_turnaround_time s)
               (ready_queue s) (process_idx s)
               (Some (Idle, rr_time s, next_arrival_time))) in
  let unchanged :=
    Next (mkRR (rr_heap s) (completed_processes_dict s) (rr_gantt s)
               next_arrival_time
               (rr_total_waiting_time s) (rr_total_turnaround_time s)
               (ready_queue s) (process_idx s) (last_gantt_entry s)) in
  match last_gantt_entry s with
  | None => fresh
  | Some (occ, first, _) =>
      if negb (occupant_eqb occ Idle) then fresh
      else if occupant_eqb occ Idle then
        match set_last (Idle, first, next_arrival_time) (rr_gantt s) with
        | None => Throw IndexError s
        | Some chart =>
            Next (mkRR (rr_heap s) (completed_processes_dict s) chart
                       next_arrival_time
                       (rr_total_waiting_time s) (rr_total_turnaround_time s)
                       (ready_queue s) (process_idx s) (last chart))
        end
      else unchanged
  end.

(** The Gantt chart after a slice of [proc] from [execution_start] to
    [now]: merged into the last entry when that is a run of the same
    process ending at [execution_start]. *)
Definition rr_chart (id execution_start now : Z) (s : rr_state)
  : option (list gantt_entry) :=
  match last_gantt_entry s with
  | Some (occ, first, last_end) =>
      if occupant_eqb occ (Pid id) && (last_end =? execution_start)
      then set_last (Pid id, first, now) (rr_gantt s)
      else Some (rr_gantt s ++ [(Pid id, execution_start, now)])
  | None => Some (rr_gantt s ++ [(Pid id, execution_start, now)])
  end.

(** The dispatch of [proc], popped from the front of the ready queue
    [queue]. *)
Definition rr_run (process_list : list ref) (time_quantum : Z)
    (proc : ref) (queue : list ref) (s : rr_state) : ctrl rr_state :=
  let h := rr_heap s in
  let h := if start_time (h !!! proc) =? -1
           then alter (set_start_time (rr_time s)) proc h else h in
  let execution_start := rr_time s in
  let time_slice := Z.min time_quantum (remaining_burst_time (h !!! proc)) in
  let h := alter (λ o, set_remaining_burst_time (remaining_burst_time o - time_slice) o)
                 proc h in
  let now := rr_time s + time_slice in
  match rr_chart (p_id (h !!! proc)) execution_start now s with
  | None => Throw IndexError s
  | Some chart =>
      let '(h, queue, idx) :=
        enqueue_arrivals (drop (process_idx s) process_list) now h queue (process_idx s) in
      if remaining_burst_time (h !!! proc) =? 0 then
        let h := alter (set_completion_time now) proc h in
        let h := alter calculate_metrics proc h in
        Next (mkRR h (dict_set (p_id (h !!! proc)) proc (completed_processes_dict s))
                   chart now
                   (rr_total_waiting_time s + waiting_time (h !!! proc))
                   (rr_total_turnaround_time s + turnaround_time (h !!! proc))
                   queue idx (last chart))
      else
        Next (mkRR h (completed_processes_dict s) chart now
                   (rr_total_waiting_time s) (rr_total_turnaround_time s)
                   (queue ++ [proc]) idx (last chart))
  end.

Definition rr_body (process_list : list ref) (time_quantum : Z) (s : rr_state)
  : ctrl rr_state :=
  let n := length process_list in
  let '(h, queue, idx) :=
    enqueue_arrivals (drop (process_idx s) process_list) (rr_time s)
          (rr_heap s) (ready_queue s) (process_idx s) in
  let s := mkRR h (completed_processes_dict s) (rr_gantt s) (rr_time s)
                (rr_total_waiting_time s) (rr_total_turnaround_time s)
                queue idx (last_gantt_entry s) in
  match queue with
  | [] =>
      if (idx <? n)%nat then
        let next_arrival_time := arrival_time (h !!! (process_list !!! idx)) in
        if rr_time s <? next_arrival_time then rr_idle next_arrival_time s
        else Next s
      else Break s
  | proc :: queue' => rr_run process_list time_quantum proc queue' s
  end.

Definition rr_cond (n : nat) (s : rr_state) : bool :=
  (length (completed_processes_dict s) <? n)%nat.

Definition rr_finish (n : nat) (s : rr_state) : heap * outcome :=
  match completed_processes_dict s with
  | [] => (rr_heap s, Return empty_result)
  | _ =>
      (rr_heap s,
       Return (mkResult (rr_gantt s)
                 (average (rr_total_waiting_time s) n)
                 (average (rr_total_turnaround_time s) n)
                 (sorted (λ p, p_id (rr_heap s !!! p))
                         (dict_values (completed_processes_dict s)))))
  end.

Definition round_robin (fuel : nat) (h : heap) (processes : list ref) (time_quantum : Z)
  : option (heap * outcome) :=
  if time_quantum <=? 0 then Some (h, Raise ValueError)
  else
    let '(h, copies) := deepcopy h processes in
    let process_list := sorted (λ p, arrival_time (h !!! p)) copies in
    let n := length process_list in
    match while_loop fuel (rr_cond n) (rr_body process_list time_quantum) (rr_init h) with
    | None => None
    | Some (s, Some e) => Some (rr_heap s, Raise e)
    | Some (s, None) => Some (rr_finish n s)
    end.

(** ** Scenarios of the specification, run on the embedding *)

Definition scenario_A : heap := [Process_init 1 0 5 0; Process_init 2 1 3 0].
Definition scenario_B : heap :=
  [Process_init 1 0 8 0; Process_init 2 1 4 0; Process_init 3 2 9 0; Process_init 4 3 5 0].
Definition scenario_C : heap :=
  [Process_init 1 0 10 3; Process_init 2 0 1 1; Process_init 3 0 2 4;
   Process_init 4 0 1 5; Process_init 5 0 5 2].
Definition scenario_D : heap :=
  [Process_init 1 0 5 0; Process_init 2 1 3 0; Process_init 3 2 1 0].

Definition chart_of (o : option (heap * outcome)) : option (list gantt_entry) :=
  match o with
  | Some (_, Return r) => Some (gantt_chart r)
  | _ => None
  end.

Definition all_refs (h : heap) : list ref := seq 0 (length h).

(** The store a call leaves behind; the caller's store when the fuel ran
    out before the call ended. *)
Definition heap_after (h : heap) (o : option (heap * outcome)) : heap :=
  match o with
  | Some (h', _) => h'
  | None => h
  end.

(** ** Valid input

    A process of the caller's list is an object as [Process(...)] builds
    it, with an arrival time and a priority that are not negative and a
    positive burst time. *)
Definition valid_process (p : Process) : Prop :=
  p = Process_init (p_id p) (arrival_time p) (burst_time p) (priority p) ∧
  0 ≤ arrival_time p ∧ 0 < burst_time p ∧ 0 ≤ priority p.

(** A valid input: a list that is not empty, of valid processes of the
    store, with distinct ids. *)
Definition valid_input (h : heap) (processes : list ref) : Prop :=
  processes ≠ [] ∧
  Forall (λ r, (r < length h)%nat ∧ valid_process (h !!! r)) processes ∧
  NoDup ((λ r, p_id (h !!! r)) <$> processes).

(** The attributes no scheduling function assigns. *)
Definition static (p : Process) : Z * Z * Z * Z :=
  (p_id p, arrival_time p, burst_time p, priority p).

Definition static_eq (h1 h : heap) : Prop :=
  length h = length h1 ∧ ∀ r, static (h !!! r) = static (h1 !!! r).

(** The process [p] after a run to completion that starts at [start]. *)
Definition finished (p : Process) (start : Z) : Process :=
  mkProcess (p_id p) (arrival_time p) (burst_time p) (priority p)
            (remaining_burst_time p) start (start + burst_time p)
            (Z.max 0 (start + burst_time p - arrival_time p - burst_time p))
            (start + burst_time p - arrival_time p).

(** ** Timelines *)

Definition occupant_of (e : gantt_entry) : occupant := e.1.1.
Definition entry_start (e : gantt_entry) : Z := e.1.2.
Definition entry_end (e : gantt_entry) : Z := e.2.

(** [R] relates every element of the list to the next one. *)
Fixpoint adjacent {A} (R : A → A → Prop) (l : list A) : Prop :=
  match l with
  | x :: l' => match l' with y :: _ => R x y | [] => True end ∧ adjacent R l'
  | [] => True
  end.

Definition contiguous (chart : list gantt_entry) : Prop :=
  adjacent (λ e e', entry_start e' = entry_end e) chart.

Definition no_adjacent_same (chart : list gantt_entry) : Prop :=
  adjacent (λ e e', occupant_of e ≠ occupant_of e') chart.

Definition sumZ {A} (f : A → Z) (l : list A) : Z :=
  foldr (λ x acc, f x + acc) 0 l.

(** The time an entry gives to a process: its length, 0 for ["Idle"]. *)
Definition busy (e : gantt_entry) : Z :=
  match occupant_of e with
  | Pid _ => entry_end e - entry_start e
  | Idle => 0
  end.

Definition busy_time (chart : list gantt_entry) : Z := sumZ busy chart.

(** The valid timeline of the specification, for the chart returned with
    the processes [procs]. *)
Definition valid_timeline (chart : list gantt_entry) (procs : list Process) : Prop :=
  contiguous chart ∧
  Forall (λ e, entry_start e < entry_end e) chart ∧
  (∃ first, head chart = Some first ∧
     (min_of (arrival_time <$> procs) = Some (entry_start first)
      ∨ entry_start first = 0)) ∧
  (∃ final, last chart = Some final ∧
     (∃ p, p ∈ procs ∧ completion_time p = entry_end final) ∧
     Forall (λ p, completion_time p ≤ entry_end final) procs) ∧
  no_adjacent_same chart ∧
  busy_time chart = sumZ burst_time procs.

(** The ids of the processes of a chart, in the order of their entries. *)
Definition pids (chart : list gantt_entry) : list Z :=
  omap (λ e, match occupant_of e with Pid i => Some i | Idle => None end) chart.

(** What holds of a process completed by time [t]. *)
Definition metrics_ok (p : Process) : Prop :=
  turnaround_time p = completion_time p - arrival_time p ∧
  waiting_time p = Z.max 0 (turnaround_time p - burst_time p).

Definition run_once (p : Process) : Prop :=
  arrival_time p ≤ start_time p ∧
  start_time p + burst_time p = completion_time p.

(** A run that may have been preempted. *)
Definition ran (p : Process) : Prop :=
  arrival_time p ≤ start_time p ∧
  start_time p + burst_time p ≤ completion_time p.

(** The call [run], given enough fuel, returns [r] and leaves the store
    [h']. *)
Definition returns (run : nat → option (heap * outcome)) (h' : heap) (r : result)
  : Prop :=
  ∃ fuel0, ∀ fuel, (fuel0 ≤ fuel)%nat → run fuel = Some (h', Return r).

(** The processes of the result [r] are those of the input, each with its
    metrics, and the chart is a valid timeline for them. *)
Definition same_processes (ins outs : list Process) : Prop :=
  static <$> outs ≡ₚ static <$> ins.

Definition schedule_ok (h : heap) (processes : list ref) (h' : heap) (r : result)
  : Prop :=
  let procs := objects h' (completed_processes r) in
  same_processes (objects h processes) procs ∧
  Forall metrics_ok procs ∧ Forall ran procs ∧
  valid_timeline (gantt_chart r) procs.

(** [P] holds of what each of the four functions returns on the list
    [processes] of the store [h], [round_robin] being called with
    [time_quantum]; the three functions with a loop bounded by fuel return
    it for every fuel that is large enough. *)
Definition every_algorithm (h : heap) (processes : list ref) (time_quantum : Z)
    (P : heap → result → Prop) : Prop :=
  (∃ h' r, fcfs h processes = (h', Return r) ∧ P h' r) ∧
  (∃ h' r, returns (λ fuel, sjf fuel h processes) h' r ∧ P h' r) ∧
  (∃ h' r, returns (λ fuel, priority_scheduling fuel h processes) h' r ∧ P h' r) ∧
  (∃ h' r, returns (λ fuel, round_robin fuel h processes time_quantum) h' r ∧ P h' r).

(** ** The invariant of the non-preemptive loops

    [h1] is the store when the loop starts and [PL] the list of the
    copies.  [gap] tells whether the chart may end with the idle gap that
    precedes a dispatch; between two iterations it does not. *)
Record sim_inv (h1 : heap) (PL : list ref) (gap : bool) (s : sim) : Prop := mkSimInv {
  inv_static : static_eq h1 (sim_heap s);
  inv_sub : completed s ⊆ PL;
  inv_nodup : NoDup (completed s);
  inv_fresh : ∀ r, r ∈ PL → r ∉ completed s → sim_heap s !!! r = h1 !!! r;
  inv_time : 0 ≤ current_time s;
  inv_done : ∀ r, r ∈ completed s →
      metrics_ok (sim_heap s !!! r) ∧ run_once (sim_heap s !!! r) ∧
      completion_time (sim_heap s !!! r) ≤ current_time s;
  inv_contig : contiguous (gantt s);
  inv_pos : Forall (λ e, entry_start e < entry_end e) (gantt s);
  inv_head : ∀ e, head (gantt s) = Some e → entry_start e = 0;
  inv_last : ∀ e, last (gantt s) = Some e →
      entry_end e = current_time s ∧
      ((gap = true ∧ occupant_of e = Idle) ∨
       ∃ r, r ∈ completed s ∧
            completion_time (sim_heap s !!! r) = current_time s ∧
            occupant_of e = Pid (p_id (h1 !!! r)));
  inv_empty : gantt s = [] → current_time s = 0 ∧ completed s = [];
  inv_adj : no_adjacent_same (gantt s);
  inv_busy : busy_time (gantt s) = sumZ (λ r, burst_time (h1 !!! r)) (completed s);
  inv_occ : ∀ e i, e ∈ gantt s → occupant_of e = Pid i →
      ∃ r, r ∈ completed s ∧ p_id (h1 !!! r) = i;
  inv_order : pids (gantt s) = (λ r, p_id (h1 !!! r)) <$> completed s
}.

(** The invariant of the loop of [sjf] and [priority_scheduling]: the
    processes not yet completed are the remaining ones. *)
Definition np_inv (h1 : heap) (PL : list ref) (st : np_state) : Prop :=
  sim_inv h1 PL false (np_sim st) ∧
  completed (np_sim st) ++ remaining_processes st ≡ₚ PL.

(** ** The invariant of the loop of round robin *)

(** [last_gantt_entry] is the last entry of the chart, or [None]. *)
Definition rr_last_ok (s : rr_state) : Prop :=
  last_gantt_entry s = last (rr_gantt s).


(** A chart that runs without a gap from 0 to [t]. *)
Definition chart_inv (chart : list gantt_entry) (t : Z) : Prop :=
  contiguous chart ∧
  Forall (λ e, entry_start e < entry_end e) chart ∧
  (∀ e, head chart = Some e → entry_start e = 0) ∧
  (∀ e, last chart = Some e → entry_end e = t) ∧
  (chart = [] → t = 0) ∧
  no_adjacent_same chart.

(** A process in the ready queue at time [now]: [p0] is the object as it
    was copied, [p] the object now.  It has not run, or it has run whole
    quanta since its start. *)
Definition queued_ok (time_quantum now : Z) (p0 p : Process) : Prop :=
  0 < remaining_burst_time p ≤ burst_time p ∧
  (burst_time p - remaining_burst_time p) `mod` time_quantum = 0 ∧
  (p = p0 ∨
   (arrival_time p ≤ start_time p ∧ 0 ≤ start_time p ∧
    start_time p + (burst_time p - remaining_burst_time p) ≤ now)).

(** A process completed by time [now]. *)
Definition done_ok (now : Z) (p : Process) : Prop :=
  metrics_ok p ∧ ran p ∧ completion_time p ≤ now ∧ remaining_burst_time p = 0.

Record rr_inv (h1 : heap) (PL : list ref) (time_quantum : Z) (s : rr_state)
  : Prop := mkRRInv {
  rr_static : static_eq h1 (rr_heap s);
  rr_idx_le : (process_idx s ≤ length PL)%nat;
  rr_perm : dict_values (completed_processes_dict s) ++ ready_queue s
            ≡ₚ take (process_idx s) PL;
  rr_dict : completed_processes_dict s
            = (λ r, (p_id (h1 !!! r), r)) <$> dict_values (completed_processes_dict s);
  rr_fresh : ∀ r, r ∈ drop (process_idx s) PL → rr_heap s !!! r = h1 !!! r;
  rr_time_nonneg : 0 ≤ rr_time s;
  rr_arrived : ∀ r, r ∈ take (process_idx s) PL →
      arrival_time (h1 !!! r) ≤ rr_time s;
  rr_queued : ∀ r, r ∈ ready_queue s →
      queued_ok time_quantum (rr_time s) (h1 !!! r) (rr_heap s !!! r);
  rr_done : ∀ r, r ∈ dict_values (completed_processes_dict s) →
      done_ok (rr_time s) (rr_heap s !!! r);
  rr_chart_ok : chart_inv (rr_gantt s) (rr_time s);
  rr_lastok : rr_last_ok s;
  rr_busy : busy_time (rr_gantt s)
            = sumZ (λ r, burst_time (h1 !!! r))
                   (dict_values (completed_processes_dict s))
              + sumZ (λ r, burst_time (h1 !!! r)
                           - remaining_burst_time (rr_heap s !!! r))
                     (ready_queue s);
  rr_final : (length (completed_processes_dict s) < length PL)%nat ∨
             ∃ r, r ∈ dict_values (completed_processes_dict s) ∧
                  completion_time (rr_heap s !!! r) = rr_time s
}.

(** The state with another ready queue and arrival index. *)
Definition rr_with_queue (s : rr_state) (queue : list ref) (idx : nat) : rr_state :=
  mkRR (rr_heap s) (completed_processes_dict s) (rr_gantt s) (rr_time s)
       (rr_total_waiting_time s) (rr_total_turnaround_time s)
       queue idx (last_gantt_entry s).

(** The object [p] after a dispatch at time [now]. *)
Definition dispatched (time_quantum now : Z) (p : Process) : Process :=
  let p := if start_time p =? -1 then set_start_time now p else p in
  let time_slice := Z.min time_quantum (remaining_burst_time p) in
  let p := set_remaining_burst_time (remaining_burst_time p - time_slice) p in
  if remaining_burst_time p =? 0
  then calculate_metrics (set_completion_time (now + time_slice) p)
  else p.

(** The state after the dispatch of [proc], taken from the front of the
    ready queue with [queue] left behind it, before the arrivals during
    the slice are added: [chart] is the new chart. *)
Definition rr_dispatch (time_quantum : Z) (proc : ref) (queue : list ref)
    (chart : list gantt_entry) (s : rr_state) : rr_state :=
  let p := dispatched time_quantum (rr_time s) (rr_heap s !!! proc) in
  let now := rr_time s
             + Z.min time_quantum (remaining_burst_time (rr_heap s !!! proc)) in
  let h := <[proc := p]> (rr_heap s) in
  if remaining_burst_time p =? 0 then
    mkRR h (dict_set (p_id p) proc (completed_processes_dict s)) chart now
         (rr_total_waiting_time s + waiting_time p)
         (rr_total_turnaround_time s + turnaround_time p)
         queue (process_idx s) (last chart)
  else
    mkRR h (completed_processes_dict s) chart now
         (rr_total_waiting_time s) (rr_total_turnaround_time s)
         (queue ++ [proc]) (process_idx s) (last chart).

(** The work left, which bounds the iterations left: twice the burst time
    still to run, plus one when the next iteration is an idle gap. *)
Definition rr_work (h1 : heap) (PL : list ref) (s : rr_state) : Z :=
  sumZ (λ r, remaining_burst_time (rr_heap s !!! r)) (ready_queue s)
  + sumZ (λ r, burst_time (h1 !!! r)) (drop (process_idx s) PL).

Definition rr_gap (h1 : heap) (PL : list ref) (s : rr_state) : Z :=
  match ready_queue s, drop (process_idx s) PL with
  | [], r :: _ => if rr_time s <? arrival_time (h1 !!! r) then 1 else 0
  | _, _ => 0
  end.

Definition rr_measure (h1 : heap) (PL : list ref) (s : rr_state) : nat :=
  Z.to_nat (2 * rr_work h1 PL s + rr_gap h1 PL s).

(** ** Selection in sjf and priority_scheduling *)

(** The order of the process list: by arrival time, and for equal arrival
    times by reference.  The copies of a list are allocated in the order
    of the list, so a smaller reference is an earlier place in the input. *)
Definition arrives_before (h : heap) (a b : ref) : Prop :=
  arrival_time (h !!! a) < arrival_time (h !!! b) ∨
  (arrival_time (h !!! a) = arrival_time (h !!! b) ∧ (a < b)%nat).

(** [proc] is a process of [ready] with the smallest [key]; among those
    it has the smallest arrival time; among those it is first by [tie]. *)
Definition first_by (key : Process → Z) (tie : ref → ref → Prop)
    (h : heap) (ready : list ref) (proc : ref) : Prop :=
  proc ∈ ready ∧
  ∀ q, q ∈ ready →
    key (h !!! proc) < key (h !!! q) ∨
    (key (h !!! proc) = key (h !!! q) ∧
     (arrival_time (h !!! proc) < arrival_time (h !!! q) ∨
      (arrival_time (h !!! proc) = arrival_time (h !!! q) ∧ tie proc q))).

(** The tie-break of the specification, by id, and that of the code, by place
    in the input list. *)
Definition by_id (h : heap) (a b : ref) : Prop := p_id (h !!! a) ≤ p_id (h !!! b).
Definition by_input_order (a b : ref) : Prop := (a ≤ b)%nat.

(** The state of the loop of [nonpreemptive key] at the head of iteration
    [k], when the loop gets there: a decision point. *)
Definition np_state_at (key : Process → Z) (h : heap) (processes : list ref) (k : nat)
  : option np_state :=
  let '(h, copies) := deepcopy h processes in
  let process_list := sorted (λ p, arrival_time (h !!! p)) copies in
  loop_state k (np_cond (length process_list)) (np_body key)
             (mkNp (sim_init h) process_list).

(** The state of the loop of [round_robin] at the head of iteration [k]. *)
Definition rr_state_at (h : heap) (processes : list ref) (time_quantum : Z) (k : nat)
  : option rr_state :=
  let '(h, copies) := deepcopy h processes in
  let process_list := sorted (λ p, arrival_time (h !!! p)) copies in
  loop_state k (rr_cond (length process_list)) (rr_body process_list time_quantum)
             (rr_init h).

(** The process list of a call, and the store the loop starts with. *)
Definition process_list_of (h : heap) (processes : list ref) : list ref :=
  let '(h, copies) := deepcopy h processes in
  sorted (λ p, arrival_time (h !!! p)) copies.

Definition sjf_state_at := np_state_at burst_time.
Definition priority_state_at := np_state_at priority.

(** What the loop of [nonpreemptive key] does at the decision point [st]
    of a call on the list [processes] of the store [h]:
    - the remaining processes are the copies not yet completed, and the
      ready queue [ready] holds those that have arrived by the current
      time, after the idle gap when none had;
    - the process [proc] selected is first in [ready] by [key], then
      arrival time, then [tie];
    - [proc] leaves the remaining processes and runs to completion in this
      iteration: one chart entry from the current time to the current time
      plus its burst time, which is its completion time. *)
Definition np_decides (key : Process → Z) (tie : heap → ref → ref → Prop)
    (h : heap) (processes : list ref) (st : np_state) : Prop :=
  ∃ s0 proc rem',
    let ready := ready_at (sim_heap s0) (current_time s0) (remaining_processes st) in
    np_ready st = inr (s0, ready) ∧
    (∀ r, r ∈ remaining_processes st ↔
          r ∈ seq (length h) (length processes) ∧ r ∉ completed (np_sim st)) ∧
    np_select key (sim_heap s0) ready = Some proc ∧
    first_by key (tie (sim_heap s0)) (sim_heap s0) ready proc ∧
    np_body key st = Next (mkNp (np_run proc s0) rem') ∧
    remaining_processes st ≡ₚ proc :: rem' ∧
    np_run proc s0 =
      mkSim (<[proc := finished (sim_heap s0 !!! proc) (current_time s0)]> (sim_heap s0))
            (completed s0 ++ [proc])
            (gantt s0 ++ [(Pid (p_id (sim_heap s0 !!! proc)), current_time s0,
                           current_time s0 + burst_time (sim_heap s0 !!! proc))])
            (current_time s0 + burst_time (sim_heap s0 !!! proc))
            (total_waiting_time s0
             + waiting_time (finished (sim_heap s0 !!! proc) (current_time s0)))
            (total_turnaround_time s0
             + turnaround_time (finished (sim_heap s0 !!! proc) (current_time s0))).

(** Two processes with the same arrival time, burst time and priority,
    listed with the larger id first. *)
Definition tie_heap : heap := [Process_init 2 0 3 1; Process_init 1 0 3 1].

(** The invariant of the loop of [nonpreemptive], with the order of the
    remaining processes. *)
Definition np_inv_sorted (h1 : heap) (PL : list ref) (st : np_state) : Prop :=
  np_inv h1 PL st ∧
  StronglySorted (arrives_before h1) (remaining_processes st).

(** ** Slices of round robin *)

(** The length of the last slice of a process: [burst mod quantum], or the
    quantum when that is 0. *)
Definition final_length (time_quantum burst : Z) : Z :=
  if burst `mod` time_quantum =? 0 then time_quantum else burst `mod` time_quantum.

#[global] Instance occupant_eq_dec : EqDecision occupant.
Proof. solve_decision. Defined.

(** The entries of the process [id] in a chart, and C3 as claimed of them:
    the last has length [final_length], the others the quantum. *)
Definition entries_of (id : Z) (chart : list gantt_entry) : list gantt_entry :=
  filter (λ e, occupant_of e = Pid id) chart.

Definition segments_as_claimed (time_quantum burst : Z) (segments : list gantt_entry)
  : Prop :=
  match reverse segments with
  | [] => True
  | final :: others =>
      entry_end final - entry_start final = final_length time_quantum burst ∧
      Forall (λ e, entry_end e - entry_start e = time_quantum) others
  end.

(** What one iteration of the loop of [round_robin] does, from the state
    [s] to the state [s']: an idle gap, which runs no process, or one
    slice of the process [proc], from [rr_time s] to [rr_time s'].  The
    slice is the quantum or what remains of the burst of [proc], whichever
    is less: the quantum when [proc] is not finished by it, and
    [final_length] when it is.  In the chart the slice is a new entry, or
    it extends the last entry when that is a run of [proc] up to
    [rr_time s]. *)
Definition rr_slice_ok (time_quantum : Z) (s s' : rr_state) : Prop :=
  (rr_heap s' = rr_heap s ∧ rr_time s < rr_time s' ∧
   busy_time (rr_gantt s') = busy_time (rr_gantt s)) ∨
  ∃ proc,
    let p := rr_heap s !!! proc in
    let p' := rr_heap s' !!! proc in
    let slice := rr_time s' - rr_time s in
    (∀ r, r ≠ proc → rr_heap s' !!! r = rr_heap s !!! r) ∧
    0 < remaining_burst_time p ∧
    slice = Z.min time_quantum (remaining_burst_time p) ∧
    remaining_burst_time p' = remaining_burst_time p - slice ∧
    (remaining_burst_time p' ≠ 0 → slice = time_quantum) ∧
    (remaining_burst_time p' = 0 →
     slice = final_length time_quantum (burst_time p) ∧
     completion_time p' = rr_time s') ∧
    (rr_gantt s' = rr_gantt s ++ [(Pid (p_id p), rr_time s, rr_time s')] ∨
     ∃ init first,
       rr_gantt s = init ++ [(Pid (p_id p), first, rr_time s)] ∧
       rr_gantt s' = init ++ [(Pid (p_id p), first, rr_time s')]).

(** A process with a burst of two quanta and a half. *)
Definition lone_heap : heap := [Process_init 1 0 5 0].

(** ** Round robin and fcfs side by side *)

(** A process without its remaining burst time, the one attribute that
    [fcfs] leaves alone and [round_robin] counts down. *)
Definition forget_remaining (p : Process) : Process :=
  set_remaining_burst_time 0 p.


(** The objects below [base] are as in [h0], and the loop holds no
    reference below [base]. *)
Definition np_frame (base : nat) (h0 : heap) (st : np_state) : Prop :=
  take base (sim_heap (np_sim st)) = take base h0 ∧
  Forall (λ r, (base ≤ r)%nat) (remaining_processes st).

Definition rr_frame (base : nat) (h0 : heap) (s : rr_state) : Prop :=
  take base (rr_heap s) = take base h0 ∧
  Forall (λ r, (base ≤ r)%nat) (ready_queue s).

(** ** What the four functions return, beyond the timeline *)

(** The list [l] of processes of the store [h] is in ascending order of
    id, the order of [completed_processes.sort(key=lambda p: p.p_id)]. *)
Definition sorted_by_id (h : heap) (l : list ref) : Prop :=
  StronglySorted Z.lt (p_id <$> objects h l).

(** The waiting time as the non-preemptive functions leave it: the time
    from arrival to start, and the turnaround time less the burst time
    without the clamp of [calculate_metrics]. *)
Definition waited_for_start (p : Process) : Prop :=
  waiting_time p = start_time p - arrival_time p ∧
  turnaround_time p = waiting_time p + burst_time p.

(** The same for a process that may have been preempted: it has waited
    at least from arrival to start. *)
Definition waited_unclamped (p : Process) : Prop :=
  waiting_time p = completion_time p - arrival_time p - burst_time p ∧
  start_time p - arrival_time p ≤ waiting_time p ∧
  turnaround_time p = waiting_time p + burst_time p.

(** ** The totals and the runs of the chart *)

(** The chart entry of a run of the process [p] from its start time to
    its completion time. *)
Definition run_entry (p : Process) : gantt_entry :=
  (Pid (p_id p), start_time p, completion_time p).

(** The entries of a chart that are not idle gaps. *)
Definition runs (chart : list gantt_entry) : list gantt_entry :=
  filter (λ e, occupant_of e ≠ Idle) chart.

(** What the loops of [fcfs], [sjf] and [priority_scheduling] keep of
    their totals and of their chart: the totals are the sums over the
    completed processes, and the chart has one run for each of them, in
    the order of completion. *)
Record sim_log (s : sim) : Prop := mkSimLog {
  log_waiting :
    total_waiting_time s = sumZ waiting_time (objects (sim_heap s) (completed s));
  log_turnaround :
    total_turnaround_time s = sumZ turnaround_time (objects (sim_heap s) (completed s));
  log_runs : runs (gantt s) = run_entry <$> objects (sim_heap s) (completed s)
}.


(** The two averages of the result [r] are the means of the waiting and
    turnaround times of the processes it returns. *)
Definition averages_are_means (h' : heap) (r : result) : Prop :=
  let procs := objects h' (completed_processes r) in
  avg_waiting_time r = average (sumZ waiting_time procs) (length procs) ∧
  avg_turnaround_time r = average (sumZ turnaround_time procs) (length procs).

(** The chart of the result [r] has, besides idle gaps, exactly one entry
    for each process returned, from its start time to its completion
    time. *)
Definition one_run_each (h' : heap) (r : result) : Prop :=
  runs (gantt_chart r) ≡ₚ run_entry <$> objects h' (completed_processes r).

(** ** The processor time of each process *)

(** The time the chart gives to the process [id]: the lengths of its
    entries added up. *)
Definition cpu_time (id : Z) (chart : list gantt_entry) : Z :=
  sumZ busy (entries_of id chart).

(** In the loop of [round_robin] the chart has given each process the
    part of its burst time that is no longer remaining. *)
Definition rr_each (h1 : heap) (PL : list ref) (s : rr_state) : Prop :=
  ∀ r, r ∈ PL →
    cpu_time (p_id (h1 !!! r)) (rr_gantt s)
    = burst_time (h1 !!! r) - remaining_burst_time (rr_heap s !!! r).

(** The chart of the result [r] gives each process returned exactly its
    burst time. *)
Definition burst_served (h' : heap) (r : result) : Prop :=
  Forall (λ p, cpu_time (p_id p) (gantt_chart r) = burst_time p)
         (objects h' (completed_processes r)).

(** ** The non-preemptive loop on any input *)



(** ** The schedule of fcfs *)

(** The processes of [l] run back to back from time [t], in the order of
    the list: each starts when it has arrived and the one before it has
    completed, whichever is later. *)
Fixpoint fcfs_chain (t : Z) (l : list Process) : Prop :=
  match l with
  | [] => True
  | p :: l' =>
      start_time p = Z.max t (arrival_time p) ∧
      completion_time p = start_time p + burst_time p ∧
      fcfs_chain (completion_time p) l'
  end.

(** The time at which the chain [l], begun at time [t], ends. *)
Definition chain_end (t : Z) (l : list Process) : Z :=
  default t (completion_time <$> last l).

(** What the loop of [fcfs] keeps: the completed processes form a chain
    from time 0 that ends at the current time. *)
Definition fcfs_chained (s : sim) : Prop :=
  fcfs_chain 0 (objects (sim_heap s) (completed s)) ∧
  chain_end 0 (objects (sim_heap s) (completed s)) = current_time s.

(** The processes of the result [r], listed in [order], were served first
    come, first served: [order] is by arrival time, it is the order of the
    entries of the chart, and the processes run back to back in it. *)
Definition first_come_first_served (h' : heap) (r : result) (order : list ref) : Prop :=
  order ≡ₚ completed_processes r ∧
  StronglySorted Z.le (arrival_time <$> objects h' order) ∧
  pids (gantt_chart r) = p_id <$> objects h' order ∧
  fcfs_chain 0 (objects h' order).

(** * gui.py: the caller of the scheduler

    [SchedulerGUI] keeps the processes the user has entered and the
    counter of their ids, calls the scheduler and shows what it returns.
    A widget is kept as what it shows: an entry as its text, a table as
    the list of its rows, the canvas as the list of its items, a label as
    its text.  A message box is an element of the list of dialogs a method
    returns.  The layout of the window, the focus and the traceback
    printed on an error are not part of the state. *)

(** ** Numbers on the canvas

    Python floats: the type and its operations are parameters, and they
    are total, a number too large for a float being no more modelled here
    than for the averages of the scheduler.  [int_truediv] is the true
    division [a / b] of two integers. *)
Class Floats := {
  float : Type;
  float_of_int : Z → float;
  int_truediv : Z → Z → float;
  float_add : float → float → float;
  float_mul : float → float → float;
  float_div : float → float → float;
  float_gt_int : float → Z → bool
}.

(** Exact rational numbers in the place of floats, to run the
    definitions. *)
Definition exact_floats : Floats := {|
  float := Q;
  float_of_int := inject_Z;
  int_truediv a b := (inject_Z a / inject_Z b)%Q;
  float_add := Qplus;
  float_mul := Qmult;
  float_div := Qdiv;
  float_gt_int x n := negb (Qle_bool x (inject_Z n))
|}.

(** A text entry that holds digits only, as the integer [int(text)]
    reads it; [None] stands for the [ValueError] of [int].  It stands for
    [int] where the definitions are run. *)
Fixpoint digits_value (acc : Z) (text : string) : option Z :=
  match text with
  | EmptyString => Some acc
  | String c text' =>
      let n := Z.of_N (Ascii.N_of_ascii c) - 48 in
      if (0 <=? n) && (n <=? 9) then digits_value (10 * acc + n) text' else None
  end.

Definition int_of_digits (text : string) : option Z :=
  match text with
  | EmptyString => None
  | _ => digits_value 0 text
  end.

Inductive gui_exn :=
| Engine_error (e : exn)
| Tcl_error.

(** The message boxes of [gui.py], one constructor for each call of
    [messagebox.showerror] or [showwarning] that can be reached:
    - [Input_error_range]: "Input Error", arrival time and priority must
      be non-negative, burst time must be positive;
    - [Input_error_integer]: "Input Error", enter valid integer values;
    - [No_processes_warning]: "No Processes", add processes first;
    - [Quantum_error_positive]: "Input Error", the time quantum must be a
      positive integer;
    - [Quantum_error_integer]: "Input Error", enter a valid integer for
      the time quantum;
    - [Simulation_error]: "Simulation Error", with the exception. *)
Inductive dialog :=
| Input_error_range
| Input_error_integer
| No_processes_warning
| Quantum_error_positive
| Quantum_error_integer
| Simulation_error (e : gui_exn).

(** What [self.time_quantum.get()] does for the text of the quantum
    entry: it returns an integer, raises [ValueError], or raises another
    exception. *)
Inductive int_var :=
| Var_int (z : Z)
| Var_value_error
| Var_other_error.

(** The texts drawn on the canvas: ["P" + id], ["Idle"] and the decimal
    form [str(t)] of a time. *)
Inductive label :=
| Label_process (id : Z)
| Label_idle
| Label_time (t : Z).

(** The text of [metrics_label]: the prompt of an empty window, or the
    name of the algorithm in upper case with the two averages to two
    decimal places and, for round robin, the quantum. *)
Inductive metrics_text :=
| Metrics_prompt
| Metrics_of (algorithm_name : string) (avg_waiting avg_turnaround : Q)
             (quantum : option Z).

Section gui.
Context (int_of : string → option Z) {F : Floats}.

(** An [int] or a [float], with the arithmetic of Python on the two. *)
Inductive num :=
| Int (z : Z)
| Float (f : float).

Definition to_float (x : num) : float :=
  match x with Int z => float_of_int z | Float f => f end.

Definition num_add (x y : num) : num :=
  match x, y with
  | Int a, Int b => Int (a + b)
  | _, _ => Float (float_add (to_float x) (to_float y))
  end.

Definition num_mul (x y : num) : num :=
  match x, y with
  | Int a, Int b => Int (a * b)
  | _, _ => Float (float_mul (to_float x) (to_float y))
  end.

Definition num_div (x y : num) : num :=
  match x, y with
  | Int a, Int b => Float (int_truediv a b)
  | _, _ => Float (float_div (to_float x) (to_float y))
  end.

Definition num_gt_int (x : num) (n : Z) : bool :=
  match x with Int a => n <? a | Float f => float_gt_int f n end.

(** The items of the canvas.  A rectangle has the corners [(x0, y0)] and
    [(x1, y1)] and an outline of width 1; a text is centred at [(x, y)]
    and set in Helvetica of the given size, bold or not. *)
Inductive canvas_item :=
| Rectangle (x0 y0 x1 y1 : num) (fill outline : string)
| Text (x y : num) (text : label) (size : Z) (bold : bool) (fill : string).

Record canvas := mkCanvas {
  items : list canvas_item;
  scrollregion : Z * Z * Z * Z
}.

Record gui := mkGui {
  gui_heap : heap;
  gui_processes : list ref;
  process_id_counter : Z;
  gui_time_quantum : int_var;
  arrival_entry : string;
  burst_entry : string;
  priority_entry : string;
  tree : list (Z * Z * Z * Z);
  gantt_canvas : canvas;
  metrics_label : metrics_text;
  results_tree : list (list Z)
}.

(** [SchedulerGUI.__init__], with the objects of the store [h]. *)
Definition gui_init (h : heap) : gui :=
  mkGui h [] 1 (Var_int 2) "" "" "0" [] (mkCanvas [] (0, 0, 1000, 120))
        Metrics_prompt [].

(** The user types in the three entries and in the entry of the quantum. *)
Definition type_entries (arrival burst priority : string) (quantum : int_var)
    (g : gui) : gui :=
  mkGui (gui_heap g) (gui_processes g) (process_id_counter g) quantum
        arrival burst priority (tree g) (gantt_canvas g) (metrics_label g)
        (results_tree g).

(** [add_process].  The three entries are read in turn; the first that
    is no integer ends the call in the [except ValueError] branch.  An
    empty priority entry stands for 0.  The row added to the list view is
    [(process.p_id, process.arrival_time, process.burst_time,
    process.priority)], which is [static] of the new object. *)
Definition add_process (g : gui) : gui * list dialog :=
  match int_of (arrival_entry g) with
  | None => (g, [Input_error_integer])
  | Some arrival =>
      match int_of (burst_entry g) with
      | None => (g, [Input_error_integer])
      | Some burst =>
          let priority_str := priority_entry g in
          match (if decide (priority_str = "") then Some 0 else int_of priority_str) with
          | None => (g, [Input_error_integer])
          | Some priority =>
              if (arrival <? 0) || (burst <=? 0) || (priority <? 0)
              then (g, [Input_error_range])
              else
                let process := length (gui_heap g) in
                let h := gui_heap g ++ [Process_init (process_id_counter g)
                                          arrival burst priority] in
                (mkGui h (gui_processes g ++ [process])
                       (process_id_counter g + 1) (gui_time_quantum g)
                       "" "" "0"
                       (tree g ++ [static (h !!! process)])
                       (gantt_canvas g) (metrics_label g) (results_tree g),
                 [])
          end
      end
  end.

(** [clear_results]. *)
Definition clear_results (g : gui) : gui :=
  mkGui (gui_heap g) (gui_processes g) (process_id_counter g) (gui_time_quantum g)
        (arrival_entry g) (burst_entry g) (priority_entry g) (tree g)
        (mkCanvas [] (0, 0, 1000, 120)) Metrics_prompt [].

(** [clear_processes]; [answer] is the answer to the question of
    [messagebox.askyesno]. *)
Definition clear_processes (answer : bool) (g : gui) : gui :=
  if answer then
    clear_results
      (mkGui (gui_heap g) [] 1 (gui_time_quantum g)
             (arrival_entry g) (burst_entry g) (priority_entry g) []
             (gantt_canvas g) (metrics_label g) (results_tree g))
  else g.

(** ** draw_gantt_chart *)

Definition colors : list string :=
  ["#80CBC4"; "#A1887F"; "#FFD54F"; "#64B5F6"; "#E64A19"; "#4DB6AC"; "#7986CB";
   "#D4E157"; "#F4511E"].

Definition bar_height : Z := 40.
Definition y_pos : Z := 40.
Definition padding : Z := 10.
Definition time_label_y : Z := y_pos + bar_height + 15.
Definition pid_label_y : num := num_add (Int y_pos) (num_div (Int bar_height) (Int 2)).

(** The local variables of the loop over the entries of the chart. *)
Record draw_state := mkDraw {
  drawn : list canvas_item;
  process_colors : list (Z * string);
  color_index : nat;
  current_x : num
}.

(** [process_colors[p_id]], [None] when [p_id not in process_colors]. *)
Fixpoint color_of (id : Z) (d : list (Z * string)) : option string :=
  match d with
  | [] => None
  | (k, c) :: d' => if k =? id then Some c else color_of id d'
  end.

(** The body of [for entry in gantt_chart]. *)
Definition draw_entry (scale_factor : num) (entry : gantt_entry) (st : draw_state)
  : draw_state :=
  let '(p_id, start_time, end_time) := entry in
  let duration := end_time - start_time in
  if duration <=? 0 then st
  else
    let bar_width := num_mul (Int duration) scale_factor in
    let '(process_colors, color_index, fill_color, outline_color, pid_text) :=
      match p_id with
      | Pid id =>
          let '(process_colors, color_index) :=
            match color_of id (process_colors st) with
            | None =>
                (process_colors st
                   ++ [(id, colors !!! (color_index st `mod` length colors)%nat)],
                 S (color_index st))
            | Some _ => (process_colors st, color_index st)
            end in
          (process_colors, color_index, default "" (color_of id process_colors),
           "#222", Label_process id)
      | Idle => (process_colors st, color_index st, "#555", "#444", Label_idle)
      end in
    let drawn :=
      drawn st ++ [Rectangle (current_x st) (Int y_pos)
                             (num_add (current_x st) bar_width)
                             (Int (y_pos + bar_height)) fill_color outline_color] in
    let text_x := num_add (current_x st) (num_div bar_width (Int 2)) in
    let drawn :=
      if num_gt_int bar_width 25
      then drawn ++ [Text text_x pid_label_y pid_text 10 true "#eee"]
      else drawn in
    let drawn :=
      drawn ++ [Text (current_x st) (Int time_label_y) (Label_time start_time)
                     9 false "#ccc"] in
    mkDraw drawn process_colors color_index (num_add (current_x st) bar_width).

(** [draw_gantt_chart], on the canvas [c]. *)
Definition draw_gantt_chart (c : canvas) (gantt_chart : list gantt_entry) : canvas :=
  let c := mkCanvas [] (scrollregion c) in
  match last gantt_chart with
  | None => c
  | Some (_, _, max_time) =>
      let canvas_width_target := Z.max 1000 (max_time * 20) in
      let region := (0, 0, canvas_width_target + 50, 150) in
      let scale_factor :=
        if 0 <? max_time then num_div (Int canvas_width_target) (Int max_time)
        else Int 1 in
      let st := foldl (λ st entry, draw_entry scale_factor entry st)
                      (mkDraw [] [] 0 (Int padding)) gantt_chart in
      mkCanvas (drawn st ++ [Text (current_x st) (Int time_label_y)
                                  (Label_time max_time) 9 false "#ccc"])
               region
  end.

(** ** run_simulation *)

(** How the call of the scheduler inside [try] ends: with a result, with
    a [return] after a message box, or with an exception. *)
Inductive call :=
| Call_done (h' : heap) (r : result)
| Call_return (d : dialog)
| Call_raised (h' : heap) (e : gui_exn).

Definition call_of (o : heap * outcome) : call :=
  match o with
  | (h', Return r) => Call_done h' r
  | (h', Raise e) => Call_raised h' (Engine_error e)
  end.

(** The call of [round_robin], which stands inside the inner [try]: a
    [ValueError] it raised would be taken for one of the quantum entry. *)
Definition call_of_round_robin (o : heap * outcome) : call :=
  match o with
  | (h', Return r) => Call_done h' r
  | (h', Raise ValueError) => Call_return Quantum_error_integer
  | (h', Raise e) => Call_raised h' (Engine_error e)
  end.

(** The branch on [algorithm_name]; for a name that is none of the four,
    the initial values of the four variables stay. *)
Definition call_scheduler (fuel : nat) (algorithm_name : string) (g : gui)
  : option call :=
  let h := gui_heap g in
  if decide (algorithm_name = "fcfs") then Some (call_of (fcfs h (gui_processes g)))
  else if decide (algorithm_name = "sjf") then
    call_of <$> sjf fuel h (gui_processes g)
  else if decide (algorithm_name = "priority") then
    call_of <$> priority_scheduling fuel h (gui_processes g)
  else if decide (algorithm_name = "rr") then
    match gui_time_quantum g with
    | Var_int quantum =>
        if quantum <=? 0 then Some (Call_return Quantum_error_positive)
        else call_of_round_robin <$> round_robin fuel h (gui_processes g) quantum
    | Var_value_error => Some (Call_return Quantum_error_integer)
    | Var_other_error => Some (Call_raised h Tcl_error)
    end
  else Some (Call_done h empty_result).

(** The row of the results table for the process [p]. *)
Definition result_row (p : Process) : list Z :=
  [p_id p; arrival_time p; burst_time p; priority p;
   start_time p; completion_time p; waiting_time p; turnaround_time p].

Definition with_heap (h : heap) (g : gui) : gui :=
  mkGui h (gui_processes g) (process_id_counter g) (gui_time_quantum g)
        (arrival_entry g) (burst_entry g) (priority_entry g) (tree g)
        (gantt_canvas g) (metrics_label g) (results_tree g).

(** The display of the results. *)
Definition show_results (algorithm_name : string) (h' : heap) (r : result) (g : gui)
  : gui :=
  let quantum :=
    if decide (algorithm_name = "rr") then
      match gui_time_quantum g with Var_int quantum => Some quantum | _ => None end
    else None in
  mkGui h' (gui_processes g) (process_id_counter g) (gui_time_quantum g)
        (arrival_entry g) (burst_entry g) (priority_entry g) (tree g)
        (draw_gantt_chart (gantt_canvas g) (gantt_chart r))
        (Metrics_of algorithm_name (avg_waiting_time r) (avg_turnaround_time r) quantum)
        (result_row <$> objects h' (completed_processes r)).

(** [run_simulation]; [None] when [fuel] does not cover the loop of the
    scheduler. *)
Definition run_simulation (fuel : nat) (algorithm_name : string) (g : gui)
  : option (gui * list dialog) :=
  match gui_processes g with
  | [] => Some (g, [No_processes_warning])
  | _ =>
      let g := clear_results g in
      match call_scheduler fuel algorithm_name g with
      | None => None
      | Some (Call_return d) => Some (g, [d])
      | Some (Call_raised h' e) => Some (with_heap h' g, [Simulation_error e])
      | Some (Call_done h' r) => Some (show_results algorithm_name h' r g, [])
      end
  end.

(** ** The states of the window *)

(** What the user can do: type, press "Add Process", press "Clear All"
    and answer, press one of the four buttons. *)
Inductive gui_step (g : gui) : gui → Prop :=
| step_type arrival burst priority quantum :
    gui_step g (type_entries arrival burst priority quantum g)
| step_add : gui_step g (add_process g).1
| step_clear answer : gui_step g (clear_processes answer g)
| step_run fuel algorithm_name g' dialogs :
    algorithm_name ∈ ["fcfs"; "sjf"; "priority"; "rr"] →
    run_simulation fuel algorithm_name g = Some (g', dialogs) →
    gui_step g g'.

(** The states the window can be in, when it was opened on the store
    [h0]. *)
Inductive reachable (h0 : heap) : gui → Prop :=
| reachable_init : reachable h0 (gui_init h0)
| reachable_step g g' : reachable h0 g → gui_step g g' → reachable h0 g'.

(** The processes of the window are as they were entered: valid, with
    the ids 1, 2, ... in the order of entry, the next id being the
    counter, and the list view shows them. *)
Definition gui_ok (g : gui) : Prop :=
  Forall (λ r, (r < length (gui_heap g))%nat ∧ valid_process (gui_heap g !!! r))
         (gui_processes g) ∧
  (λ r, p_id (gui_heap g !!! r)) <$> gui_processes g
  = Z.of_nat <$> seq 1 (length (gui_processes g)) ∧
  process_id_counter g = Z.of_nat (length (gui_processes g)) + 1 ∧
  tree g = (λ r, static (gui_heap g !!! r)) <$> gui_processes g.

End gui.

(** ** What a simulation shows *)



(** ** No process waits while the processor is idle *)

(** For every idle gap of the chart of the result [r], each process
    returned has completed when the gap begins or arrives no earlier than
    it ends. *)
Definition idle_only_when_none_ready (h' : heap) (r : result) : Prop :=
  ∀ a b p, (Idle, a, b) ∈ gantt_chart r → p ∈ objects h' (completed_processes r) →
    completion_time p ≤ a ∨ b ≤ arrival_time p.

(** The same in a loop, of the chart so far: a process of the list [PL]
    is among the completed ones [finished_ones], with a completion time
    in the store [h] that is no later than the beginning of the gap, or
    it arrives no earlier than the gap ends. *)
Definition idle_ok (h1 : heap) (PL : list ref) (chart : list gantt_entry)
    (finished_ones : list ref) (h : heap) : Prop :=
  ∀ a b r, (Idle, a, b) ∈ chart → r ∈ PL →
    (r ∈ finished_ones ∧ completion_time (h !!! r) ≤ a) ∨ b ≤ arrival_time (h1 !!! r).

(** The process list in the order of arrival. *)
Definition by_arrival (h1 : heap) (PL : list ref) : Prop :=
  StronglySorted (λ a b, arrival_time (h1 !!! a) ≤ arrival_time (h1 !!! b)) PL.

(** Two processes with the processor idle before the first and between
    the two. *)
Definition gap_heap : heap := [Process_init 1 2 3 0; Process_init 2 10 1 0].

(** ** The colours of the bars *)

Section bars.
Context {F : Floats}.

(** The fill colours of the rectangles among the items [l], in the order
    in which they were drawn. *)
Definition rectangle_fills (l : list canvas_item) : list string :=
  omap (λ i, match i with
             | Rectangle _ _ _ _ fill _ => Some fill
             | Text _ _ _ _ _ _ => None
             end) l.

End bars.

(** The entries for which [draw_gantt_chart] draws a bar: those with a
    duration. *)
Definition bars (chart : list gantt_entry) : list gantt_entry :=
  filter (λ e, entry_start e < entry_end e) chart.

(** The fill colour of the bar of an entry, when the processes are
    coloured by [colour]. *)
Definition bar_fill (colour : Z → string) (e : gantt_entry) : string :=
  match occupant_of e with
  | Idle => "#555"
  | Pid id => colour id
  end.

(** The colour [process_colors] gives to a process. *)
Definition colour_in (d : list (Z * string)) (id : Z) : string :=
  default "" (color_of id d).

(** What the loop of [draw_gantt_chart] keeps, when it has drawn the
    entries [chart]: the keys of [process_colors] are the processes drawn,
    each once, in the order of their first bar; the colours are those of
    the palette in turn; and each bar drawn has the colour of its
    process. *)
Definition draw_inv `{F : Floats} (chart : list gantt_entry) (st : draw_state) : Prop :=
  rectangle_fills (drawn st) = bar_fill (colour_in (process_colors st)) <$> bars chart ∧
  NoDup (process_colors st).*1 ∧
  (∀ id, id ∈ (process_colors st).*1 ↔ id ∈ pids (bars chart)) ∧
  color_index st = length (process_colors st) ∧
  (∀ k id c, process_colors st !! k = Some (id, c) →
             c = colors !!! (k `mod` length colors)%nat).

(** ** The two averages differ by the mean burst time *)


(** ** One process at a time *)

(** No two processes of the list run at the same time: one has completed
    when the other starts. *)
Definition one_at_a_time (procs : list Process) : Prop :=
  ∀ p q, p ∈ procs → q ∈ procs → p_id p ≠ p_id q →
    completion_time p ≤ start_time q ∨ completion_time q ≤ start_time p.

(** ** From the first entry of a process to its last *)

(** In the chart the process [p] begins with its first entry and ends
    with its last: the first starts at its start time, the last ends at
    its completion time. *)
Definition spans_its_entries (chart : list gantt_entry) (p : Process) : Prop :=
  ∃ e0 el, head (entries_of (p_id p) chart) = Some e0 ∧
           last (entries_of (p_id p) chart) = Some el ∧
           entry_start e0 = start_time p ∧ entry_end el = completion_time p.

(** The same in the loop of [round_robin]: a process has no entry and no
    start time yet, or its first entry starts at its start time and, once
    nothing of its burst remains, its last entry ends at its completion
    time. *)
Definition rr_span (h1 : heap) (PL : list ref) (s : rr_state) : Prop :=
  ∀ r, r ∈ PL →
    let p := rr_heap s !!! r in
    let es := entries_of (p_id (h1 !!! r)) (rr_gantt s) in
    (es = [] ∧ start_time p = -1) ∨
    (∃ e0 el, head es = Some e0 ∧ last es = Some el ∧
              entry_start e0 = start_time p ∧ 0 ≤ start_time p ∧
              (remaining_burst_time p = 0 → entry_end el = completion_time p)).

(** ** The places of the bars *)

Section places.
Context {F : Floats}.

(** The left and right edges of the rectangles among the items [l], in
    the order in which they were drawn. *)
Definition rectangle_spans (l : list canvas_item) : list (num * num) :=
  omap (λ i, match i with
             | Rectangle x0 _ x1 _ _ _ => Some (x0, x1)
             | Text _ _ _ _ _ _ => None
             end) l.

(** The bars among the items [l] stand side by side: the first begins at
    the left padding, each of the others begins where the one before it
    ends, and the last ends at [right_end] (the padding when there is no
    bar). *)
Definition side_by_side (l : list canvas_item) (right_end : num) : Prop :=
  (∀ s, head (rectangle_spans l) = Some s → s.1 = Int padding) ∧
  adjacent (λ a b : num * num, b.1 = a.2) (rectangle_spans l) ∧
  right_end = default (Int padding) (snd <$> last (rectangle_spans l)).

(** What [draw_gantt_chart] leaves on the canvas [c'] for a chart: nothing
    for the empty chart; otherwise bars side by side, then the label of
    the time at which the last entry ends, below the right end of the last
    bar, with a scroll region as wide as the canvas needs. *)
Definition chart_drawn (chart : list gantt_entry) (c' : canvas) : Prop :=
  match last chart with
  | None => items c' = []
  | Some e =>
      ∃ l right_end,
        items c' = l ++ [Text right_end (Int time_label_y) (Label_time (entry_end e))
                              9 false "#ccc"] ∧
        side_by_side l right_end ∧
        scrollregion c' = (0, 0, Z.max 1000 (entry_end e * 20) + 50, 150)
  end.

End places.

(** ** The entries of round robin, in quanta *)

(** An entry of a process in the chart so far is a whole number of quanta
    long, unless it ends with the completion of its process. *)
Definition quanta_ok (h1 : heap) (time_quantum : Z) (chart : list gantt_entry)
    (finished_ones : list ref) (h : heap) : Prop :=
  ∀ i a b, (Pid i, a, b) ∈ chart →
    (b - a) `mod` time_quantum = 0 ∨
    ∃ r, r ∈ finished_ones ∧ p_id (h1 !!! r) = i ∧ completion_time (h !!! r) = b.

(** The same of the chart of the result [r]. *)
Definition entries_in_quanta (time_quantum : Z) (h' : heap) (r : result) : Prop :=
  ∀ i a b, (Pid i, a, b) ∈ gantt_chart r →
    (b - a) `mod` time_quantum = 0 ∨
    ∃ p, p ∈ objects h' (completed_processes r) ∧ p_id p = i ∧ completion_time p = b.

(** ** Round robin starts the processes in the order of arrival *)

(** In the loop of [round_robin], with the process list [PL] in the order
    of arrival: the processes of the ready queue that have not started
    yet, followed by the processes that have not arrived yet, are the
    process list from some place [j] on; the [j] processes before that
    place have started, each one later than the one before it, and all
    before the current time. *)
Definition rr_order (PL : list ref) (s : rr_state) : Prop :=
  ∃ j : nat,
    filter (λ r, start_time (rr_heap s !!! r) = -1) (ready_queue s)
      ++ drop (process_idx s) PL = drop j PL ∧
    StronglySorted Z.lt ((λ r, start_time (rr_heap s !!! r)) <$> take j PL) ∧
    Forall (λ r, 0 ≤ start_time (rr_heap s !!! r) < rr_time s) (take j PL).

(** Of two processes, the one that arrives earlier starts earlier. *)
Definition starts_in_arrival_order (procs : list Process) : Prop :=
  ∀ p q, p ∈ procs → q ∈ procs →
         arrival_time p < arrival_time q → start_time p < start_time q.

(** * Proofs *)

(** ** Lists and sorting *)

Lemma insert_by_perm {A} (key : A → Z) x l : insert_by key x l ≡ₚ x :: l.
Proof.
  induction l as [|y l IH]; simpl; [done|].
  destruct (key x <=? key y); [done|].
  rewrite IH. apply Permutation_swap.
Qed.

Lemma sorted_perm {A} (key : A → Z) l : sorted key l ≡ₚ l.
Proof.
  induction l as [|x l IH]; simpl; [done|].
  rewrite insert_by_perm. by f_equiv.
Qed.

Lemma sorted_length {A} (key : A → Z) (l : list A) : length (sorted key l) = length l.
Proof. apply Permutation_length, sorted_perm. Qed.

Lemma sorted_Forall {A} (P : A → Prop) (key : A → Z) l :
  Forall P l → Forall P (sorted key l).
Proof. intros H. by rewrite sorted_perm. Qed.



Lemma head_elem_of {A} (l : list A) x : head l = Some x → x ∈ l.
Proof. destruct l; simpl; intros [= ->]. apply list_elem_of_here. Qed.

Lemma remove_first_perm x l l' : remove_first x l = Some l' → l ≡ₚ x :: l'.
Proof.
  revert l'. induction l as [|y l IH]; simpl; intros l' H; [done|].
  destruct (Nat.eqb_spec y x) as [->|Hne].
  - by injection H as ->.
  - destruct (remove_first x l) as [l''|]; [|done].
    injection H as <-. rewrite (IH l'' eq_refl). apply Permutation_swap.
Qed.

Lemma remove_first_elem x l : x ∈ l → is_Some (remove_first x l).
Proof.
  induction l as [|y l IH]; simpl; intros H.
  - by apply elem_of_nil in H.
  - destruct (Nat.eqb_spec y x) as [->|Hne]; [by eexists|].
    apply elem_of_cons in H as [->|H]; [done|].
    destruct (IH H) as [l' ->]. by eexists.
Qed.

(** ** Loops *)

Lemma while_loop_inv {S} (I : S → Prop) (cond : S → bool) (body : S → ctrl S) :
  (∀ s, I s → cond s = true →
        match body s with Next s' | Break s' | Throw _ s' => I s' end) →
  ∀ fuel s r e, I s → while_loop fuel cond body s = Some (r, e) → I r.
Proof.
  intros Hstep fuel. induction fuel as [|fuel IH]; intros s r e Hs; simpl.
  - destruct (cond s); [done|]. by intros [= <- <-].
  - destruct (cond s) eqn:Hc; [|by intros [= <- <-]].
    specialize (Hstep s Hs Hc).
    destruct (body s) as [s'|s'|e' s'].
    + by apply IH.
    + by intros [= <- <-].
    + by intros [= <- <-].
Qed.

Lemma loop_state_inv {S} (I : S → Prop) (cond : S → bool) (body : S → ctrl S) :
  (∀ s s', I s → cond s = true → body s = Next s' → I s') →
  ∀ k s r, I s → loop_state k cond body s = Some r → I r ∧ cond r = true.
Proof.
  intros Hstep k. induction k as [|k IH]; intros s r Hs; simpl.
  - destruct (cond s) eqn:Hc; [|done]. by intros [= <-].
  - destruct (cond s) eqn:Hc; [|done].
    destruct (body s) as [s'|s'|e' s'] eqn:Hb; [|done..].
    apply IH. by eapply Hstep.
Qed.

(** A loop whose body always goes on to the next iteration, keeps an
    invariant and decreases a measure ends within [measure s] iterations,
    in a state where the invariant holds and the condition fails. *)
Lemma while_loop_total {S} (I : S → Prop) (measure : S → nat)
    (cond : S → bool) (body : S → ctrl S) :
  (∀ s, I s → cond s = true →
        ∃ s', body s = Next s' ∧ I s' ∧ (measure s' < measure s)%nat) →
  ∀ fuel s, I s → (measure s ≤ fuel)%nat →
    ∃ r, while_loop fuel cond body s = Some (r, None) ∧ I r ∧ cond r = false.
Proof.
  intros Hstep fuel. induction fuel as [|fuel IH]; intros s Hs Hm; simpl.
  - destruct (cond s) eqn:Hc; [|by eexists].
    destruct (Hstep s Hs Hc) as (s' & _ & _ & Hlt). lia.
  - destruct (cond s) eqn:Hc; [|by eexists].
    destruct (Hstep s Hs Hc) as (s' & -> & Hs' & Hlt).
    apply IH; [done|lia].
Qed.

(** ** The copies are new objects; the caller's objects are not written *)

Lemma memo_find_extend (base : nat) memo (h : heap) r :
  (∀ o n, memo_find memo o = Some n → (base ≤ n < length h)%nat) →
  (base ≤ length h)%nat →
  ∀ o n, memo_find ((r, length h) :: memo) o = Some n →
         (base ≤ n < length (h ++ [h !!! r]))%nat.
Proof.
  intros Hm Hb o n. simpl. rewrite length_app. simpl.
  destruct (Nat.eqb r o).
  - intros [= <-]. lia.
  - intros H. apply Hm in H. lia.
Qed.

Lemma deepcopy_memo_frame (base : nat) processes :
  ∀ memo h h' copies,
    deepcopy_memo memo h processes = (h', copies) →
    (∀ o n, memo_find memo o = Some n → (base ≤ n < length h)%nat) →
    (base ≤ length h)%nat →
    take base h' = take base h ∧ (length h ≤ length h')%nat ∧
    Forall (λ r, (base ≤ r < length h')%nat) copies.
Proof.
  induction processes as [|r rest IH]; intros memo h h' copies; simpl.
  - intros [= <- <-] _ _. by repeat split.
  - destruct (memo_find memo r) as [r'|] eqn:Hf.
    + destruct (deepcopy_memo memo h rest) as [h1 c1] eqn:Hd.
      intros [= <- <-] Hm Hb.
      destruct (IH _ _ _ _ Hd Hm Hb) as (Ht & Hl & Hc).
      repeat split; [done..|]. constructor; [|done].
      apply Hm in Hf. lia.
    + destruct (deepcopy_memo _ (h ++ [h !!! r]) rest) as [h1 c1] eqn:Hd.
      intros [= <- <-] Hm Hb.
      destruct (IH _ _ _ _ Hd (memo_find_extend base memo h r Hm Hb)) as (Ht & Hl & Hc).
      { rewrite length_app. lia. }
      rewrite length_app in Hl. simpl in Hl.
      repeat split; [|lia|].
      * rewrite Ht. by apply take_app_le.
      * constructor; [lia|done].
Qed.

Lemma deepcopy_frame h processes h' copies :
  deepcopy h processes = (h', copies) →
  take (length h) h' = h ∧ Forall (λ r, (length h ≤ r < length h')%nat) copies.
Proof.
  intros Hd.
  destruct (deepcopy_memo_frame (length h) processes [] h h' copies Hd)
    as (Ht & _ & Hc); [done|done|].
  split; [|done]. rewrite Ht. apply firstn_all.
Qed.

Section Frame.
Variable base : nat.

Lemma fcfs_body_frame proc s :
  (base ≤ proc)%nat →
  take base (sim_heap (fcfs_body proc s)) = take base (sim_heap s).
Proof.
  intros Hp. unfold fcfs_body. cbn [sim_heap].
  rewrite !take_alter_ge by done.
  by destruct (_ <? _).
Qed.

Lemma fcfs_loop_frame process_queue : ∀ s,
  Forall (λ r, (base ≤ r)%nat) process_queue →
  take base (sim_heap (fcfs_loop process_queue s)) = take base (sim_heap s).
Proof.
  induction process_queue as [|proc q IH]; intros s Hq; simpl; [done|].
  apply Forall_cons in Hq as [Hp Hq].
  rewrite IH by done. by apply fcfs_body_frame.
Qed.

Lemma np_run_frame proc s :
  (base ≤ proc)%nat →
  take base (sim_heap (np_run proc s)) = take base (sim_heap s).
Proof.
  intros Hp. unfold np_run. cbn [sim_heap].
  rewrite !take_alter_ge by done.
  destruct (_ =? _); [|done]. by rewrite take_alter_ge.
Qed.

Lemma np_ready_frame st s ready_queue :
  np_ready st = inr (s, ready_queue) →
  sim_heap s = sim_heap (np_sim st) ∧ ready_queue ⊆ remaining_processes st.
Proof.
  unfold np_ready.
  destruct (ready_at _ _ _) as [|p l] eqn:Hr.
  - destruct (min_of _) as [m|]; [|done].
    intros [= <- <-]. split.
    + by destruct (_ <? _).
    + intros x Hx. by apply list_elem_of_filter in Hx as [_ Hx].
  - intros [= <- <-]. split; [done|].
    rewrite <- Hr. intros x Hx. by apply list_elem_of_filter in Hx as [_ Hx].
Qed.

Lemma np_select_elem key h ready_queue proc :
  np_select key h ready_queue = Some proc → proc ∈ ready_queue.
Proof.
  unfold np_select. intros H%head_elem_of. by rewrite sorted_perm in H.
Qed.

Lemma np_body_frame key h0 st :
  np_frame base h0 st →
  match np_body key st with Next st' | Break st' | Throw _ st' => np_frame base h0 st' end.
Proof.
  intros [Hh Hr]. unfold np_body.
  destruct (np_ready st) as [e|[s ready_queue]] eqn:Hrd; [done|].
  apply np_ready_frame in Hrd as [Hs Hsub].
  destruct (np_select key (sim_heap s) ready_queue) as [proc|] eqn:Hsel.
  - apply np_select_elem in Hsel. apply Hsub in Hsel.
    destruct (remove_first proc (remaining_processes st)) as [rem'|] eqn:Hrm.
    + apply remove_first_perm in Hrm. rewrite Hrm in Hr.
      apply Forall_cons in Hr as [Hp Hr].
      split; cbn [np_sim remaining_processes]; [|done].
      rewrite np_run_frame by done. by rewrite Hs.
    + split; cbn [np_sim remaining_processes]; [by rewrite Hs|done].
  - destruct (remaining_processes st); split;
      cbn [np_sim remaining_processes]; by rewrite ?Hs.
Qed.
End Frame.

Section FrameRR.
Variable base : nat.
Variable process_list : list ref.
Hypothesis process_list_new : Forall (λ r, (base ≤ r)%nat) process_list.

Lemma enqueue_arrivals_frame pending : ∀ now h queue idx h' queue' idx',
  enqueue_arrivals pending now h queue idx = (h', queue', idx') →
  Forall (λ r, (base ≤ r)%nat) pending →
  Forall (λ r, (base ≤ r)%nat) queue →
  take base h' = take base h ∧ Forall (λ r, (base ≤ r)%nat) queue'.
Proof.
  induction pending as [|p pending IH]; intros now h queue idx h' queue' idx'; simpl.
  - by intros [= <- <- <-].
  - destruct (_ <=? _).
    + intros Ha [Hp Hpend]%Forall_cons Hq.
      apply IH in Ha as [Ht Hq']; [|done|].
      * split; [|done]. rewrite Ht. by apply take_alter_ge.
      * apply Forall_app. split; [done|]. by constructor.
    + by intros [= <- <- <-].
Qed.

Lemma rr_idle_frame h0 t s :
  rr_frame base h0 s →
  match rr_idle t s with Next s' | Break s' | Throw _ s' => rr_frame base h0 s' end.
Proof.
  intros Hs. unfold rr_idle.
  destruct (last_gantt_entry s) as [[[occ first] last_end]|]; [|done].
  destruct (negb (occupant_eqb occ Idle)); [done|].
  destruct (occupant_eqb occ Idle); [|done].
  by destruct (set_last _ _).
Qed.

Lemma rr_run_frame h0 time_quantum proc queue s :
  rr_frame base h0 s →
  (base ≤ proc)%nat → Forall (λ r, (base ≤ r)%nat) queue →
  match rr_run process_list time_quantum proc queue s with
  | Next s' | Break s' | Throw _ s' => rr_frame base h0 s'
  end.
Proof.
  intros [Hh Hs] Hp Hq. unfold rr_run.
  destruct (rr_chart _ _ _ _) as [chart|]; [|done].
  destruct (enqueue_arrivals _ _ _ _ _) as [[h queue'] idx] eqn:Ha.
  apply enqueue_arrivals_frame in Ha as [Ht Hq']; [|by apply Forall_drop|done].
  rewrite take_alter_ge in Ht by done.
  assert (take base h = take base h0) as Hh'.
  { rewrite Ht, <- Hh. destruct (_ =? _); [|done]. by apply take_alter_ge. }
  destruct (_ =? 0); split; cbn [rr_heap ready_queue].
  - by rewrite !take_alter_ge.
  - done.
  - done.
  - apply Forall_app. split; [done|]. by constructor.
Qed.

Lemma rr_body_frame h0 time_quantum s :
  rr_frame base h0 s →
  match rr_body process_list time_quantum s with
  | Next s' | Break s' | Throw _ s' => rr_frame base h0 s'
  end.
Proof.
  intros [Hh Hq]. unfold rr_body.
  destruct (enqueue_arrivals _ _ _ _ _) as [[h queue] idx] eqn:Ha.
  apply enqueue_arrivals_frame in Ha as [Ht Hq']; [|by apply Forall_drop|done].
  rewrite Hh in Ht.
  destruct queue as [|proc queue].
  - destruct (_ <? _)%nat; [|done].
    destruct (_ <? _); [|done]. by apply rr_idle_frame.
  - apply rr_run_frame; [done|by eapply Forall_cons_1|by eapply Forall_cons_1].
Qed.
End FrameRR.

(** ** C9: the caller's objects are left unchanged *)

Lemma finish_heap s : (finish s).1 = sim_heap s.
Proof. unfold finish. by destruct (completed s). Qed.

Lemma rr_finish_heap n s : (rr_finish n s).1 = rr_heap s.
Proof. unfold rr_finish. by destruct (completed_processes_dict s). Qed.

Lemma fcfs_frame h processes : take (length h) (fcfs h processes).1 = h.
Proof.
  unfold fcfs. destruct (deepcopy h processes) as [h1 copies] eqn:Hd.
  apply deepcopy_frame in Hd as [Ht Hc].
  rewrite finish_heap, fcfs_loop_frame; [done|].
  apply sorted_Forall. eapply Forall_impl; [exact Hc|]. simpl. lia.
Qed.

Lemma nonpreemptive_frame key fuel h processes :
  take (length h) (heap_after h (nonpreemptive key fuel h processes)) = h.
Proof.
  unfold nonpreemptive. destruct (deepcopy h processes) as [h1 copies] eqn:Hd.
  apply deepcopy_frame in Hd as [Ht Hc].
  destruct (while_loop _ _ _ _) as [[st e]|] eqn:Hw; [|apply firstn_all].
  assert (np_frame (length h) h1 st) as [Hst _].
  { eapply (while_loop_inv (np_frame (length h) h1)); [| |exact Hw].
    - intros s Hs _. by apply np_body_frame.
    - split; [done|]. apply sorted_Forall.
      eapply Forall_impl; [exact Hc|]. simpl. lia. }
  destruct e as [e|]; simpl.
  - by rewrite Hst.
  - destruct (finish (np_sim st)) as [h2 o] eqn:Hf. simpl.
    pose proof (finish_heap (np_sim st)) as Hfh. rewrite Hf in Hfh. simpl in Hfh.
    by rewrite Hfh, Hst.
Qed.

Lemma round_robin_frame fuel h processes time_quantum :
  take (length h) (heap_after h (round_robin fuel h processes time_quantum)) = h.
Proof.
  unfold round_robin. destruct (_ <=? 0); [apply firstn_all|].
  destruct (deepcopy h processes) as [h1 copies] eqn:Hd.
  apply deepcopy_frame in Hd as [Ht Hc].
  destruct (while_loop _ _ _ _) as [[s e]|] eqn:Hw; [|apply firstn_all].
  assert (rr_frame (length h) h1 s) as [Hs _].
  { eapply (while_loop_inv (rr_frame (length h) h1)); [| |exact Hw].
    - intros s0 Hs0 _. apply rr_body_frame; [|done]. apply sorted_Forall.
      eapply Forall_impl; [exact Hc|]. simpl. lia.
    - by split. }
  destruct e as [e|]; simpl.
  - by rewrite Hs.
  - destruct (rr_finish _ s) as [h2 o] eqn:Hf. simpl.
    pose proof (rr_finish_heap (length (sorted (λ p, arrival_time (h1 !!! p)) copies)) s) as Hfh.
    rewrite Hf in Hfh. simpl in Hfh. by rewrite Hfh, Hs.
Qed.

(** ** Round robin raises nothing but the check of the quantum *)








(** ** C8: the empty list *)

Lemma nonpreemptive_empty key fuel (h : heap) :
  nonpreemptive key fuel h [] = Some (h, Return empty_result).
Proof. by destruct fuel. Qed.

Lemma round_robin_empty fuel (h : heap) time_quantum :
  round_robin fuel h [] time_quantum =
  Some (h, if time_quantum <=? 0 then Raise ValueError else Return empty_result).
Proof. unfold round_robin. destruct (_ <=? 0); [done|]. by destruct fuel. Qed.

(** C8, as the code has it.  No function of the scheduler rejects the
    empty list: each returns the empty result (empty chart, both averages
    0.0, no process) and leaves the store as it was.  [round_robin] does so
    for a positive quantum; its check of the quantum comes first. *)
Theorem C8_empty_input_returns_empty_result fuel (h : heap) time_quantum :
  fcfs h [] = (h, Return empty_result) ∧
  sjf fuel h [] = Some (h, Return empty_result) ∧
  priority_scheduling fuel h [] = Some (h, Return empty_result) ∧
  round_robin fuel h [] time_quantum =
    Some (h, if time_quantum <=? 0 then Raise ValueError else Return empty_result).
Proof.
  split; [done|]. split; [apply nonpreemptive_empty|].
  split; [apply nonpreemptive_empty|apply round_robin_empty].
Qed.

(** C8 as claimed fails: on the empty list the four calls return, none
    raises. *)
Lemma C8_counterexample :
  fcfs [] [] = ([], Return empty_result) ∧
  sjf 0 [] [] = Some ([], Return empty_result) ∧
  priority_scheduling 0 [] [] = Some ([], Return empty_result) ∧
  round_robin 0 [] [] 2 = Some ([], Return empty_result).
Proof. by repeat split. Qed.

(** C9.  Every object that exists when a scheduling function is called,
    the processes of the caller's list among them, is the same object with
    the same attributes when the call ends, however it ends: the store
    after the call is the store before it, followed by the copies the call
    made.  The functions take all they use from the store and the list
    passed in; there is nothing else for them to keep. *)
Theorem C9_input_processes_unchanged fuel (h : heap) (processes : list ref) time_quantum :
  take (length h) (fcfs h processes).1 = h ∧
  take (length h) (heap_after h (sjf fuel h processes)) = h ∧
  take (length h) (heap_after h (priority_scheduling fuel h processes)) = h ∧
  take (length h) (heap_after h (round_robin fuel h processes time_quantum)) = h.
Proof.
  split; [apply fcfs_frame|]. split; [apply nonpreemptive_frame|].
  split; [apply nonpreemptive_frame|apply round_robin_frame].
Qed.

(** ** The copy of a valid input *)

Lemma deepcopy_memo_fresh (h : heap) processes : ∀ memo ext,
  Forall (λ r, (r < length h)%nat) processes →
  NoDup processes →
  Forall (λ r, memo_find memo r = None) processes →
  deepcopy_memo memo (h ++ ext) processes =
    (h ++ ext ++ ((h !!!.) <$> processes),
     seq (length (h ++ ext)) (length processes)).
Proof.
  induction processes as [|r rest IH]; intros memo ext Hb Hn Hm; simpl.
  - by rewrite app_nil_r.
  - apply Forall_cons in Hb as [Hr Hb]. apply NoDup_cons in Hn as [Hnr Hn].
    apply Forall_cons in Hm as [Hmr Hm]. rewrite Hmr.
    rewrite lookup_total_app_l by done.
    rewrite <- (assoc_L (++) h ext).
    rewrite IH; [|done|done|].
    + rewrite length_app. simpl. rewrite <- (assoc_L (++) ext). simpl.
      rewrite !length_app. simpl. do 3 f_equal. lia.
    + apply Forall_forall. intros x Hx. simpl.
      destruct (Nat.eqb_spec r x) as [->|_]; [done|].
      by eapply Forall_forall in Hm.
Qed.

Lemma NoDup_fmap_inv {A B} (f : A → B) (l : list A) : NoDup (f <$> l) → NoDup l.
Proof.
  induction l as [|x l IH]; simpl; intros H; [constructor|].
  apply NoDup_cons in H as [Hx Hl]. apply NoDup_cons. split; [|by apply IH].
  intros Hin. apply Hx. by apply list_elem_of_fmap_2.
Qed.

Lemma deepcopy_valid (h : heap) processes :
  valid_input h processes →
  deepcopy h processes =
    (h ++ ((h !!!.) <$> processes), seq (length h) (length processes)) ∧
  valid_input (h ++ ((h !!!.) <$> processes)) (seq (length h) (length processes)).
Proof.
  intros (Hne & Hv & Hid).
  assert (∀ i, (i < length processes)%nat →
               (h ++ ((h !!!.) <$> processes)) !!! (length h + i)%nat
               = h !!! (processes !!! i)) as Hcopy.
  { intros i Hi. rewrite lookup_total_app_r by lia.
    replace (length h + i - length h)%nat with i by lia.
    by rewrite (list_lookup_total_fmap (λ r : nat, h !!! r) processes i Hi). }
  split.
  - unfold deepcopy.
    pose proof (deepcopy_memo_fresh h processes [] []) as H.
    rewrite !app_nil_r in H. simpl in H. apply H.
    + eapply Forall_impl; [exact Hv|]. by intros r [? _].
    + by eapply NoDup_fmap_inv.
    + by apply Forall_forall.
  - split; [|split].
    + destruct processes; [done|]. simpl. done.
    + apply Forall_forall. intros r Hr.
      apply elem_of_seq in Hr as [Hr1 Hr2].
      rewrite length_app, length_fmap. split; [lia|].
      replace r with (length h + (r - length h))%nat by lia.
      rewrite Hcopy by lia.
      eapply Forall_forall in Hv as [_ Hv]; [exact Hv|].
      apply list_elem_of_lookup_total_2. lia.
    + assert (((λ r, p_id ((h ++ ((h !!!.) <$> processes)) !!! r))
                 <$> seq (length h) (length processes))
              = (λ r, p_id (h !!! r)) <$> processes) as ->; [|done].
      apply list_eq. intros i. rewrite !list_lookup_fmap.
      destruct (decide (i < length processes)%nat) as [Hi|Hi].
      * rewrite lookup_seq_lt by done. simpl. rewrite Hcopy by done.
        by rewrite (list_lookup_lookup_total_lt processes i Hi).
      * rewrite lookup_seq_ge by lia. by rewrite lookup_ge_None_2 by lia.
Qed.

(** ** Charts *)

Lemma adjacent_snoc {A} (R : A → A → Prop) l x :
  adjacent R (l ++ [x]) ↔ adjacent R l ∧ (∀ y, last l = Some y → R y x).
Proof.
  induction l as [|a l IH]; simpl.
  - split; [|done]. intros _. split; [done|]. by intros y [=].
  - rewrite IH. destruct l as [|b l]; simpl.
    + split.
      * intros [H _]. split; [done|]. by intros y [= <-].
      * intros [_ H]. split; [by apply H|]. split; [done|]. by intros y [=].
    + tauto.
Qed.

Lemma sumZ_snoc {A} (f : A → Z) l x : sumZ f (l ++ [x]) = sumZ f l + f x.
Proof. unfold sumZ. induction l as [|a l IH]; simpl; lia. Qed.

Lemma sumZ_app {A} (f : A → Z) l k : sumZ f (l ++ k) = sumZ f l + sumZ f k.
Proof. unfold sumZ. induction l as [|a l IH]; simpl; lia. Qed.

Lemma sumZ_perm {A} (f : A → Z) l k : l ≡ₚ k → sumZ f l = sumZ f k.
Proof. unfold sumZ. induction 1; simpl; lia. Qed.

Lemma sumZ_ext {A} (f g : A → Z) l :
  (∀ x, x ∈ l → f x = g x) → sumZ f l = sumZ g l.
Proof.
  unfold sumZ. induction l as [|a l IH]; simpl; intros H; [done|].
  rewrite H, IH; [done| |apply list_elem_of_here].
  intros x Hx. apply H. by apply list_elem_of_further.
Qed.

Lemma sumZ_fmap {A B} (g : A → B) (f : B → Z) l : sumZ f (g <$> l) = sumZ (f ∘ g) l.
Proof. unfold sumZ. induction l as [|a l IH]; simpl; [done|]. by f_equal. Qed.

Lemma head_snoc {A} (l : list A) x e :
  head (l ++ [x]) = Some e → head l = Some e ∨ (l = [] ∧ e = x).
Proof. destruct l; simpl; intros [= <-]; auto. Qed.

(** ** Writing one object *)

Lemma alter_as_insert (f : Process → Process) (h : heap) i :
  alter f i h = <[i := f (h !!! i)]> h.
Proof.
  destruct (decide (i < length h)%nat) as [Hi|Hi].
  - apply list_eq. intros j. destruct (decide (i = j)) as [<-|Hne].
    + rewrite list_lookup_alter_eq, list_lookup_insert_eq by done.
      by rewrite (list_lookup_lookup_total_lt h i Hi).
    + by rewrite list_lookup_alter_ne, list_lookup_insert_ne.
  - rewrite list_insert_ge by lia.
    apply list_eq. intros j. destruct (decide (i = j)) as [<-|Hne].
    + rewrite list_lookup_alter_eq. by rewrite lookup_ge_None_2 by lia.
    + by rewrite list_lookup_alter_ne.
Qed.

Lemma calculate_metrics_finished p start :
  start + burst_time p ≠ -1 →
  calculate_metrics (set_completion_time (start + burst_time p) (set_start_time start p))
  = finished p start.
Proof.
  intros Hne. destruct p as [id arr burst prio rem st ct wt tat].
  unfold calculate_metrics, finished, set_completion_time, set_start_time,
    set_turnaround_time, set_waiting_time in *.
  cbn [completion_time waiting_time turnaround_time arrival_time burst_time
       p_id priority remaining_burst_time start_time] in *.
  destruct (Z.eqb_spec (start + burst) (-1)) as [|_]; [done|].
  cbn [negb].
  destruct (Z.ltb_spec (start + burst - arr - burst) 0);
    cbn [completion_time waiting_time turnaround_time arrival_time burst_time
         p_id priority remaining_burst_time start_time]; f_equal; lia.
Qed.

Lemma np_run_spec proc s :
  start_time (sim_heap s !!! proc) = -1 →
  current_time s + burst_time (sim_heap s !!! proc) ≠ -1 →
  (proc < length (sim_heap s))%nat →
  np_run proc s =
    let p := finished (sim_heap s !!! proc) (current_time s) in
    mkSim (<[proc := p]> (sim_heap s)) (completed s ++ [proc])
          (gantt s ++ [(Pid (p_id p), current_time s, completion_time p)])
          (completion_time p)
          (total_waiting_time s + waiting_time p)
          (total_turnaround_time s + turnaround_time p).
Proof.
  intros Hst Hne Hlt. unfold np_run. rewrite Hst. cbn [Z.eqb Pos.eqb].
  rewrite (list_lookup_total_alter_eq _ (sim_heap s) proc Hlt).
  cbn [burst_time set_start_time].
  rewrite !list_alter_alter_eq.
  rewrite list_lookup_total_alter_eq by done.
  rewrite alter_as_insert.
  rewrite list_lookup_total_insert_eq by done.
  cbn [compose completion_time set_completion_time p_id set_start_time].
  rewrite calculate_metrics_finished by done. reflexivity.
Qed.

Lemma fcfs_body_np_run proc s :
  start_time (sim_heap s !!! proc) = -1 →
  (proc < length (sim_heap s))%nat →
  fcfs_body proc s =
  np_run proc (if current_time s <? arrival_time (sim_heap s !!! proc)
               then idle_until (arrival_time (sim_heap s !!! proc)) s else s).
Proof.
  intros Hst Hlt. unfold fcfs_body, np_run.
  set (s0 := if _ <? _ then _ else _).
  assert (sim_heap s0 = sim_heap s) as Hh by (unfold s0; by destruct (_ <? _)).
  rewrite Hh, Hst. reflexivity.
Qed.

(** ** One dispatch of a non-preemptive loop *)

Lemma NoDup_fmap_inj_on {A B} (f : A → B) (l : list A) x y :
  NoDup (f <$> l) → x ∈ l → y ∈ l → f x = f y → x = y.
Proof.
  induction l as [|a l IH]; simpl; intros Hn Hx Hy Hf.
  - by apply elem_of_nil in Hx.
  - apply NoDup_cons in Hn as [Ha Hn].
    apply elem_of_cons in Hx as [->|Hx]; apply elem_of_cons in Hy as [->|Hy].
    + done.
    + exfalso. apply Ha. rewrite Hf. by apply list_elem_of_fmap_2.
    + exfalso. apply Ha. rewrite <- Hf. by apply list_elem_of_fmap_2.
    + by apply IH.
Qed.

Lemma valid_input_lookup h PL r :
  valid_input h PL → r ∈ PL → (r < length h)%nat ∧ valid_process (h !!! r).
Proof. intros (_ & Hv & _) Hr. by eapply Forall_forall in Hv. Qed.

Lemma valid_input_ids h PL r r' :
  valid_input h PL → r ∈ PL → r' ∈ PL →
  p_id (h !!! r) = p_id (h !!! r') → r = r'.
Proof.
  intros (_ & _ & Hid) Hr Hr' Heq.
  by eapply (NoDup_fmap_inj_on (λ r, p_id (h !!! r))).
Qed.

Lemma static_field_eqs p q :
  static p = static q →
  p_id p = p_id q ∧ arrival_time p = arrival_time q ∧
  burst_time p = burst_time q ∧ priority p = priority q.
Proof. unfold static. by intros [= -> -> -> ->]. Qed.

Lemma sim_inv_weaken h1 PL s : sim_inv h1 PL false s → sim_inv h1 PL true s.
Proof.
  intros []. constructor; try done.
  intros e He. destruct (inv_last0 e He) as [? [[? _]|?]]; [done|]. by split; [|right].
Qed.

Lemma sim_inv_idle h1 PL s t :
  sim_inv h1 PL false s → current_time s < t →
  sim_inv h1 PL true (idle_until t s).
Proof.
  intros [] Ht. unfold idle_until.
  constructor; cbn [sim_heap completed gantt current_time]; try done.
  - lia.
  - intros r Hr. destruct (inv_done0 r Hr) as (? & ? & ?).
    split; [done|]. split; [done|lia].
  - apply adjacent_snoc. split; [done|]. intros y Hy.
    by destruct (inv_last0 y Hy) as [-> _].
  - apply Forall_app. split; [done|]. by constructor.
  - intros e [He|[Hnil ->]]%head_snoc; [by apply inv_head0|].
    by destruct (inv_empty0 Hnil) as [-> _].
  - intros e. rewrite last_snoc. intros [= <-]. split; [done|]. by left.
  - by intros [_ ?]%app_eq_nil.
  - apply adjacent_snoc. split; [done|]. intros y Hy.
    destruct (inv_last0 y Hy) as [_ [[? _]|(r & _ & _ & ->)]]; done.
  - unfold busy_time. rewrite sumZ_snoc. unfold busy at 2. cbn [occupant_of fst].
    unfold busy_time in inv_busy0. lia.
  - intros e i [He|He%list_elem_of_singleton]%elem_of_app Ho;
      [by eapply inv_occ0|by subst].
  - unfold pids. rewrite omap_app. simpl. by rewrite app_nil_r.
Qed.

Lemma sim_inv_run h1 PL s proc :
  valid_input h1 PL → sim_inv h1 PL true s →
  proc ∈ PL → proc ∉ completed s →
  arrival_time (h1 !!! proc) ≤ current_time s →
  sim_inv h1 PL false (np_run proc s) ∧
  np_run proc s =
    mkSim (<[proc := finished (h1 !!! proc) (current_time s)]> (sim_heap s))
          (completed s ++ [proc])
          (gantt s ++ [(Pid (p_id (h1 !!! proc)), current_time s,
                        current_time s + burst_time (h1 !!! proc))])
          (current_time s + burst_time (h1 !!! proc))
          (total_waiting_time s
           + waiting_time (finished (h1 !!! proc) (current_time s)))
          (total_turnaround_time s
           + turnaround_time (finished (h1 !!! proc) (current_time s))).
Proof.
  intros Hv [] Hin Hnc Harr.
  destruct (valid_input_lookup _ _ _ Hv Hin) as (Hlt & Hinit & Ha & Hb & Hp).
  pose proof (inv_fresh0 proc Hin Hnc) as Hfresh.
  destruct inv_static0 as [Hlen Hst].
  assert (start_time (h1 !!! proc) = -1) as Hstart by (by rewrite Hinit).
  assert (np_run proc s = mkSim
            (<[proc := finished (h1 !!! proc) (current_time s)]> (sim_heap s))
            (completed s ++ [proc])
            (gantt s ++ [(Pid (p_id (h1 !!! proc)), current_time s,
                          current_time s + burst_time (h1 !!! proc))])
            (current_time s + burst_time (h1 !!! proc))
            (total_waiting_time s
             + waiting_time (finished (h1 !!! proc) (current_time s)))
            (total_turnaround_time s
             + turnaround_time (finished (h1 !!! proc) (current_time s)))) as Heq.
  { rewrite np_run_spec; rewrite ?Hfresh; [done|done|lia|lia]. }
  split; [|done]. rewrite Heq. clear Heq.
  set (P := finished (h1 !!! proc) (current_time s)).
  assert (∀ r, r ≠ proc → <[proc := P]> (sim_heap s) !!! r = sim_heap s !!! r) as Hother.
  { intros r Hr. by rewrite list_lookup_total_insert_ne. }
  assert (<[proc := P]> (sim_heap s) !!! proc = P) as Hself.
  { rewrite list_lookup_total_insert_eq; [done|lia]. }
  assert (∀ r, r ∈ completed s → r ≠ proc) as Hne by (intros r Hr ->; done).
  constructor; cbn [sim_heap completed gantt current_time].
  - split; [by rewrite length_insert|]. intros r.
    destruct (decide (r = proc)) as [->|Hr]; [by rewrite Hself|].
    by rewrite Hother.
  - intros r [Hr|Hr%list_elem_of_singleton]%elem_of_app; [by apply inv_sub0|by subst].
  - apply NoDup_app. split; [done|]. split; [|apply NoDup_singleton].
    intros r Hr Hr'%list_elem_of_singleton. by subst.
  - intros r Hr Hnr. rewrite Hother; [apply inv_fresh0; [done|]|].
    + intros ?. apply Hnr, elem_of_app. by left.
    + intros ->. apply Hnr, elem_of_app. right. by apply list_elem_of_singleton.
  - lia.
  - intros r [Hr|Hr%list_elem_of_singleton]%elem_of_app; [|subst r].
    + rewrite Hother by auto. destruct (inv_done0 r Hr) as (? & ? & ?).
      split; [done|]. split; [done|lia].
    + rewrite Hself. unfold metrics_ok, run_once, P, finished.
      cbn [turnaround_time completion_time arrival_time waiting_time burst_time start_time].
      repeat split; lia.
  - apply adjacent_snoc. split; [done|]. intros y Hy.
    by destruct (inv_last0 y Hy) as [-> _].
  - apply Forall_app. split; [done|]. constructor; [|done].
    unfold entry_start, entry_end. simpl. lia.
  - intros e [He|[Hnil ->]]%head_snoc; [by apply inv_head0|].
    by destruct (inv_empty0 Hnil) as [-> _].
  - intros e. rewrite last_snoc. intros [= <-]. split; [done|]. right.
    exists proc. split; [|by rewrite Hself].
    apply elem_of_app. right. by apply list_elem_of_singleton.
  - by intros [_ ?]%app_eq_nil.
  - apply adjacent_snoc. split; [done|]. intros y Hy.
    destruct (inv_last0 y Hy) as [_ [[_ ->]|(r & Hr & _ & ->)]]; [done|].
    cbn [occupant_of fst]. intros [= Hid]. apply (Hne r Hr).
    eapply valid_input_ids; [done|by apply inv_sub0|done|done].
  - unfold busy_time. rewrite !sumZ_snoc. unfold busy at 2.
    unfold entry_start, entry_end. cbn [occupant_of fst snd].
    unfold busy_time in inv_busy0. lia.
  - intros e i [He|He%list_elem_of_singleton]%elem_of_app Ho.
    + destruct (inv_occ0 e i He Ho) as (r & Hr & Hi). exists r. split; [|done].
      apply elem_of_app. by left.
    + subst e. injection Ho as <-. exists proc. split; [|done].
      apply elem_of_app. right. by apply list_elem_of_singleton.
  - unfold pids. rewrite omap_app, fmap_app. simpl. by f_equal.
Qed.

Lemma sim_inv_init h1 PL : sim_inv h1 PL false (sim_init h1).
Proof.
  constructor; cbn [sim_init sim_heap completed gantt current_time]; try done.
  - intros r Hr. by apply elem_of_nil in Hr.
  - apply NoDup_nil_2.
  - intros r Hr. by apply elem_of_nil in Hr.
  - intros e i He. by apply elem_of_nil in He.
Qed.

(** ** The loop of fcfs *)

Lemma valid_input_NoDup h PL : valid_input h PL → NoDup PL.
Proof. intros (_ & _ & Hid). by eapply NoDup_fmap_inv. Qed.

Lemma valid_input_perm h PL PL' : PL ≡ₚ PL' → valid_input h PL → valid_input h PL'.
Proof.
  intros Hp (Hne & Hv & Hid). split; [|split].
  - intros ->. by apply Permutation_nil_r in Hp.
  - by rewrite <- Hp.
  - by rewrite <- Hp.
Qed.

Lemma fcfs_body_inv h1 PL s proc :
  valid_input h1 PL → sim_inv h1 PL false s →
  proc ∈ PL → proc ∉ completed s →
  sim_inv h1 PL false (fcfs_body proc s) ∧
  completed (fcfs_body proc s) = completed s ++ [proc].
Proof.
  intros Hv Hs Hin Hnc.
  destruct (valid_input_lookup _ _ _ Hv Hin) as (Hlt & Hinit & _).
  pose proof (inv_fresh _ _ _ _ Hs proc Hin Hnc) as Hfresh.
  pose proof (inv_static _ _ _ _ Hs) as [Hlen _].
  rewrite fcfs_body_np_run; [|rewrite Hfresh; by rewrite Hinit|lia].
  rewrite Hfresh.
  destruct (Z.ltb_spec (current_time s) (arrival_time (h1 !!! proc))) as [Hlt'|Hge].
  - assert (sim_inv h1 PL true (idle_until (arrival_time (h1 !!! proc)) s)) as H0
      by (by apply sim_inv_idle).
    destruct (sim_inv_run h1 PL _ proc Hv H0 Hin) as [Hi Heq]; [done|done|].
    split; [done|]. by rewrite Heq.
  - destruct (sim_inv_run h1 PL s proc Hv (sim_inv_weaken _ _ _ Hs) Hin)
      as [Hi Heq]; [done|done|].
    split; [done|]. by rewrite Heq.
Qed.

Lemma fcfs_loop_inv h1 PL process_queue : ∀ s,
  valid_input h1 PL → sim_inv h1 PL false s →
  completed s ++ process_queue = PL →
  sim_inv h1 PL false (fcfs_loop process_queue s) ∧
  completed (fcfs_loop process_queue s) = PL.
Proof.
  induction process_queue as [|proc q IH]; intros s Hv Hs Hq; simpl.
  - by rewrite app_nil_r in Hq.
  - pose proof (valid_input_NoDup _ _ Hv) as Hnd. rewrite <- Hq in Hnd.
    apply NoDup_app in Hnd as (_ & Hdisj & _).
    destruct (fcfs_body_inv h1 PL s proc) as [Hs' Hc']; try done.
    + rewrite <- Hq. apply elem_of_app. right. apply list_elem_of_here.
    + intros Hc. apply (Hdisj proc Hc). apply list_elem_of_here.
    + apply IH; [done|done|]. rewrite Hc', <- Hq. by rewrite <- (assoc_L (++)).
Qed.

(** ** The loop of sjf and priority_scheduling *)

Lemma min_of_spec l m :
  min_of l = Some m → m ∈ l ∧ ∀ x, x ∈ l → m ≤ x.
Proof.
  revert m. induction l as [|a l IH]; simpl; intros m; [done|].
  destruct (min_of l) as [m'|] eqn:Hm.
  - intros [= <-]. destruct (IH m' eq_refl) as [Hin Hle]. split.
    + destruct (Z.min_spec a m') as [[_ ->]|[_ ->]];
        [apply list_elem_of_here|by apply list_elem_of_further].
    + intros x [->|Hx]%elem_of_cons; [lia|]. specialize (Hle x Hx). lia.
  - intros [= <-]. destruct l; [|simpl in Hm; by destruct (min_of l)].
    split; [apply list_elem_of_here|].
    intros x [->|Hx]%elem_of_cons; [lia|]. by apply elem_of_nil in Hx.
Qed.

Lemma min_of_is_Some l : l ≠ [] → is_Some (min_of l).
Proof. destruct l; [done|]. simpl. destruct (min_of l); by eexists. Qed.

Lemma sorted_nonempty {A} (key : A → Z) l : l ≠ [] → is_Some (head (sorted key l)).
Proof.
  intros Hl. destruct (sorted key l) eqn:Hs; [|by eexists].
  apply (f_equal length) in Hs. rewrite sorted_length in Hs.
  by destruct l.
Qed.

Lemma ready_at_elem h t l r :
  r ∈ ready_at h t l ↔ arrival_time (h !!! r) ≤ t ∧ r ∈ l.
Proof. unfold ready_at. by rewrite list_elem_of_filter. Qed.

Lemma np_ready_step h1 PL st :
  valid_input h1 PL → np_inv h1 PL st →
  remaining_processes st ≠ [] →
  ∃ s0, np_ready st
        = inr (s0, ready_at (sim_heap s0) (current_time s0) (remaining_processes st)) ∧
        ready_at (sim_heap s0) (current_time s0) (remaining_processes st) ≠ [] ∧
        sim_inv h1 PL true s0 ∧
        completed s0 = completed (np_sim st) ∧
        (s0 = np_sim st ∨
         (s0 = idle_until (current_time s0) (np_sim st) ∧
         ready_at (sim_heap (np_sim st)) (current_time (np_sim st))
                  (remaining_processes st) = [] ∧
         min_of ((λ p, arrival_time (sim_heap (np_sim st) !!! p))
                   <$> remaining_processes st) = Some (current_time s0))).
Proof.
  intros Hv [Hs Hperm] Hrem. unfold np_ready.
  destruct (ready_at _ _ _) as [|p l] eqn:Hr.
  - destruct (min_of_is_Some
                ((λ p, arrival_time (sim_heap (np_sim st) !!! p))
                   <$> remaining_processes st)) as [m Hm].
    { by destruct (remaining_processes st). }
    rewrite Hm. destruct (min_of_spec _ _ Hm) as [Hin _].
    apply list_elem_of_fmap in Hin as (r & -> & Hr').
    destruct (Z.ltb_spec (current_time (np_sim st))
                (arrival_time (sim_heap (np_sim st) !!! r))) as [Hlt|Hge].
    + eexists. split; [reflexivity|]. cbn [idle_until sim_heap current_time].
      split; [|split; [by apply sim_inv_idle|split; [done|]]].
      * intros Hnil. assert (r ∈ ready_at (sim_heap (np_sim st))
                               (arrival_time (sim_heap (np_sim st) !!! r))
                               (remaining_processes st)) as Hx.
        { apply ready_at_elem. split; [lia|done]. }
        rewrite Hnil in Hx. by apply elem_of_nil in Hx.
      * right. done.
    + exfalso. assert (r ∈ ready_at (sim_heap (np_sim st))
                             (current_time (np_sim st))
                             (remaining_processes st)) as Hx.
      { apply ready_at_elem. split; [lia|done]. }
      rewrite Hr in Hx. by apply elem_of_nil in Hx.
  - exists (np_sim st). rewrite Hr. split; [done|]. split; [done|].
    split; [by apply sim_inv_weaken|]. split; [done|]. by left.
Qed.

Lemma np_body_step key h1 PL st :
  valid_input h1 PL → np_inv h1 PL st →
  np_cond (length PL) st = true →
  ∃ s0 proc rem',
    np_ready st
      = inr (s0, ready_at (sim_heap s0) (current_time s0) (remaining_processes st)) ∧
    np_select key (sim_heap s0)
      (ready_at (sim_heap s0) (current_time s0) (remaining_processes st)) = Some proc ∧
    remove_first proc (remaining_processes st) = Some rem' ∧
    np_body key st = Next (mkNp (np_run proc s0) rem') ∧
    np_inv h1 PL (mkNp (np_run proc s0) rem') ∧
    sim_inv h1 PL true s0 ∧
    completed s0 = completed (np_sim st) ∧
    proc ∈ PL ∧ (proc ∉ completed s0) ∧
    arrival_time (h1 !!! proc) ≤ current_time s0 ∧
    (length rem' < length (remaining_processes st))%nat.
Proof.
  intros Hv Hst Hc. pose proof Hst as [Hs Hperm].
  assert (remaining_processes st ≠ []) as Hrem.
  { intros Hnil. unfold np_cond in Hc. apply Nat.ltb_lt in Hc.
    rewrite Hnil, app_nil_r in Hperm. apply Permutation_length in Hperm. lia. }
  destruct (np_ready_step h1 PL st Hv Hst Hrem) as (s0 & Hrd & Hne & Hs0 & Hc0 & _).
  destruct (sorted_nonempty (λ p, key (sim_heap s0 !!! p)) _ Hne) as [proc Hsel].
  pose proof (np_select_elem key _ _ _ Hsel) as Hin.
  apply ready_at_elem in Hin as [Harr Hin].
  destruct (remove_first_elem _ _ Hin) as [rem' Hrm].
  pose proof (remove_first_perm _ _ _ Hrm) as Hp.
  assert (proc ∈ PL) as HinPL.
  { rewrite <- Hperm. apply elem_of_app. by right. }
  assert (proc ∉ completed s0) as Hnc.
  { rewrite Hc0. intros Hx.
    pose proof (valid_input_NoDup _ _ Hv) as Hnd. rewrite <- Hperm in Hnd.
    apply NoDup_app in Hnd as (_ & Hdisj & _). by apply (Hdisj proc). }
  assert (arrival_time (h1 !!! proc) ≤ current_time s0) as Harr'.
  { destruct (inv_static _ _ _ _ Hs0) as [_ Hst'].
    destruct (static_field_eqs _ _ (Hst' proc)) as (_ & <- & _). done. }
  destruct (sim_inv_run h1 PL s0 proc Hv Hs0 HinPL Hnc Harr') as [Hi Heq].
  exists s0, proc, rem'.
  split; [done|]. split; [done|]. split; [done|]. split.
  { unfold np_body. rewrite Hrd. unfold np_select in *. rewrite Hsel. by rewrite Hrm. }
  split.
  { split; [done|]. cbn [np_sim remaining_processes]. rewrite Heq.
    cbn [completed]. rewrite <- Hperm, Hc0, Hp.
    rewrite <- (assoc_L (++)). done. }
  do 5 (split; [done|]).
  apply Permutation_length in Hp. simpl in Hp. lia.
Qed.

Lemma np_loop_total key h1 PL :
  valid_input h1 PL →
  ∀ fuel, (length PL ≤ fuel)%nat →
    ∃ st, while_loop fuel (np_cond (length PL)) (np_body key)
            (mkNp (sim_init h1) PL) = Some (st, None) ∧
          np_inv h1 PL st ∧ completed (np_sim st) ≡ₚ PL.
Proof.
  intros Hv fuel Hfuel.
  destruct (while_loop_total (np_inv h1 PL)
              (λ st, length (remaining_processes st))
              (np_cond (length PL)) (np_body key)) with (fuel := fuel)
              (s := mkNp (sim_init h1) PL) as (st & Hw & Hst & Hc).
  - intros st Hst Hc.
    destruct (np_body_step key h1 PL st Hv Hst Hc)
      as (s0 & proc & rem' & _ & _ & _ & Hb & Hinv & _ & _ & _ & _ & _ & Hlt).
    eexists. split; [exact Hb|]. split; [done|]. done.
  - split; [apply sim_inv_init|]. done.
  - done.
  - exists st. split; [done|]. split; [done|].
    destruct Hst as [Hs Hperm].
    unfold np_cond in Hc. apply Nat.ltb_ge in Hc.
    pose proof (Permutation_length Hperm) as Hl. rewrite length_app in Hl.
    destruct (remaining_processes st) as [|x l]; [by rewrite app_nil_r in Hperm|].
    simpl in Hl. lia.
Qed.

(** ** What the invariant gives when the loop has ended *)

Lemma objects_elem h l p : p ∈ objects h l ↔ ∃ r, p = h !!! r ∧ r ∈ l.
Proof. unfold objects. apply list_elem_of_fmap. Qed.

Lemma sim_final h1 PL s L :
  valid_input h1 PL → sim_inv h1 PL false s →
  completed s ≡ₚ PL → L ≡ₚ completed s →
  let procs := objects (sim_heap s) L in
  same_processes (objects h1 PL) procs ∧
  Forall metrics_ok procs ∧ Forall run_once procs ∧
  valid_timeline (gantt s) procs.
Proof.
  intros Hv [] Hperm HL procs.
  destruct inv_static0 as [Hlen Hst].
  assert (completed s ≠ []) as Hne.
  { intros Hnil. rewrite Hnil in Hperm. destruct Hv as [Hv _].
    by apply Permutation_nil in Hperm. }
  assert (∀ p, p ∈ procs → ∃ r, p = sim_heap s !!! r ∧ r ∈ completed s) as Hp.
  { intros p (r & -> & Hr)%objects_elem. exists r. split; [done|]. by rewrite <- HL. }
  split; [|split; [|split]].
  - unfold same_processes, procs, objects. rewrite <- !list_fmap_compose.
    rewrite HL, Hperm.
    rewrite (list_fmap_ext (static ∘ (λ r, sim_heap s !!! r))
               (static ∘ (λ r, h1 !!! r)) PL); [done|].
    intros i r _. simpl. apply Hst.
  - apply Forall_forall. intros p (r & -> & Hr)%Hp. by apply inv_done0.
  - apply Forall_forall. intros p (r & -> & Hr)%Hp. by apply inv_done0.
  - destruct (gantt s) as [|first chart] eqn:Hg.
    { by destruct (inv_empty0 eq_refl). }
    rewrite <- Hg in *.
    destruct (last (gantt s)) as [final|] eqn:Hl.
    2:{ apply last_None in Hl. rewrite Hl in Hg. done. }
    destruct (inv_last0 final eq_refl) as [Hend [[? _]|(r & Hr & Hcr & _)]]; [done|].
    split; [done|]. split; [done|]. split; [|split; [|split]].
    + exists first. rewrite Hg. split; [done|]. right.
      apply inv_head0. by rewrite Hg.
    + exists final. split; [done|]. split.
      * exists (sim_heap s !!! r). split; [|lia].
        apply objects_elem. exists r. split; [done|]. by rewrite HL.
      * apply Forall_forall. intros p (r' & -> & Hr')%Hp.
        destruct (inv_done0 r' Hr') as (_ & _ & ?). lia.
    + done.
    + rewrite inv_busy0. unfold procs, objects. rewrite sumZ_fmap.
      rewrite (sumZ_perm _ _ _ HL). apply sumZ_ext. intros r' _. simpl.
      by destruct (static_field_eqs _ _ (Hst r')) as (_ & _ & -> & _).
Qed.

Lemma run_once_ran p : run_once p → ran p.
Proof. unfold run_once, ran. lia. Qed.

Lemma deepcopy_objects (h : heap) processes :
  valid_input h processes →
  objects (h ++ ((h !!!.) <$> processes)) (seq (length h) (length processes))
  = objects h processes.
Proof.
  intros (_ & Hv & _). unfold objects. apply list_eq. intros i.
  rewrite !list_lookup_fmap.
  destruct (decide (i < length processes)%nat) as [Hi|Hi].
  - rewrite lookup_seq_lt by done. simpl.
    rewrite lookup_total_app_r by lia.
    replace (length h + i - length h)%nat with i by lia.
    rewrite (list_lookup_total_fmap (λ r : nat, h !!! r) processes i Hi).
    by rewrite (list_lookup_lookup_total_lt processes i Hi).
  - rewrite lookup_seq_ge by lia. by rewrite lookup_ge_None_2 by lia.
Qed.

(** The store and the process list a valid input leaves the loops with. *)
Lemma start_valid (h : heap) processes :
  valid_input h processes →
  ∃ h1 copies,
    deepcopy h processes = (h1, copies) ∧
    valid_input h1 (sorted (λ p, arrival_time (h1 !!! p)) copies) ∧
    same_processes (objects h processes)
      (objects h1 (sorted (λ p, arrival_time (h1 !!! p)) copies)).
Proof.
  intros Hv. destruct (deepcopy_valid h processes Hv) as [Hd Hv1].
  eexists _, _. split; [exact Hd|]. split.
  - eapply valid_input_perm; [|exact Hv1]. symmetry. apply sorted_perm.
  - unfold same_processes. rewrite <- (deepcopy_objects h processes Hv).
    unfold objects. by rewrite sorted_perm.
Qed.

Lemma finish_spec s :
  completed s ≠ [] →
  finish s =
    (sim_heap s,
     Return (mkResult (gantt s)
               (average (total_waiting_time s) (length (completed s)))
               (average (total_turnaround_time s) (length (completed s)))
               (sorted (λ p, p_id (sim_heap s !!! p)) (completed s)))).
Proof. unfold finish. by destruct (completed s). Qed.

Lemma sim_final_ok h processes h1 PL s :
  valid_input h1 PL → same_processes (objects h processes) (objects h1 PL) →
  sim_inv h1 PL false s → completed s ≡ₚ PL →
  ∃ r, finish s = (sim_heap s, Return r) ∧
       schedule_ok h processes (sim_heap s) r ∧
       Forall run_once (objects (sim_heap s) (completed_processes r)).
Proof.
  intros Hv Hsame Hs Hperm.
  assert (completed s ≠ []) as Hne.
  { intros Hnil. rewrite Hnil in Hperm. destruct Hv as [Hv _].
    by apply Permutation_nil in Hperm. }
  eexists. split; [by apply finish_spec|].
  cbn [completed_processes gantt_chart]. unfold schedule_ok.
  cbn [completed_processes gantt_chart].
  destruct (sim_final h1 PL s (sorted (λ p, p_id (sim_heap s !!! p)) (completed s))
              Hv Hs Hperm (sorted_perm _ _)) as (H1 & H2 & H3 & H4).
  split; [|done]. split; [|split; [done|split; [|done]]].
  - unfold same_processes in *. by rewrite H1.
  - eapply Forall_impl; [exact H3|]. apply run_once_ran.
Qed.

Lemma fcfs_ok (h : heap) processes :
  valid_input h processes →
  ∃ h' r, fcfs h processes = (h', Return r) ∧
          schedule_ok h processes h' r ∧
          Forall run_once (objects h' (completed_processes r)).
Proof.
  intros Hv. destruct (start_valid h processes Hv) as (h1 & copies & Hd & Hv1 & Hsame).
  unfold fcfs. rewrite Hd.
  destruct (fcfs_loop_inv h1 _ _ (sim_init h1) Hv1 (sim_inv_init _ _) eq_refl)
    as [Hs Hc].
  destruct (sim_final_ok h processes h1 _ _ Hv1 Hsame Hs) as (r & Hf & Hok & Hro).
  { by rewrite Hc. }
  eexists _, r. by split.
Qed.

Lemma while_loop_mono {S} (cond : S → bool) (body : S → ctrl S) fuel : ∀ fuel' s x,
  while_loop fuel cond body s = Some x → (fuel ≤ fuel')%nat →
  while_loop fuel' cond body s = Some x.
Proof.
  induction fuel as [|fuel IH]; intros fuel' s x; simpl.
  - destruct (cond s) eqn:Hc; [done|]. intros H _. destruct fuel'; simpl; by rewrite Hc.
  - destruct (cond s) eqn:Hc.
    + intros H Hle. destruct fuel' as [|fuel']; [lia|]. simpl. rewrite Hc.
      destruct (body s); [|done..]. apply IH; [done|lia].
    + intros H _. destruct fuel'; simpl; by rewrite Hc.
Qed.

Lemma nonpreemptive_ok key (h : heap) processes :
  valid_input h processes →
  ∃ h' r, returns (λ fuel, nonpreemptive key fuel h processes) h' r ∧
          schedule_ok h processes h' r ∧
          Forall run_once (objects h' (completed_processes r)).
Proof.
  intros Hv. destruct (start_valid h processes Hv) as (h1 & copies & Hd & Hv1 & Hsame).
  set (PL := sorted (λ p, arrival_time (h1 !!! p)) copies) in *.
  destruct (np_loop_total key h1 PL Hv1 (length PL)) as (st & Hw & [Hs _] & Hc); [done|].
  destruct (sim_final_ok h processes h1 _ _ Hv1 Hsame Hs Hc) as (r & Hf & Hok & Hro).
  exists (sim_heap (np_sim st)), r. split; [|done].
  exists (length PL). intros fuel Hfuel.
  unfold nonpreemptive. rewrite Hd. fold PL.
  rewrite (while_loop_mono _ _ _ _ _ _ Hw Hfuel). by rewrite Hf.
Qed.

(** ** Round robin: arrivals *)

Lemma valid_process_reset p :
  valid_process p → set_remaining_burst_time (burst_time p) p = p.
Proof. intros [-> _]. reflexivity. Qed.

Lemma alter_fixed (f : Process → Process) (h : heap) r :
  f (h !!! r) = h !!! r → alter f r h = h.
Proof.
  intros Hf. rewrite alter_as_insert, Hf. apply list_insert_id'.
  intros Hr. by apply list_lookup_lookup_total_lt.
Qed.

Lemma enqueue_arrivals_spec (h1 h : heap) now pending : ∀ queue idx,
  (∀ r, r ∈ pending → h !!! r = h1 !!! r ∧ valid_process (h1 !!! r)) →
  ∃ k, enqueue_arrivals pending now h queue idx
       = (h, queue ++ take k pending, (idx + k)%nat) ∧
       (k ≤ length pending)%nat ∧
       (∀ r, r ∈ take k pending → arrival_time (h1 !!! r) ≤ now) ∧
       (∀ r, head (drop k pending) = Some r → now < arrival_time (h1 !!! r)).
Proof.
  induction pending as [|p pending IH]; intros queue idx Hp; simpl.
  - exists 0%nat. rewrite app_nil_r, Nat.add_0_r. split; [done|]. split; [done|].
    split; [|done]. intros r Hr. by apply elem_of_nil in Hr.
  - destruct (Hp p) as [Hh Hv]; [apply list_elem_of_here|].
    rewrite Hh. destruct (Z.leb_spec (arrival_time (h1 !!! p)) now) as [Hle|Hgt].
    + rewrite alter_fixed.
      2:{ rewrite Hh. by apply valid_process_reset. }
      destruct (IH (queue ++ [p]) (S idx)) as (k & -> & Hk & Ha & Hn).
      { intros r Hr. apply Hp. by apply list_elem_of_further. }
      exists (S k). simpl. rewrite <- (assoc_L (++)). simpl.
      split; [f_equal; lia|]. split; [lia|]. split; [|done].
      intros r [->|Hr]%elem_of_cons; [done|by apply Ha].
    + exists 0%nat. simpl. rewrite app_nil_r, Nat.add_0_r. split; [done|].
      split; [lia|]. split.
      * intros r Hr. by apply elem_of_nil in Hr.
      * by intros r [= <-].
Qed.

(** ** Round robin: the chart *)

Lemma set_last_snoc {A} (x e : A) init : set_last x (init ++ [e]) = Some (init ++ [x]).
Proof.
  unfold set_last. rewrite removelast_last. by destruct init.
Qed.

Lemma chart_inv_append chart t e t' :
  chart_inv chart t → entry_start e = t → entry_end e = t' → t < t' →
  (∀ y, last chart = Some y → occupant_of y ≠ occupant_of e) →
  chart_inv (chart ++ [e]) t' ∧
  busy_time (chart ++ [e]) = busy_time chart + busy e.
Proof.
  intros (Hc & Hp & Hh & Hl & He & Ha) Hs Hend Ht Hocc. split.
  - split; [|split; [|split; [|split; [|split]]]].
    + apply adjacent_snoc. split; [done|]. intros y Hy. rewrite Hs. by rewrite (Hl y).
    + apply Forall_app. split; [done|]. constructor; [lia|done].
    + intros e' [He'|[Hnil ->]]%head_snoc; [by apply Hh|]. rewrite Hs. by apply He.
    + intros e'. rewrite last_snoc. by intros [= <-].
    + by intros [_ ?]%app_eq_nil.
    + apply adjacent_snoc. by split.
  - unfold busy_time. by rewrite sumZ_snoc.
Qed.

Lemma chart_inv_extend init o a b t' :
  chart_inv (init ++ [(o, a, b)]) b → b < t' →
  chart_inv (init ++ [(o, a, t')]) t' ∧
  busy_time (init ++ [(o, a, t')])
  = busy_time (init ++ [(o, a, b)]) + (busy (o, a, t') - busy (o, a, b)).
Proof.
  intros (Hc & Hp & Hh & Hl & He & Ha) Ht. split.
  - apply adjacent_snoc in Hc as [Hc Hc']. apply adjacent_snoc in Ha as [Ha Ha'].
    apply Forall_app in Hp as [Hp Hp']. apply Forall_cons in Hp' as [Hp' _].
    unfold entry_start, entry_end in Hp'. simpl in Hp'.
    split; [|split; [|split; [|split; [|split]]]].
    + apply adjacent_snoc. by split.
    + apply Forall_app. split; [done|]. constructor; [|done].
      unfold entry_start, entry_end. simpl. lia.
    + intros e' He'. destruct init as [|x init].
      * simpl in He'. injection He' as <-. by apply (Hh (o, a, b)).
      * simpl in He'. by apply Hh.
    + intros e'. rewrite last_snoc. by intros [= <-].
    + by intros [_ ?]%app_eq_nil.
    + apply adjacent_snoc. by split.
  - unfold busy_time. rewrite !sumZ_snoc. lia.
Qed.

Lemma rr_chart_spec id t t' s :
  chart_inv (rr_gantt s) t → rr_last_ok s → t < t' →
  ∃ chart, rr_chart id t t' s = Some chart ∧
           chart_inv chart t' ∧
           busy_time chart = busy_time (rr_gantt s) + (t' - t) ∧
           chart ≠ [].
Proof.
  intros Hc Hl Ht. unfold rr_chart. unfold rr_last_ok in Hl.
  assert (∀ y, last (rr_gantt s) = Some y → occupant_of y ≠ Pid id →
            chart_inv (rr_gantt s ++ [(Pid id, t, t')]) t' ∧
            busy_time (rr_gantt s ++ [(Pid id, t, t')])
            = busy_time (rr_gantt s) + (t' - t)) as Happ.
  { intros y Hy Hne.
    destruct (chart_inv_append (rr_gantt s) t (Pid id, t, t') t' Hc) as [H1 H2];
      try done.
    intros y'. rewrite Hy. by intros [= <-]. }
  destruct (last_gantt_entry s) as [[[occ first] last_end]|] eqn:He.
  - symmetry in Hl. pose proof Hl as Hl'. apply last_Some in Hl' as [init Hinit].
    assert (last_end = t) as ->.
    { destruct Hc as (_ & _ & _ & Hend & _). by apply (Hend _ Hl). }
    rewrite Z.eqb_refl, andb_true_r.
    destruct (occupant_eqb occ (Pid id)) eqn:Ho.
    + destruct occ as [|i]; [done|]. simpl in Ho. apply Z.eqb_eq in Ho as ->.
      rewrite Hinit, set_last_snoc. rewrite Hinit in Hc.
      destruct (chart_inv_extend init (Pid id) first t t' Hc Ht) as [H1 H2].
      eexists. split; [done|]. split; [done|]. split.
      * rewrite H2. unfold busy, entry_start, entry_end.
        cbn [occupant_of fst snd]. lia.
      * by intros [_ ?]%app_eq_nil.
    + destruct (Happ _ Hl) as [H1 H2].
      { cbn [occupant_of fst]. intros ->. simpl in Ho. by rewrite Z.eqb_refl in Ho. }
      eexists. split; [done|]. split; [done|]. split; [done|].
      by intros [_ ?]%app_eq_nil.
  - symmetry in Hl. apply last_None in Hl.
    destruct (chart_inv_append (rr_gantt s) t (Pid id, t, t') t' Hc) as [H1 H2];
      try done.
    { intros y. by rewrite Hl. }
    eexists. split; [done|]. split; [done|]. split; [done|].
    by intros [_ ?]%app_eq_nil.
Qed.

Lemma rr_idle_spec t' s :
  chart_inv (rr_gantt s) (rr_time s) → rr_last_ok s → rr_time s < t' →
  ∃ chart, rr_idle t' s =
             Next (mkRR (rr_heap s) (completed_processes_dict s) chart t'
                        (rr_total_waiting_time s) (rr_total_turnaround_time s)
                        (ready_queue s) (process_idx s) (last chart)) ∧
           chart_inv chart t' ∧
           busy_time chart = busy_time (rr_gantt s).
Proof.
  intros Hc Hl Ht. unfold rr_idle. unfold rr_last_ok in Hl.
  assert ((∀ y', last (rr_gantt s) = Some y' → occupant_of y' ≠ Idle) →
            chart_inv (rr_gantt s ++ [(Idle, rr_time s, t')]) t' ∧
            busy_time (rr_gantt s ++ [(Idle, rr_time s, t')])
            = busy_time (rr_gantt s)) as Happ.
  { intros Hne.
    destruct (chart_inv_append (rr_gantt s) (rr_time s) (Idle, rr_time s, t') t' Hc)
      as [H1 H2]; try done.
    split; [done|]. rewrite H2. unfold busy. cbn [occupant_of fst snd]. lia. }
  destruct (last_gantt_entry s) as [[[occ first] last_end]|] eqn:He.
  - symmetry in Hl. pose proof Hl as Hl'. apply last_Some in Hl' as [init Hinit].
    assert (last_end = rr_time s) as Hle.
    { destruct Hc as (_ & _ & _ & Hend & _). by apply (Hend _ Hl). }
    destruct occ as [|i]; simpl.
    + rewrite Hinit, set_last_snoc. rewrite Hinit, Hle in Hc.
      destruct (chart_inv_extend init Idle first (rr_time s) t' Hc Ht) as [H1 H2].
      eexists. split; [done|]. split; [done|].
      rewrite H2. unfold busy. cbn [occupant_of fst snd]. rewrite Hle. lia.
    + destruct Happ as [H1 H2].
      { intros y'. rewrite Hl. by intros [= <-]. }
      eexists. split; [|done]. by rewrite last_snoc.
  - symmetry in Hl. apply last_None in Hl.
    destruct Happ as [H1 H2].
    { intros y'. by rewrite Hl. }
    eexists. split; [|done]. by rewrite last_snoc.
Qed.

(** ** Round robin: arrivals keep the invariant *)

Lemma valid_process_fields p :
  valid_process p →
  remaining_burst_time p = burst_time p ∧ start_time p = -1 ∧
  0 ≤ arrival_time p ∧ 0 < burst_time p.
Proof. intros (-> & ? & ? & ?). simpl in *. by repeat split. Qed.

Lemma drop_elem_of {A} (l : list A) n x : x ∈ drop n l → x ∈ l.
Proof.
  intros Hx. rewrite <- (take_drop n l). apply elem_of_app. by right.
Qed.

Lemma take_elem_of {A} (l : list A) n x : x ∈ take n l → x ∈ l.
Proof.
  intros Hx. rewrite <- (take_drop n l). apply elem_of_app. by left.
Qed.

Lemma rr_inv_arrivals h1 PL time_quantum s qa qb k :
  valid_input h1 PL → 0 < time_quantum →
  rr_inv h1 PL time_quantum s →
  ready_queue s = qa ++ qb →
  (∀ r, r ∈ take k (drop (process_idx s) PL) →
        arrival_time (h1 !!! r) ≤ rr_time s) →
  (k ≤ length (drop (process_idx s) PL))%nat →
  let s' := rr_with_queue s (qa ++ take k (drop (process_idx s) PL) ++ qb)
                          (process_idx s + k) in
  rr_inv h1 PL time_quantum s' ∧ rr_work h1 PL s' = rr_work h1 PL s.
Proof.
  intros Hv HQ [] Hq Harr Hk s'.
  set (U := drop (process_idx s) PL) in *.
  assert (∀ r, r ∈ take k U →
            rr_heap s !!! r = h1 !!! r ∧ valid_process (h1 !!! r)) as Hnew.
  { intros r Hr%take_elem_of. split; [by apply rr_fresh0|].
    apply drop_elem_of in Hr. by apply (valid_input_lookup _ _ _ Hv Hr). }
  assert (sumZ (λ r, burst_time (h1 !!! r) - remaining_burst_time (rr_heap s !!! r))
               (take k U) = 0) as Hzero.
  { rewrite (sumZ_ext _ (λ _, 0)).
    - clear. unfold sumZ. induction (take k U); simpl; lia.
    - intros r Hr. destruct (Hnew r Hr) as [-> Hvr].
      destruct (valid_process_fields _ Hvr) as (-> & _). lia. }
  assert (sumZ (λ r, remaining_burst_time (rr_heap s !!! r)) (take k U)
          = sumZ (λ r, burst_time (h1 !!! r)) (take k U)) as Hrem.
  { apply sumZ_ext. intros r Hr. destruct (Hnew r Hr) as [-> Hvr].
    by destruct (valid_process_fields _ Hvr) as (-> & _). }
  split.
  - constructor; unfold s', rr_with_queue;
      cbn [rr_heap completed_processes_dict rr_gantt rr_time ready_queue
           process_idx last_gantt_entry]; try done.
    + unfold U in Hk. rewrite length_drop in Hk. lia.
    + rewrite <- take_take_drop. fold U. rewrite <- rr_perm0, Hq.
      rewrite <- !(assoc_L (++)). f_equiv. f_equiv. apply Permutation_app_comm.
    + intros r Hr. apply rr_fresh0. rewrite <- drop_drop in Hr. fold U in Hr.
      by apply drop_elem_of in Hr.
    + intros r. rewrite <- take_take_drop. fold U.
      intros [Hr|Hr]%elem_of_app; [by apply rr_arrived0|by apply Harr].
    + intros r. rewrite !elem_of_app. intros [Hr|[Hr|Hr]].
      * apply rr_queued0. rewrite Hq. apply elem_of_app. by left.
      * destruct (Hnew r Hr) as [Hh Hvr]. rewrite Hh.
        destruct (valid_process_fields _ Hvr) as (Hr1 & _ & _ & Hb).
        split; [lia|]. split; [|by left].
        rewrite Hr1, Z.sub_diag. by apply Zmod_0_l.
      * apply rr_queued0. rewrite Hq. apply elem_of_app. by right.
    + rewrite rr_busy0, Hq, !sumZ_app. lia.
  - unfold rr_work, s', rr_with_queue. cbn [rr_heap ready_queue process_idx].
    rewrite Hq, !sumZ_app. rewrite <- drop_drop. fold U.
    rewrite <- (take_drop k U) at 3. rewrite sumZ_app. lia.
Qed.

(** ** Round robin: one dispatch, as a function of the object *)

Lemma calculate_metrics_static p :
  static (calculate_metrics p) = static p ∧
  remaining_burst_time (calculate_metrics p) = remaining_burst_time p ∧
  start_time (calculate_metrics p) = start_time p ∧
  completion_time (calculate_metrics p) = completion_time p.
Proof.
  unfold calculate_metrics. destruct (negb _); [|done].
  by destruct (_ <? 0).
Qed.

Lemma dispatched_static time_quantum now p :
  static (dispatched time_quantum now p) = static p.
Proof.
  unfold dispatched. destruct (start_time p =? -1);
    (destruct (_ =? 0); [by rewrite (proj1 (calculate_metrics_static _))|done]).
Qed.

Lemma rr_run_spec (h1 : heap) process_list time_quantum proc queue s chart :
  (proc < length (rr_heap s))%nat →
  rr_chart (p_id (rr_heap s !!! proc)) (rr_time s)
           (rr_time s + Z.min time_quantum (remaining_burst_time (rr_heap s !!! proc)))
           s = Some chart →
  (∀ r, r ∈ drop (process_idx s) process_list →
        r ≠ proc ∧ rr_heap s !!! r = h1 !!! r ∧ valid_process (h1 !!! r)) →
  let now := rr_time s
             + Z.min time_quantum (remaining_burst_time (rr_heap s !!! proc)) in
  let p := dispatched time_quantum (rr_time s) (rr_heap s !!! proc) in
  ∃ k, rr_run process_list time_quantum proc queue s
       = Next (rr_with_queue (rr_dispatch time_quantum proc queue chart s)
                 (queue ++ take k (drop (process_idx s) process_list)
                        ++ (if remaining_burst_time p =? 0 then [] else [proc]))
                 (process_idx s + k)) ∧
       (k ≤ length (drop (process_idx s) process_list))%nat ∧
       (∀ r, r ∈ take k (drop (process_idx s) process_list) →
             arrival_time (h1 !!! r) ≤ now) ∧
       (∀ r, head (drop k (drop (process_idx s) process_list)) = Some r →
             now < arrival_time (h1 !!! r)).
Proof.
  intros Hlt Hchart Hpend now p.
  set (p0 := rr_heap s !!! proc) in *.
  set (pa := if start_time p0 =? -1 then set_start_time (rr_time s) p0 else p0).
  set (slice := Z.min time_quantum (remaining_burst_time p0)) in *.
  set (pb := set_remaining_burst_time (remaining_burst_time pa - slice) pa).
  assert (remaining_burst_time pa = remaining_burst_time p0) as Hrem_a
    by (unfold pa; by destruct (_ =? -1)).
  assert (p_id pb = p_id p0) as Hid
    by (unfold pb, pa; by destruct (_ =? -1)).
  assert (p = if remaining_burst_time pb =? 0
              then calculate_metrics (set_completion_time now pb) else pb) as Hp.
  { unfold p, dispatched. fold p0 pa. rewrite Hrem_a. fold slice.
    unfold pb, now. by rewrite Hrem_a. }
  assert ((if start_time p0 =? -1
           then alter (set_start_time (rr_time s)) proc (rr_heap s)
           else rr_heap s) = <[proc := pa]> (rr_heap s)) as Hha.
  { unfold pa. destruct (_ =? -1).
    - by rewrite alter_as_insert.
    - symmetry. apply list_insert_id'. intros _.
      by apply list_lookup_lookup_total_lt. }
  unfold rr_run. fold p0. rewrite Hha.
  assert (<[proc := pa]> (rr_heap s) !!! proc = pa) as Hla
    by (by rewrite list_lookup_total_insert_eq).
  rewrite Hla, Hrem_a. fold slice.
  rewrite (alter_as_insert _ (<[proc := pa]> (rr_heap s))), Hla.
  rewrite list_insert_insert_eq. fold pb.
  assert (<[proc := pb]> (rr_heap s) !!! proc = pb) as Hlb
    by (by rewrite list_lookup_total_insert_eq).
  rewrite Hlb, Hid. fold now in Hchart |- *. rewrite Hchart.
  destruct (enqueue_arrivals_spec h1 (<[proc := pb]> (rr_heap s)) now
              (drop (process_idx s) process_list) queue (process_idx s))
    as (k & -> & Hk & Harr & Hnext).
  { intros r Hr. destruct (Hpend r Hr) as (Hne & Hh & Hv).
    split; [|done]. by rewrite list_lookup_total_insert_ne. }
  exists k. split; [|done].
  rewrite Hlb. unfold rr_dispatch. fold p0 slice now p. rewrite Hp.
  destruct (remaining_burst_time pb =? 0) eqn:Hdone.
  - rewrite (proj1 (proj2 (calculate_metrics_static _))).
    cbn [remaining_burst_time set_completion_time]. rewrite Hdone.
    unfold rr_with_queue.
    cbn [rr_heap completed_processes_dict rr_gantt rr_time ready_queue
         process_idx last_gantt_entry rr_total_waiting_time rr_total_turnaround_time].
    rewrite !list_alter_alter_eq, alter_as_insert, Hlb, list_insert_insert_eq.
    cbn [compose].
    rewrite list_lookup_total_insert_eq by done. rewrite app_nil_r. reflexivity.
  - rewrite Hdone. unfold rr_with_queue.
    cbn [rr_heap completed_processes_dict rr_gantt rr_time ready_queue
         process_idx last_gantt_entry rr_total_waiting_time rr_total_turnaround_time].
    rewrite <- (assoc_L (++)). reflexivity.
Qed.

Lemma calculate_metrics_ok p :
  completion_time p ≠ -1 → metrics_ok (calculate_metrics p).
Proof.
  intros Hc. unfold calculate_metrics, metrics_ok.
  destruct (Z.eqb_spec (completion_time p) (-1)) as [|_]; [done|]. cbn [negb].
  destruct p as [id arr burst prio rem st ct wt tat].
  unfold set_turnaround_time, set_waiting_time.
  cbn [completion_time waiting_time turnaround_time arrival_time burst_time
       p_id priority remaining_burst_time start_time] in *.
  destruct (Z.ltb_spec (ct - arr - burst) 0);
    cbn [completion_time waiting_time turnaround_time arrival_time burst_time];
    lia.
Qed.

Lemma dispatched_spec time_quantum now p_init p :
  0 < time_quantum → 0 ≤ now →
  valid_process p_init → static p = static p_init →
  arrival_time p ≤ now →
  queued_ok time_quantum now p_init p →
  let slice := Z.min time_quantum (remaining_burst_time p) in
  let p' := dispatched time_quantum now p in
  0 < slice ∧
  remaining_burst_time p' = remaining_burst_time p - slice ∧
  static p' = static p ∧
  (remaining_burst_time p' = 0 →
   done_ok (now + slice) p' ∧ completion_time p' = now + slice) ∧
  (remaining_burst_time p' ≠ 0 →
   queued_ok time_quantum (now + slice) p_init p' ∧ slice = time_quantum).
Proof.
  intros HQ Hnow Hv Hst Harr ((Hr1 & Hr2) & Hmod & Hcase) slice p'.
  assert (0 < slice) as Hslice by (unfold slice; lia).
  assert (start_time p = -1 ∨ (arrival_time p ≤ start_time p ∧ 0 ≤ start_time p ∧
            start_time p + (burst_time p - remaining_burst_time p) ≤ now)) as Hstart.
  { destruct Hcase as [->|?]; [|by right]. left.
    by destruct (valid_process_fields _ Hv) as (_ & ? & _). }
  assert (start_time p = -1 → remaining_burst_time p = burst_time p) as Hunrun.
  { intros Hs. destruct Hcase as [->|(_ & ? & _)]; [|lia].
    by destruct (valid_process_fields _ Hv) as (? & _). }
  split; [done|].
  destruct p as [id arr burst prio rem st ct wt tat].
  unfold p', dispatched, set_start_time, set_remaining_burst_time, set_completion_time.
  cbn [completion_time waiting_time turnaround_time arrival_time burst_time
       p_id priority remaining_burst_time start_time] in *.
  fold slice.
  assert (∀ st', (st' = -1 → False) →
            (st = -1 → st' = now) → (st ≠ -1 → st' = st) →
            let q := mkProcess id arr burst prio (rem - slice) st' ct wt tat in
            let q' := if rem - slice =? 0
                      then calculate_metrics
                             (mkProcess id arr burst prio (rem - slice) st'
                                        (now + slice) wt tat)
                      else q in
            remaining_burst_time q' = rem - slice ∧
            static q' = (id, arr, burst, prio) ∧
            (remaining_burst_time q' = 0 →
             done_ok (now + slice) q' ∧ completion_time q' = now + slice) ∧
            (remaining_burst_time q' ≠ 0 →
             queued_ok time_quantum (now + slice) p_init q' ∧ slice = time_quantum))
    as Hgen.
  { intros st' Hst1 Hst2 Hst3 q q'. unfold q'.
    destruct (Z.eqb_spec (rem - slice) 0) as [Hz|Hnz].
    - destruct (calculate_metrics_static
                  (mkProcess id arr burst prio (rem - slice) st' (now + slice) wt tat))
        as (Hs1 & Hs2 & Hs3 & Hs4).
      cbn [remaining_burst_time start_time completion_time] in Hs2, Hs3, Hs4.
      rewrite Hs2, Hs1. split; [done|]. split; [done|]. split; [|lia].
      intros _. split; [|done]. split; [apply calculate_metrics_ok; simpl; lia|].
      split; [|split; [lia|lia]].
      unfold ran. rewrite Hs3, Hs4.
      destruct (static_field_eqs _ _ Hs1) as (_ & -> & -> & _).
      cbn [arrival_time burst_time].
      destruct Hstart as [->|(? & ? & ?)].
      + rewrite Hst2 by done. specialize (Hunrun eq_refl). lia.
      + rewrite Hst3 by lia. lia.
    - unfold q. cbn [remaining_burst_time]. split; [done|]. split; [done|].
      split; [lia|]. intros _.
      assert (slice = time_quantum) as Hsq by (unfold slice in *; lia).
      split; [|done]. unfold queued_ok.
      cbn [completion_time waiting_time turnaround_time arrival_time burst_time
           p_id priority remaining_burst_time start_time].
      split; [lia|]. split.
      + replace (burst - (rem - slice)) with (burst - rem + 1 * time_quantum) by lia.
        by rewrite Z_mod_plus_full.
      + right. destruct Hstart as [->|(? & ? & ?)].
        * rewrite Hst2 by done. specialize (Hunrun eq_refl). lia.
        * rewrite Hst3 by lia. lia. }
  destruct (Z.eqb_spec st (-1)) as [->|Hne];
    cbn [completion_time waiting_time turnaround_time arrival_time burst_time
         p_id priority remaining_burst_time start_time].
  - apply (Hgen now); [lia|done|done].
  - apply (Hgen st); [done|done|done].
Qed.

Lemma dict_set_fresh k v d :
  k ∉ (fst <$> d) → dict_set k v d = d ++ [(k, v)].
Proof.
  induction d as [|[k' v'] d IH]; simpl; intros Hk; [done|].
  apply not_elem_of_cons in Hk as [Hne Hk].
  destruct (Z.eqb_spec k' k) as [->|_]; [done|]. by rewrite IH.
Qed.

Lemma NoDup_take_drop_disjoint {A} (l : list A) n x :
  NoDup l → x ∈ take n l → x ∈ drop n l → False.
Proof.
  intros Hn Ht Hd. rewrite <- (take_drop n l) in Hn.
  apply NoDup_app in Hn as (_ & Hdisj & _). by apply (Hdisj x).
Qed.

Lemma rr_inv_dispatch h1 PL time_quantum s proc queue :
  valid_input h1 PL → 0 < time_quantum →
  rr_inv h1 PL time_quantum s →
  ready_queue s = proc :: queue →
  rr_cond (length PL) s = true →
  let slice := Z.min time_quantum (remaining_burst_time (rr_heap s !!! proc)) in
  let p := dispatched time_quantum (rr_time s) (rr_heap s !!! proc) in
  ∃ chart,
    rr_chart (p_id (rr_heap s !!! proc)) (rr_time s) (rr_time s + slice) s
      = Some chart ∧
    let s' := rr_dispatch time_quantum proc queue chart s in
    rr_inv h1 PL time_quantum s' ∧
    rr_work h1 PL s' + 1 ≤ rr_work h1 PL s ∧
    rr_time s' = rr_time s + slice ∧
    process_idx s' = process_idx s ∧
    ready_queue s' = queue ++ (if remaining_burst_time p =? 0 then [] else [proc]) ∧
    (proc < length (rr_heap s))%nat.
Proof.
  intros Hv HQ [] Hq Hc slice p.
  pose proof (valid_input_NoDup _ _ Hv) as HndPL.
  destruct rr_static0 as [Hlen Hst].
  set (D := dict_values (completed_processes_dict s)) in *.
  assert (NoDup (D ++ proc :: queue)) as Hnd.
  { rewrite <- Hq, rr_perm0. rewrite <- (take_drop (process_idx s) PL) in HndPL.
    by apply NoDup_app in HndPL as (? & _). }
  apply NoDup_app in Hnd as (HndD & Hdisj & [Hpq Hndq]%NoDup_cons).
  assert (proc ∈ take (process_idx s) PL) as Hin.
  { rewrite <- rr_perm0, Hq. apply elem_of_app. right. apply list_elem_of_here. }
  assert (proc ∉ D) as HpD.
  { intros Hx. apply (Hdisj proc Hx). apply list_elem_of_here. }
  pose proof (take_elem_of _ _ _ Hin) as HinPL.
  destruct (valid_input_lookup _ _ _ Hv HinPL) as [Hlt Hvp].
  assert (queued_ok time_quantum (rr_time s) (h1 !!! proc) (rr_heap s !!! proc)) as Hqo.
  { apply rr_queued0. rewrite Hq. apply list_elem_of_here. }
  destruct (static_field_eqs _ _ (Hst proc)) as (Hid & Harr & Hburst & _).
  destruct (dispatched_spec time_quantum (rr_time s) (h1 !!! proc)
              (rr_heap s !!! proc) HQ rr_time_nonneg0 Hvp (Hst proc))
    as (Hslice & Hrem & Hstat & Hdone & Hmore); [|done|].
  { rewrite Harr. by apply rr_arrived0. }
  fold slice p in Hslice, Hrem, Hstat, Hdone, Hmore.
  destruct (rr_chart_spec (p_id (rr_heap s !!! proc)) (rr_time s)
              (rr_time s + slice) s rr_chart_ok0 rr_lastok0)
    as (chart & Hchart & Hci & Hbusy & Hne); [lia|].
  exists chart. split; [done|]. intros s'.
  assert (∀ r, r ≠ proc → <[proc := p]> (rr_heap s) !!! r = rr_heap s !!! r) as Hother.
  { intros r Hr. by rewrite list_lookup_total_insert_ne. }
  assert (<[proc := p]> (rr_heap s) !!! proc = p) as Hself.
  { rewrite list_lookup_total_insert_eq; [done|lia]. }
  assert (∀ r, r ∈ queue → r ≠ proc) as Hqne by (intros r Hr ->; done).
  assert (∀ r, r ∈ D → r ≠ proc) as HDne by (intros r Hr ->; done).
  assert (p_id p = p_id (h1 !!! proc)) as Hidp.
  { destruct (static_field_eqs _ _ Hstat) as (-> & _). done. }
  assert (static_eq h1 (<[proc := p]> (rr_heap s))) as Hstatic'.
  { split; [by rewrite length_insert|]. intros r.
    destruct (decide (r = proc)) as [->|Hr].
    - rewrite Hself, Hstat. apply Hst.
    - rewrite Hother by done. apply Hst. }
  assert (∀ r, r ∈ drop (process_idx s) PL →
            <[proc := p]> (rr_heap s) !!! r = h1 !!! r) as Hfresh'.
  { intros r Hr. rewrite Hother; [by apply rr_fresh0|].
    intros ->. by eapply (NoDup_take_drop_disjoint PL). }
  assert (∀ r, r ∈ queue →
            queued_ok time_quantum (rr_time s + slice) (h1 !!! r)
                      (<[proc := p]> (rr_heap s) !!! r)) as Hqueued'.
  { intros r Hr. rewrite Hother by auto.
    destruct (rr_queued0 r) as (? & ? & Hcase).
    { rewrite Hq. by apply list_elem_of_further. }
    split; [done|]. split; [done|].
    destruct Hcase as [?|(? & ? & ?)]; [by left|right]. repeat split; lia. }
  assert (∀ r, r ∈ D → done_ok (rr_time s + slice)
                               (<[proc := p]> (rr_heap s) !!! r)) as Hdone'.
  { intros r Hr. rewrite Hother by auto.
    destruct (rr_done0 r Hr) as (? & ? & ? & ?).
    split; [done|]. split; [done|]. split; [lia|done]. }
  assert (sumZ (λ r, burst_time (h1 !!! r)
                     - remaining_burst_time (<[proc := p]> (rr_heap s) !!! r)) queue
          = sumZ (λ r, burst_time (h1 !!! r)
                       - remaining_burst_time (rr_heap s !!! r)) queue) as Hsum1.
  { apply sumZ_ext. intros r Hr. by rewrite Hother by auto. }
  assert (sumZ (λ r, remaining_burst_time (<[proc := p]> (rr_heap s) !!! r)) queue
          = sumZ (λ r, remaining_burst_time (rr_heap s !!! r)) queue) as Hsum2.
  { apply sumZ_ext. intros r Hr. by rewrite Hother by auto. }
  rewrite Hq in rr_busy0. unfold sumZ in rr_busy0 at 2. simpl in rr_busy0.
  fold (sumZ (λ r, burst_time (h1 !!! r) - remaining_burst_time (rr_heap s !!! r)) queue)
    in rr_busy0.
  assert (rr_work h1 PL s
          = remaining_burst_time (rr_heap s !!! proc)
            + sumZ (λ r, remaining_burst_time (rr_heap s !!! r)) queue
            + sumZ (λ r, burst_time (h1 !!! r)) (drop (process_idx s) PL)) as Hwork.
  { unfold rr_work. rewrite Hq. unfold sumZ at 1. simpl. done. }
  unfold s', rr_dispatch. fold p slice.
  destruct (Z.eqb_spec (remaining_burst_time p) 0) as [Hz|Hnz].
  - destruct (Hdone Hz) as [Hdp Hcp].
    assert (dict_set (p_id p) proc (completed_processes_dict s)
            = completed_processes_dict s ++ [(p_id (h1 !!! proc), proc)]) as Hds.
    { rewrite Hidp. apply dict_set_fresh. rewrite rr_dict0.
      rewrite <- list_fmap_compose. intros (r & Hr1 & Hr2)%list_elem_of_fmap.
      simpl in Hr1. fold D in Hr2. apply (HDne r Hr2).
      symmetry. eapply valid_input_ids; [done|done| |done].
      apply (take_elem_of _ (process_idx s)). rewrite <- rr_perm0.
      apply elem_of_app. by left. }
    assert (dict_values (completed_processes_dict s ++ [(p_id (h1 !!! proc), proc)])
            = D ++ [proc]) as Hdv.
    { unfold dict_values, D. by rewrite fmap_app. }
    split; [|split; [|cbn [rr_time process_idx ready_queue]; rewrite ?app_nil_r;
                      split; [done|]; split; [done|]; split; [done|lia]]].
    + constructor;
        cbn [rr_heap completed_processes_dict rr_gantt rr_time ready_queue
             process_idx last_gantt_entry]; rewrite ?Hds, ?Hdv; try done.
      * rewrite <- rr_perm0, Hq. rewrite <- (assoc_L (++)). done.
      * rewrite rr_dict0 at 1. fold D. by rewrite fmap_app.
      * lia.
      * intros r Hr. specialize (rr_arrived0 r Hr). lia.
      * intros r [Hr|Hr%list_elem_of_singleton]%elem_of_app; [by apply Hdone'|].
        subst r. by rewrite Hself.
      * rewrite Hbusy, rr_busy0, sumZ_snoc, Hsum1. lia.
      * right. exists proc. split; [|by rewrite Hself].
        apply elem_of_app. right. by apply list_elem_of_singleton.
    + rewrite Hwork. unfold rr_work. cbn [rr_heap ready_queue process_idx].
      rewrite Hsum2. lia.
  - destruct (Hmore Hnz) as [Hqp Hsq].
    split; [|split; [|cbn [rr_time process_idx ready_queue]; rewrite ?app_nil_r;
                      split; [done|]; split; [done|]; split; [done|lia]]].
    + constructor;
        cbn [rr_heap completed_processes_dict rr_gantt rr_time ready_queue
             process_idx last_gantt_entry]; try done.
      * rewrite <- rr_perm0, Hq. apply Permutation_app; [done|].
        symmetry. apply Permutation_cons_append.
      * lia.
      * intros r Hr. specialize (rr_arrived0 r Hr). lia.
      * intros r [Hr|Hr%list_elem_of_singleton]%elem_of_app; [by apply Hqueued'|].
        subst r. by rewrite Hself.
      * rewrite Hbusy, rr_busy0, sumZ_snoc, Hsum1, Hself. fold D. lia.
      * left. unfold rr_cond in Hc. by apply Nat.ltb_lt in Hc.
    + rewrite Hwork. unfold rr_work. cbn [rr_heap ready_queue process_idx].
      rewrite sumZ_snoc, Hsum2, Hself. lia.
Qed.

(** ** Round robin: one iteration *)

Lemma sumZ_nonneg {A} (f : A → Z) l : (∀ x, x ∈ l → 0 ≤ f x) → 0 ≤ sumZ f l.
Proof.
  unfold sumZ. induction l as [|a l IH]; simpl; intros H; [done|].
  assert (0 ≤ f a) by (apply H, list_elem_of_here).
  assert (0 ≤ foldr (λ x acc, f x + acc) 0 l).
  { apply IH. intros x Hx. apply H. by apply list_elem_of_further. }
  lia.
Qed.

Lemma rr_work_nonneg h1 PL time_quantum s :
  valid_input h1 PL → rr_inv h1 PL time_quantum s → 0 ≤ rr_work h1 PL s.
Proof.
  intros Hv []. unfold rr_work.
  assert (0 ≤ sumZ (λ r, remaining_burst_time (rr_heap s !!! r)) (ready_queue s)).
  { apply sumZ_nonneg. intros r Hr. destruct (rr_queued0 r Hr) as ((? & _) & _). lia. }
  assert (0 ≤ sumZ (λ r, burst_time (h1 !!! r)) (drop (process_idx s) PL)).
  { apply sumZ_nonneg. intros r Hr%drop_elem_of.
    destruct (valid_input_lookup _ _ _ Hv Hr) as (_ & _ & _ & ? & _). lia. }
  lia.
Qed.

Lemma rr_gap_range h1 PL s : 0 ≤ rr_gap h1 PL s ≤ 1.
Proof.
  unfold rr_gap. destruct (ready_queue s); [|lia].
  destruct (drop _ _); [lia|]. destruct (_ <? _); lia.
Qed.

Lemma rr_measure_lt h1 PL time_quantum s s' :
  valid_input h1 PL → rr_inv h1 PL time_quantum s' →
  2 * rr_work h1 PL s' + rr_gap h1 PL s' < 2 * rr_work h1 PL s + rr_gap h1 PL s →
  (rr_measure h1 PL s' < rr_measure h1 PL s)%nat.
Proof.
  intros Hv Hs' Hlt. unfold rr_measure.
  pose proof (rr_work_nonneg _ _ _ _ Hv Hs').
  pose proof (rr_gap_range h1 PL s'). lia.
Qed.

Lemma rr_inv_idle h1 PL time_quantum s chart t' :
  rr_inv h1 PL time_quantum s → ready_queue s = [] →
  rr_cond (length PL) s = true →
  rr_time s < t' → chart_inv chart t' →
  busy_time chart = busy_time (rr_gantt s) →
  rr_inv h1 PL time_quantum
    (mkRR (rr_heap s) (completed_processes_dict s) chart t'
          (rr_total_waiting_time s) (rr_total_turnaround_time s)
          (ready_queue s) (process_idx s) (last chart)).
Proof.
  intros [] Hq Hc Ht Hci Hb.
  constructor;
    cbn [rr_heap completed_processes_dict rr_gantt rr_time ready_queue
         process_idx last_gantt_entry]; try done.
  - lia.
  - intros r Hr. specialize (rr_arrived0 r Hr). lia.
  - rewrite Hq. intros r Hr. by apply elem_of_nil in Hr.
  - intros r Hr. destruct (rr_done0 r Hr) as (? & ? & ? & ?).
    split; [done|]. split; [done|]. split; [lia|done].
  - by rewrite Hb.
  - left. unfold rr_cond in Hc. by apply Nat.ltb_lt in Hc.
Qed.

Lemma rr_dispatch_fields time_quantum proc queue chart s :
  rr_heap (rr_dispatch time_quantum proc queue chart s)
  = <[proc := dispatched time_quantum (rr_time s) (rr_heap s !!! proc)]> (rr_heap s) ∧
  rr_gantt (rr_dispatch time_quantum proc queue chart s) = chart.
Proof. unfold rr_dispatch. by destruct (_ =? 0). Qed.

Lemma rr_body_step h1 PL time_quantum s :
  valid_input h1 PL → 0 < time_quantum →
  rr_inv h1 PL time_quantum s →
  rr_cond (length PL) s = true →
  ∃ s', rr_body PL time_quantum s = Next s' ∧
        rr_inv h1 PL time_quantum s' ∧
        (rr_measure h1 PL s' < rr_measure h1 PL s)%nat ∧
        ((rr_heap s' = rr_heap s ∧ rr_time s < rr_time s' ∧
          busy_time (rr_gantt s') = busy_time (rr_gantt s)) ∨
         (∃ proc,
            proc ∈ PL ∧ (proc < length (rr_heap s))%nat ∧
            static (rr_heap s !!! proc) = static (h1 !!! proc) ∧
            arrival_time (h1 !!! proc) ≤ rr_time s ∧
            queued_ok time_quantum (rr_time s) (h1 !!! proc) (rr_heap s !!! proc) ∧
            rr_heap s'
            = <[proc := dispatched time_quantum (rr_time s) (rr_heap s !!! proc)]>
                (rr_heap s) ∧
            rr_time s'
            = rr_time s
              + Z.min time_quantum (remaining_burst_time (rr_heap s !!! proc)) ∧
            rr_chart (p_id (rr_heap s !!! proc)) (rr_time s) (rr_time s') s
            = Some (rr_gantt s'))).
Proof.
  intros Hv HQ Hs Hc.
  pose proof (valid_input_NoDup _ _ Hv) as HndPL.
  set (U := drop (process_idx s) PL).
  destruct (enqueue_arrivals_spec h1 (rr_heap s) (rr_time s) U
              (ready_queue s) (process_idx s)) as (k & Hadm & Hk & Harr & Hnext).
  { intros r Hr. split; [by apply (rr_fresh _ _ _ _ Hs)|].
    apply drop_elem_of in Hr. by apply (valid_input_lookup _ _ _ Hv Hr). }
  destruct (rr_inv_arrivals h1 PL time_quantum s (ready_queue s) [] k Hv HQ Hs)
    as [Hs1 Hw1]; [by rewrite app_nil_r|done|done|].
  fold U in Hs1, Hw1. rewrite app_nil_r in Hs1, Hw1.
  set (s1 := rr_with_queue s (ready_queue s ++ take k U) (process_idx s + k)) in *.
  unfold rr_body. fold U. rewrite Hadm.
  change (mkRR (rr_heap s) (completed_processes_dict s) (rr_gantt s) (rr_time s)
               (rr_total_waiting_time s) (rr_total_turnaround_time s)
               (ready_queue s ++ take k U) (process_idx s + k)
               (last_gantt_entry s)) with s1.
  assert (rr_cond (length PL) s1 = true) as Hc1 by done.
  assert (drop (process_idx s1) PL = drop k U) as HU1.
  { unfold s1, rr_with_queue, U. cbn [process_idx]. by rewrite drop_drop. }
  destruct (ready_queue s ++ take k U) as [|proc queue] eqn:Hq1.
  - apply app_eq_nil in Hq1 as [Hq0 Htk].
    assert (process_idx s + k < length PL)%nat as Hidx.
    { destruct (decide (process_idx s + k < length PL)%nat) as [|Hge]; [done|].
      exfalso. pose proof (rr_perm _ _ _ _ Hs1) as Hp.
      unfold s1, rr_with_queue in Hp. cbn [completed_processes_dict ready_queue] in Hp.
      rewrite app_nil_r in Hp. cbn [process_idx] in Hp.
      rewrite take_ge in Hp by lia. apply Permutation_length in Hp.
      unfold rr_cond in Hc. apply Nat.ltb_lt in Hc.
      rewrite (rr_dict _ _ _ _ Hs), length_fmap in Hc. lia. }
    destruct (Nat.ltb_spec (process_idx s + k) (length PL)) as [_|]; [|lia].
    destruct (lookup_lt_is_Some_2 PL (process_idx s + k) Hidx) as [r Hr].
    rewrite (list_lookup_total_correct _ _ _ Hr).
    assert (head (drop k U) = Some r) as Hhead.
    { rewrite head_lookup. unfold U. by rewrite lookup_drop, lookup_drop, Nat.add_0_r. }
    assert (k = 0%nat) as ->.
    { destruct k as [|k]; [done|]. destruct U as [|u U']; [|done].
      by rewrite drop_nil in Hhead. }
    rewrite drop_0 in Hhead.
    assert (rr_heap s !!! r = h1 !!! r) as Hfr.
    { apply (rr_fresh _ _ _ _ Hs). fold U. by apply head_elem_of. }
    rewrite Hfr. pose proof (Hnext r) as Hlt. rewrite drop_0 in Hlt.
    specialize (Hlt Hhead).
    destruct (Z.ltb_spec (rr_time s1) (arrival_time (h1 !!! r))) as [_|Hge].
    2:{ unfold s1, rr_with_queue in Hge. cbn [rr_time] in Hge. lia. }
    destruct (rr_idle_spec (arrival_time (h1 !!! r)) s1
                (rr_chart_ok _ _ _ _ Hs1) (rr_lastok _ _ _ _ Hs1))
      as (chart & Hidle & Hci & Hb); [done|].
    eexists. split; [exact Hidle|].
    assert (rr_inv h1 PL time_quantum
              (mkRR (rr_heap s1) (completed_processes_dict s1) chart
                    (arrival_time (h1 !!! r))
                    (rr_total_waiting_time s1) (rr_total_turnaround_time s1)
                    (ready_queue s1) (process_idx s1) (last chart))) as Hs2.
    { apply rr_inv_idle; try done. }
    split; [done|]. split; [|by left].
    eapply rr_measure_lt; [done|done|].
    assert (rr_gap h1 PL s = 1) as ->.
    { unfold rr_gap. rewrite Hq0. fold U. destruct U as [|u U']; [done|].
      simpl in Hhead. injection Hhead as ->.
      destruct (Z.ltb_spec (rr_time s) (arrival_time (h1 !!! r))); [done|lia]. }
    rewrite <- Hw1.
    assert (rr_gap h1 PL
              (mkRR (rr_heap s1) (completed_processes_dict s1) chart
                    (arrival_time (h1 !!! r))
                    (rr_total_waiting_time s1) (rr_total_turnaround_time s1)
                    (ready_queue s1) (process_idx s1) (last chart)) = 0) as ->.
    { unfold rr_gap. cbn [ready_queue process_idx rr_time].
      rewrite HU1, drop_0. destruct (ready_queue s1); [|done].
      destruct U as [|u U']; [done|]. simpl in Hhead. injection Hhead as ->.
      by rewrite Z.ltb_irrefl. }
    unfold rr_work. cbn [rr_heap ready_queue process_idx]. lia.
  - assert (ready_queue s1 = proc :: queue) as Hq1' by done.
    destruct (rr_inv_dispatch h1 PL time_quantum s1 proc queue Hv HQ Hs1 Hq1' Hc1)
      as (chart & Hchart & Hs2 & Hw2 & Ht2 & Hi2 & Hq2 & Hlt).
    destruct (rr_run_spec h1 PL time_quantum proc queue s1 chart Hlt Hchart)
      as (k' & Hrun & Hk' & Harr' & Hnext').
    { intros r Hr. split; [|split].
      - intros ->. eapply (NoDup_take_drop_disjoint PL); [done| |exact Hr].
        rewrite <- (rr_perm _ _ _ _ Hs1), Hq1'. apply elem_of_app. right.
        apply list_elem_of_here.
      - by apply (rr_fresh _ _ _ _ Hs1).
      - apply drop_elem_of in Hr. by apply (valid_input_lookup _ _ _ Hv Hr). }
    eexists. split; [exact Hrun|].
    set (s2 := rr_dispatch time_quantum proc queue chart s1) in *.
    destruct (rr_inv_arrivals h1 PL time_quantum s2 queue
                (if remaining_burst_time
                      (dispatched time_quantum (rr_time s1) (rr_heap s1 !!! proc)) =? 0
                 then [] else [proc]) k' Hv HQ Hs2 Hq2)
      as [Hs3 Hw3].
    { rewrite Hi2, Ht2. exact Harr'. }
    { by rewrite Hi2. }
    rewrite Hi2 in Hs3, Hw3. split; [exact Hs3|]. split.
    { eapply rr_measure_lt; [done|exact Hs3|].
      rewrite Hw3.
      match goal with |- context [rr_gap h1 PL ?x] =>
        pose proof (rr_gap_range h1 PL x) end.
      pose proof (rr_gap_range h1 PL s). lia. }
    right. exists proc.
    assert (proc ∈ take (process_idx s1) PL) as Hin.
    { rewrite <- (rr_perm _ _ _ _ Hs1), Hq1'. apply elem_of_app. right.
      apply list_elem_of_here. }
    destruct (rr_dispatch_fields time_quantum proc queue chart s1) as [Hh2 Hg2].
    fold s2 in Hh2, Hg2.
    split; [by eapply take_elem_of|]. split; [done|].
    split; [by apply (rr_static _ _ _ _ Hs1)|].
    split; [by apply (rr_arrived _ _ _ _ Hs1)|].
    split; [apply (rr_queued _ _ _ _ Hs1); rewrite Hq1'; apply list_elem_of_here|].
    unfold rr_with_queue. cbn [rr_heap rr_time rr_gantt].
    rewrite Hh2, Ht2, Hg2. split; [done|]. split; [done|]. exact Hchart.
Qed.

(** ** Round robin: the whole loop *)

Lemma rr_inv_init h1 PL time_quantum :
  PL ≠ [] → rr_inv h1 PL time_quantum (rr_init h1).
Proof.
  intros Hne. constructor; unfold rr_init;
    cbn [rr_heap completed_processes_dict rr_gantt rr_time ready_queue
         process_idx last_gantt_entry]; try done.
  - lia.
  - intros r Hr. by apply elem_of_nil in Hr.
  - intros r Hr. by apply elem_of_nil in Hr.
  - intros r Hr. by apply elem_of_nil in Hr.
  - left. destruct PL; [done|]. simpl. lia.
Qed.

Lemma rr_loop_total h1 PL time_quantum :
  valid_input h1 PL → 0 < time_quantum →
  ∀ fuel, (rr_measure h1 PL (rr_init h1) ≤ fuel)%nat →
    ∃ s, while_loop fuel (rr_cond (length PL)) (rr_body PL time_quantum) (rr_init h1)
         = Some (s, None) ∧
         rr_inv h1 PL time_quantum s ∧ rr_cond (length PL) s = false.
Proof.
  intros Hv HQ fuel Hfuel.
  apply (while_loop_total (rr_inv h1 PL time_quantum) (rr_measure h1 PL)).
  - intros s Hs Hc.
    destruct (rr_body_step h1 PL time_quantum s Hv HQ Hs Hc) as (s' & ? & ? & ? & _).
    by exists s'.
  - apply rr_inv_init. by destruct Hv.
  - done.
Qed.

Lemma busy_time_nil_pos chart : 0 < busy_time chart → chart ≠ [].
Proof. intros H ->. unfold busy_time, sumZ in H. simpl in H. lia. Qed.

Lemma sumZ_pos {A} (f : A → Z) l : l ≠ [] → (∀ x, x ∈ l → 0 < f x) → 0 < sumZ f l.
Proof.
  intros Hne H. destruct l as [|a l]; [done|]. unfold sumZ. simpl.
  assert (0 < f a) by (apply H, list_elem_of_here).
  assert (0 ≤ sumZ f l).
  { apply sumZ_nonneg. intros x Hx. apply Z.lt_le_incl, H. by apply list_elem_of_further. }
  unfold sumZ in *. lia.
Qed.

Lemma rr_final_ok h processes h1 PL time_quantum s :
  valid_input h1 PL → same_processes (objects h processes) (objects h1 PL) →
  rr_inv h1 PL time_quantum s → rr_cond (length PL) s = false →
  ∃ r, rr_finish (length PL) s = (rr_heap s, Return r) ∧
       schedule_ok h processes (rr_heap s) r.
Proof.
  intros Hv Hsame [] Hc.
  destruct rr_static0 as [Hlen Hst].
  set (D := dict_values (completed_processes_dict s)) in *.
  unfold rr_cond in Hc. apply Nat.ltb_ge in Hc.
  assert (length (completed_processes_dict s) = length D) as HlD.
  { unfold D, dict_values. by rewrite length_fmap. }
  pose proof (Permutation_length rr_perm0) as Hpl.
  rewrite length_app, length_take in Hpl.
  assert (ready_queue s = []) as Hq by (destruct (ready_queue s); [done|simpl in Hpl; lia]).
  assert (D ≡ₚ PL) as HD.
  { rewrite Hq, app_nil_r in rr_perm0. rewrite rr_perm0.
    rewrite take_ge; [done|]. rewrite Hq in Hpl. simpl in Hpl. lia. }
  assert (PL ≠ []) as HPL by (by destruct Hv).
  assert (D ≠ []) as HDne.
  { intros Hnil. rewrite Hnil in HD. by apply Permutation_nil in HD. }
  assert (completed_processes_dict s ≠ []) as Hdne.
  { intros Hnil. unfold D in HDne. by rewrite Hnil in HDne. }
  destruct rr_final0 as [Hlt|(rl & HrlD & Hrl)]; [lia|].
  set (L := sorted (λ p, p_id (rr_heap s !!! p)) D).
  assert (L ≡ₚ D) as HL by apply sorted_perm.
  exists (mkResult (rr_gantt s) (average (rr_total_waiting_time s) (length PL))
                   (average (rr_total_turnaround_time s) (length PL)) L).
  split.
  { unfold rr_finish. by destruct (completed_processes_dict s). }
  unfold schedule_ok. cbn [completed_processes gantt_chart].
  assert (∀ p, p ∈ objects (rr_heap s) L → ∃ r, p = rr_heap s !!! r ∧ r ∈ D) as Hp.
  { intros p (r & -> & Hr)%objects_elem. exists r. split; [done|]. by rewrite <- HL. }
  assert (busy_time (rr_gantt s) = sumZ (λ r, burst_time (h1 !!! r)) D) as Hbusy.
  { rewrite rr_busy0, Hq. unfold sumZ at 2. simpl. lia. }
  split; [|split; [|split]].
  - unfold same_processes in *. rewrite <- Hsame. unfold objects.
    rewrite <- !list_fmap_compose. rewrite HL, HD.
    rewrite (list_fmap_ext (static ∘ (λ r, rr_heap s !!! r))
               (static ∘ (λ r, h1 !!! r)) PL); [done|].
    intros i r _. simpl. apply Hst.
  - apply Forall_forall. intros p (r & -> & Hr)%Hp. by apply rr_done0.
  - apply Forall_forall. intros p (r & -> & Hr)%Hp. by apply rr_done0.
  - destruct rr_chart_ok0 as (Hc1 & Hc2 & Hc3 & Hc4 & Hc5 & Hc6).
    assert (rr_gantt s ≠ []) as Hgne.
    { apply busy_time_nil_pos. rewrite Hbusy. apply sumZ_pos; [done|].
      intros r Hr. rewrite HD in Hr.
      destruct (valid_input_lookup _ _ _ Hv Hr) as (_ & _ & _ & ? & _). lia. }
    destruct (rr_gantt s) as [|first chart] eqn:Hg; [done|]. rewrite <- Hg in *.
    destruct (last (rr_gantt s)) as [final|] eqn:Hl.
    2:{ by apply last_None in Hl. }
    split; [done|]. split; [done|]. split; [|split; [|split]].
    + exists first. rewrite Hg. split; [done|]. right. apply Hc3. by rewrite Hg.
    + exists final. split; [done|]. rewrite (Hc4 final eq_refl). split.
      * exists (rr_heap s !!! rl). split; [|done].
        apply objects_elem. exists rl. split; [done|]. by rewrite HL.
      * apply Forall_forall. intros p (r & -> & Hr)%Hp.
        by destruct (rr_done0 r Hr) as (_ & _ & ? & _).
    + done.
    + rewrite Hbusy. unfold objects. rewrite sumZ_fmap.
      rewrite (sumZ_perm _ _ _ HL). apply sumZ_ext. intros r' _. simpl.
      by destruct (static_field_eqs _ _ (Hst r')) as (_ & _ & -> & _).
Qed.

Lemma round_robin_ok (h : heap) processes time_quantum :
  valid_input h processes → 0 < time_quantum →
  ∃ h' r, returns (λ fuel, round_robin fuel h processes time_quantum) h' r ∧
          schedule_ok h processes h' r.
Proof.
  intros Hv HQ.
  destruct (start_valid h processes Hv) as (h1 & copies & Hd & Hv1 & Hsame).
  set (PL := sorted (λ p, arrival_time (h1 !!! p)) copies) in *.
  destruct (rr_loop_total h1 PL time_quantum Hv1 HQ _ (Nat.le_refl _))
    as (s & Hw & Hs & Hc).
  destruct (rr_final_ok h processes h1 PL time_quantum s Hv1 Hsame Hs Hc)
    as (r & Hf & Hok).
  exists (rr_heap s), r. split; [|done].
  exists (rr_measure h1 PL (rr_init h1)). intros fuel Hfuel.
  unfold round_robin. destruct (Z.leb_spec time_quantum 0) as [|_]; [lia|].
  rewrite Hd. fold PL.
  rewrite (while_loop_mono _ _ _ _ _ _ Hw Hfuel). by rewrite Hf.
Qed.

(** ** The four functions on a valid input *)

Lemma every_algorithm_ok (h : heap) processes time_quantum :
  valid_input h processes → 0 < time_quantum →
  every_algorithm h processes time_quantum (schedule_ok h processes).
Proof.
  intros Hv HQ. split; [|split; [|split]].
  - destruct (fcfs_ok h processes Hv) as (h' & r & ? & ? & _). by exists h', r.
  - destruct (nonpreemptive_ok burst_time h processes Hv) as (h' & r & ? & ? & _).
    by exists h', r.
  - destruct (nonpreemptive_ok priority h processes Hv) as (h' & r & ? & ? & _).
    by exists h', r.
  - destruct (round_robin_ok h processes time_quantum Hv HQ) as (h' & r & ? & ?).
    by exists h', r.
Qed.

Lemma every_algorithm_impl (h : heap) processes time_quantum (P R : heap → result → Prop) :
  (∀ h' r, P h' r → R h' r) →
  every_algorithm h processes time_quantum P →
  every_algorithm h processes time_quantum R.
Proof.
  intros HPR (H1 & H2 & H3 & H4).
  split; [|split; [|split]].
  - destruct H1 as (h' & r & ? & ?). exists h', r. auto.
  - destruct H2 as (h' & r & ? & ?). exists h', r. auto.
  - destruct H3 as (h' & r & ? & ?). exists h', r. auto.
  - destruct H4 as (h' & r & ? & ?). exists h', r. auto.
Qed.

Lemma scenario_valid (h : heap) :
  h ≠ [] → Forall valid_process h → NoDup (p_id <$> h) →
  valid_input h (all_refs h).
Proof.
  intros Hne Hv Hid. unfold all_refs. split; [|split].
  - destruct h; [done|]. simpl. done.
  - apply Forall_forall. intros r Hr. apply elem_of_seq in Hr as [_ Hr].
    simpl in Hr. split; [done|].
    eapply Forall_forall; [exact Hv|]. by apply list_elem_of_lookup_total_2.
  - assert (((λ r, p_id (h !!! r)) <$> seq 0 (length h)) = p_id <$> h) as ->; [|done].
    apply list_eq. intros i. rewrite !list_lookup_fmap.
    destruct (decide (i < length h)%nat) as [Hi|Hi].
    + rewrite lookup_seq_lt by done. simpl.
      by rewrite (list_lookup_lookup_total_lt h i Hi).
    + rewrite lookup_seq_ge by lia. by rewrite lookup_ge_None_2 by lia.
Qed.

Lemma scenario_D_valid : valid_input scenario_D (all_refs scenario_D).
Proof.
  apply scenario_valid; [done| |].
  - repeat constructor; simpl; lia.
  - apply (bool_decide_unpack _). by vm_compute.
Qed.

(** C1.  On a valid input each of the four functions returns, and the
    processes it returns are those of the input, each with
    [turnaround_time = completion_time - arrival_time] and
    [waiting_time = max(0, turnaround_time - burst_time)].  A negative
    difference is thus reported as 0; [calculate_metrics] raises nothing,
    it sets the two attributes whenever the completion time is set. *)
Theorem C1_metrics_of_completed_processes (h : heap) (processes : list ref)
    (time_quantum : Z) :
  valid_input h processes → 0 < time_quantum →
  every_algorithm h processes time_quantum (λ h' r,
    same_processes (objects h processes) (objects h' (completed_processes r)) ∧
    Forall (λ p, turnaround_time p = completion_time p - arrival_time p ∧
                 waiting_time p = Z.max 0 (turnaround_time p - burst_time p))
           (objects h' (completed_processes r))) ∧
  (∀ p, completion_time p ≠ -1 →
        turnaround_time (calculate_metrics p) = completion_time p - arrival_time p ∧
        waiting_time (calculate_metrics p)
        = Z.max 0 (completion_time p - arrival_time p - burst_time p)).
Proof.
  intros Hv HQ. split.
  - eapply every_algorithm_impl; [|by apply every_algorithm_ok].
    intros h' r (Hs & Hm & _). split; [done|]. exact Hm.
  - intros p Hp. pose proof (calculate_metrics_ok p Hp) as [Ht Hw].
    destruct (calculate_metrics_static p) as (Hst & _ & _ & Hc).
    destruct (static_field_eqs _ _ Hst) as (_ & Ha & Hb & _).
    rewrite Hc, Ha in Ht. rewrite Ht, Hb in Hw. done.
Qed.

Lemma C1_witness :
  every_algorithm scenario_D (all_refs scenario_D) 2 (λ h' r,
    same_processes (objects scenario_D (all_refs scenario_D))
                   (objects h' (completed_processes r)) ∧
    Forall (λ p, turnaround_time p = completion_time p - arrival_time p ∧
                 waiting_time p = Z.max 0 (turnaround_time p - burst_time p))
           (objects h' (completed_processes r))) ∧
  (∀ p, completion_time p ≠ -1 →
        turnaround_time (calculate_metrics p) = completion_time p - arrival_time p ∧
        waiting_time (calculate_metrics p)
        = Z.max 0 (completion_time p - arrival_time p - burst_time p)).
Proof.
  apply (C1_metrics_of_completed_processes scenario_D (all_refs scenario_D) 2).
  - exact scenario_D_valid.
  - lia.
Defined.

Lemma same_processes_burst ins outs :
  same_processes ins outs → sumZ burst_time outs = sumZ burst_time ins.
Proof.
  unfold same_processes. intros Hp.
  assert (∀ l, sumZ burst_time l = sumZ (λ t : Z * Z * Z * Z, t.1.2) (static <$> l)) as Hs.
  { intros l. by rewrite sumZ_fmap. }
  rewrite !Hs. by apply sumZ_perm.
Qed.

(** C2.  On a valid input each of the four functions returns a valid
    timeline for the processes it returns, which are those of the input:
    every entry starts where the one before it ends and has
    [start < end]; the first entry starts at the earliest arrival time or
    at 0; the last entry ends at the latest completion time; no two
    adjacent entries have the same occupant; and the lengths of the
    entries that are not idle add up to the burst times of the input. *)
Theorem C2_timeline_is_valid (h : heap) (processes : list ref) (time_quantum : Z) :
  valid_input h processes → 0 < time_quantum →
  every_algorithm h processes time_quantum (λ h' r,
    same_processes (objects h processes) (objects h' (completed_processes r)) ∧
    valid_timeline (gantt_chart r) (objects h' (completed_processes r)) ∧
    busy_time (gantt_chart r) = sumZ burst_time (objects h processes)).
Proof.
  intros Hv HQ.
  eapply every_algorithm_impl; [|by apply every_algorithm_ok].
  intros h' r (Hs & _ & _ & Ht). split; [done|]. split; [done|].
  destruct Ht as (_ & _ & _ & _ & _ & ->). by apply same_processes_burst.
Qed.

Lemma C2_witness :
  every_algorithm scenario_D (all_refs scenario_D) 2 (λ h' r,
    same_processes (objects scenario_D (all_refs scenario_D))
                   (objects h' (completed_processes r)) ∧
    valid_timeline (gantt_chart r) (objects h' (completed_processes r)) ∧
    busy_time (gantt_chart r)
    = sumZ burst_time (objects scenario_D (all_refs scenario_D))).
Proof.
  apply (C2_timeline_is_valid scenario_D (all_refs scenario_D) 2).
  - exact scenario_D_valid.
  - lia.
Defined.

(** C10.  On a valid input every process a function returns has started
    no earlier than it arrived, and has completed no earlier than its
    start plus its burst time; for [fcfs], [sjf] and [priority_scheduling]
    the completion time is exactly the start time plus the burst time. *)
Theorem C10_start_and_completion (h : heap) (processes : list ref) (time_quantum : Z) :
  valid_input h processes → 0 < time_quantum →
  (∃ h' r, fcfs h processes = (h', Return r) ∧
     same_processes (objects h processes) (objects h' (completed_processes r)) ∧
     Forall (λ p, arrival_time p ≤ start_time p ∧
                  start_time p + burst_time p = completion_time p)
            (objects h' (completed_processes r))) ∧
  (∃ h' r, returns (λ fuel, sjf fuel h processes) h' r ∧
     same_processes (objects h processes) (objects h' (completed_processes r)) ∧
     Forall (λ p, arrival_time p ≤ start_time p ∧
                  start_time p + burst_time p = completion_time p)
            (objects h' (completed_processes r))) ∧
  (∃ h' r, returns (λ fuel, priority_scheduling fuel h processes) h' r ∧
     same_processes (objects h processes) (objects h' (completed_processes r)) ∧
     Forall (λ p, arrival_time p ≤ start_time p ∧
                  start_time p + burst_time p = completion_time p)
            (objects h' (completed_processes r))) ∧
  (∃ h' r, returns (λ fuel, round_robin fuel h processes time_quantum) h' r ∧
     same_processes (objects h processes) (objects h' (completed_processes r)) ∧
     Forall (λ p, arrival_time p ≤ start_time p ∧
                  start_time p + burst_time p ≤ completion_time p)
            (objects h' (completed_processes r))).
Proof.
  intros Hv HQ. split; [|split; [|split]].
  - destruct (fcfs_ok h processes Hv) as (h' & r & ? & (? & _) & ?). by exists h', r.
  - destruct (nonpreemptive_ok burst_time h processes Hv) as (h' & r & ? & (? & _) & ?).
    by exists h', r.
  - destruct (nonpreemptive_ok priority h processes Hv) as (h' & r & ? & (? & _) & ?).
    by exists h', r.
  - destruct (round_robin_ok h processes time_quantum Hv HQ)
      as (h' & r & ? & (? & _ & ? & _)).
    by exists h', r.
Qed.

Lemma C10_witness :
  (∃ h' r, fcfs scenario_D (all_refs scenario_D) = (h', Return r) ∧
     same_processes (objects scenario_D (all_refs scenario_D))
                    (objects h' (completed_processes r)) ∧
     Forall (λ p, arrival_time p ≤ start_time p ∧
                  start_time p + burst_time p = completion_time p)
            (objects h' (completed_processes r))) ∧
  (∃ h' r, returns (λ fuel, sjf fuel scenario_D (all_refs scenario_D)) h' r ∧
     same_processes (objects scenario_D (all_refs scenario_D))
                    (objects h' (completed_processes r)) ∧
     Forall (λ p, arrival_time p ≤ start_time p ∧
                  start_time p + burst_time p = completion_time p)
            (objects h' (completed_processes r))) ∧
  (∃ h' r, returns (λ fuel, priority_scheduling fuel scenario_D (all_refs scenario_D))
                   h' r ∧
     same_processes (objects scenario_D (all_refs scenario_D))
                    (objects h' (completed_processes r)) ∧
     Forall (λ p, arrival_time p ≤ start_time p ∧
                  start_time p + burst_time p = completion_time p)
            (objects h' (completed_processes r))) ∧
  (∃ h' r, returns (λ fuel, round_robin fuel scenario_D (all_refs scenario_D) 2) h' r ∧
     same_processes (objects scenario_D (all_refs scenario_D))
                    (objects h' (completed_processes r)) ∧
     Forall (λ p, arrival_time p ≤ start_time p ∧
                  start_time p + burst_time p ≤ completion_time p)
            (objects h' (completed_processes r))).
Proof.
  apply (C10_start_and_completion scenario_D (all_refs scenario_D) 2).
  - exact scenario_D_valid.
  - lia.
Defined.

(** ** Stable sorting and the choice of the next process *)

Lemma head_insert_by {A} (key : A → Z) x l :
  head (insert_by key x l)
  = Some (match head l with
          | Some y => if key x <=? key y then x else y
          | None => x
          end).
Proof. destruct l as [|y l]; simpl; [done|]. by destruct (_ <=? _). Qed.

(** The head of a stably sorted list is the first element with the least
    key. *)
Lemma head_sorted_split {A} (key : A → Z) l m :
  head (sorted key l) = Some m →
  ∃ l1 l2, l = l1 ++ m :: l2 ∧
           Forall (λ y, key m < key y) l1 ∧ Forall (λ y, key m ≤ key y) l2.
Proof.
  revert m. induction l as [|x l IH]; intros m; simpl; [done|].
  rewrite head_insert_by. destruct (head (sorted key l)) as [m'|] eqn:Hh.
  - destruct (IH m' eq_refl) as (l1 & l2 & -> & H1 & H2).
    destruct (Z.leb_spec (key x) (key m')) as [Hle|Hlt]; intros [= <-].
    + exists [], (l1 ++ m' :: l2). split; [done|]. split; [constructor|].
      apply Forall_app. split.
      * eapply Forall_impl; [exact H1|]. simpl. lia.
      * constructor; [done|]. eapply Forall_impl; [exact H2|]. simpl. lia.
    + exists (x :: l1), l2. split; [done|]. split; [|done]. by constructor.
  - intros [= <-]. destruct l as [|y l].
    + exists [], []. by repeat split.
    + exfalso. destruct (sorted_nonempty key (y :: l)) as [? Hs]; [done|].
      rewrite Hs in Hh. done.
Qed.

Lemma arrives_before_le (h : heap) a b :
  arrives_before h a b → arrival_time (h !!! a) ≤ arrival_time (h !!! b).
Proof. unfold arrives_before. lia. Qed.

Lemma insert_by_arrival_sorted (h : heap) x l :
  StronglySorted (arrives_before h) l → Forall (λ y, (x < y)%nat) l →
  StronglySorted (arrives_before h) (insert_by (λ p, arrival_time (h !!! p)) x l).
Proof.
  induction l as [|y l IH]; simpl; intros Hs Hx.
  - repeat constructor.
  - apply StronglySorted_inv in Hs as [Hs Hy].
    apply Forall_cons in Hx as [Hxy Hx].
    destruct (Z.leb_spec (arrival_time (h !!! x)) (arrival_time (h !!! y))) as [Hle|Hlt].
    + constructor; [by constructor|]. constructor.
      * unfold arrives_before. lia.
      * apply Forall_forall. intros z Hz.
        eapply Forall_forall in Hy; [|exact Hz]. apply arrives_before_le in Hy.
        eapply Forall_forall in Hx; [|exact Hz]. unfold arrives_before. lia.
    + constructor; [by apply IH|].
      rewrite insert_by_perm. constructor; [|done]. left. lia.
Qed.

Lemma sorted_seq_sorted (h : heap) n : ∀ base,
  StronglySorted (arrives_before h)
    (sorted (λ p, arrival_time (h !!! p)) (seq base n)).
Proof.
  induction n as [|n IH]; intros base; simpl; [constructor|].
  apply insert_by_arrival_sorted; [apply IH|].
  rewrite sorted_perm. apply Forall_forall. intros y Hy.
  apply elem_of_seq in Hy. lia.
Qed.

Lemma remove_first_sorted {R : ref → ref → Prop} x l l' :
  remove_first x l = Some l' → StronglySorted R l → StronglySorted R l'.
Proof.
  revert l'. induction l as [|y l IH]; simpl; intros l' H Hs; [done|].
  apply StronglySorted_inv in Hs as [Hs Hy].
  destruct (Nat.eqb y x); [by injection H as <-|].
  destruct (remove_first x l) as [l''|] eqn:Hr; [|done]. injection H as <-.
  constructor; [by apply IH|].
  apply remove_first_perm in Hr. rewrite Hr in Hy.
  by apply Forall_cons in Hy as [_ ?].
Qed.

Lemma ready_at_sorted {R : ref → ref → Prop} h t l :
  StronglySorted R l → StronglySorted R (ready_at h t l).
Proof.
  unfold ready_at. induction 1 as [|y l Hs IH Hy]; [constructor|].
  rewrite filter_cons. case_decide; [|done].
  constructor; [done|]. apply Forall_forall. intros z [_ Hz]%list_elem_of_filter.
  by eapply Forall_forall in Hy.
Qed.

Lemma np_select_first key (h : heap) ready proc :
  StronglySorted (arrives_before h) ready →
  np_select key h ready = Some proc →
  first_by key by_input_order h ready proc.
Proof.
  intros Hs Hsel. unfold np_select in Hsel.
  destruct (head_sorted_split _ _ _ Hsel) as (l1 & l2 & -> & H1 & H2).
  split; [apply elem_of_app; right; apply list_elem_of_here|].
  intros q [Hq|[->|Hq]%elem_of_cons]%elem_of_app.
  - left. by eapply Forall_forall in H1.
  - right. split; [done|]. right. split; [done|]. unfold by_input_order. lia.
  - eapply Forall_forall in H2; [|exact Hq]. simpl in H2.
    apply StronglySorted_app in Hs as (_ & _ & Hs).
    apply StronglySorted_inv in Hs as [_ Hs].
    eapply Forall_forall in Hs; [|exact Hq].
    destruct (decide (key (h !!! proc) = key (h !!! q))) as [Heq|Hne]; [|left; lia].
    right. split; [done|]. unfold by_input_order.
    destruct Hs as [?|[? ?]]; [by left|right; split; [done|lia]].
Qed.

Lemma StronglySorted_impl {A} (R R' : A → A → Prop) l :
  (∀ a b, R a b → R' a b) → StronglySorted R l → StronglySorted R' l.
Proof.
  intros HR. induction 1 as [|x l Hs IH Hx]; constructor; [done|].
  eapply Forall_impl; [exact Hx|]. apply HR.
Qed.

Lemma arrives_before_static (h1 h : heap) a b :
  static_eq h1 h → arrives_before h1 a b → arrives_before h a b.
Proof.
  intros [_ Hst]. unfold arrives_before.
  destruct (static_field_eqs _ _ (Hst a)) as (_ & -> & _).
  by destruct (static_field_eqs _ _ (Hst b)) as (_ & -> & _).
Qed.

Lemma np_state_inv key h1 PL k st :
  valid_input h1 PL → StronglySorted (arrives_before h1) PL →
  loop_state k (np_cond (length PL)) (np_body key) (mkNp (sim_init h1) PL) = Some st →
  np_inv_sorted h1 PL st ∧ np_cond (length PL) st = true.
Proof.
  intros Hv Hsorted.
  apply (loop_state_inv (np_inv_sorted h1 PL)).
  - intros s s' [Hs Hso] Hc Hb.
    destruct (np_body_step key h1 PL s Hv Hs Hc)
      as (s0 & proc & rem' & _ & _ & Hrm & Hb' & Hinv & _).
    rewrite Hb in Hb'. injection Hb' as ->.
    split; [done|]. cbn [remaining_processes]. by eapply remove_first_sorted.
  - split; [|done]. split; [apply sim_inv_init|done].
Qed.

(** A decision point of [nonpreemptive key] on a valid input. *)
Lemma np_decision key (h : heap) processes k st :
  valid_input h processes →
  np_state_at key h processes k = Some st →
  np_decides key (λ _, by_input_order) h processes st.
Proof.
  intros Hv Hst. unfold np_state_at in Hst. unfold np_decides.
  destruct (deepcopy_valid h processes Hv) as [Hd Hv1]. rewrite Hd in Hst.
  set (h1 := h ++ ((h !!!.) <$> processes)) in *.
  set (copies := seq (length h) (length processes)) in *.
  set (PL := sorted (λ p, arrival_time (h1 !!! p)) copies) in *.
  assert (valid_input h1 PL) as HvPL.
  { eapply valid_input_perm; [|exact Hv1]. symmetry. apply sorted_perm. }
  destruct (np_state_inv key h1 PL k st HvPL (sorted_seq_sorted h1 _ _) Hst)
    as [[Hinv Hsorted] Hc].
  destruct (np_body_step key h1 PL st HvPL Hinv Hc)
    as (s0 & proc & rem' & Hrd & Hsel & Hrm & Hb & _ & Hs0 & Hc0 & Hin & Hnc & Harr & _).
  destruct (sim_inv_run h1 PL s0 proc HvPL Hs0 Hin Hnc Harr) as [_ Heq].
  pose proof (inv_fresh _ _ _ _ Hs0 proc Hin Hnc) as Hfresh.
  exists s0, proc, rem'. cbv zeta.
  split; [done|]. split; [|split; [done|split; [|split; [done|split]]]].
  - destruct Hinv as [_ Hperm]. intros r.
    pose proof (valid_input_NoDup _ _ HvPL) as Hnd. rewrite <- Hperm in Hnd.
    apply NoDup_app in Hnd as (_ & Hdisj & _).
    assert (r ∈ copies ↔ r ∈ completed (np_sim st) ++ remaining_processes st) as ->.
    { rewrite Hperm. unfold PL. by rewrite sorted_perm. }
    rewrite elem_of_app. split.
    + intros Hr. split; [by right|]. intros Hx. by apply (Hdisj r).
    + intros [[?|?] ?]; done.
  - apply np_select_first; [|done]. apply ready_at_sorted.
    eapply StronglySorted_impl; [|exact Hsorted].
    intros a b. apply arrives_before_static. by apply (inv_static _ _ _ _ Hs0).
  - by apply remove_first_perm.
  - rewrite Hfresh. exact Heq.
Qed.

Lemma scenario_B_valid : valid_input scenario_B (all_refs scenario_B).
Proof.
  apply scenario_valid; [done| |].
  - repeat constructor; simpl; lia.
  - apply (bool_decide_unpack _). by vm_compute.
Qed.

Lemma scenario_C_valid : valid_input scenario_C (all_refs scenario_C).
Proof.
  apply scenario_valid; [done| |].
  - repeat constructor; simpl; lia.
  - apply (bool_decide_unpack _). by vm_compute.
Qed.

Lemma tie_heap_valid : valid_input tie_heap (all_refs tie_heap).
Proof.
  apply scenario_valid; [done| |].
  - repeat constructor; simpl; lia.
  - apply (bool_decide_unpack _). by vm_compute.
Qed.

(** C4, as the code has it.  At every decision point of [sjf] on a valid
    input, the process selected is, among the processes not yet completed
    that have arrived, one with the smallest burst time; among those, one
    with the smallest arrival time; among those, the one that comes first
    in the input list.  It runs to completion in the same iteration. *)
Theorem C4_sjf_selection (h : heap) (processes : list ref) (k : nat) (st : np_state) :
  valid_input h processes →
  sjf_state_at h processes k = Some st →
  np_decides burst_time (λ _, by_input_order) h processes st.
Proof. apply np_decision. Qed.

Lemma C4_witness :
  ∃ st, sjf_state_at scenario_B (all_refs scenario_B) 1 = Some st ∧
        np_decides burst_time (λ _, by_input_order) scenario_B (all_refs scenario_B) st.
Proof.
  eexists. split; [vm_compute; reflexivity|].
  apply (C4_sjf_selection scenario_B (all_refs scenario_B) 1).
  - exact scenario_B_valid.
  - vm_compute. reflexivity.
Defined.

(** C4 as claimed fails.  The input lists process 2 before process 1,
    with the same arrival and burst times; it is valid.  At the first
    decision point both are ready and [sjf] selects process 2, the first of
    the list, not the one with the smallest id; the chart shows it. *)
Lemma C4_counterexample :
  valid_input tie_heap (all_refs tie_heap) ∧
  chart_of (sjf 2 tie_heap (all_refs tie_heap)) = Some [(Pid 2, 0, 3); (Pid 1, 3, 6)] ∧
  ∃ st s0 ready proc q,
    sjf_state_at tie_heap (all_refs tie_heap) 0 = Some st ∧
    np_ready st = inr (s0, ready) ∧
    np_select burst_time (sim_heap s0) ready = Some proc ∧
    q ∈ ready ∧
    burst_time (sim_heap s0 !!! q) = burst_time (sim_heap s0 !!! proc) ∧
    arrival_time (sim_heap s0 !!! q) = arrival_time (sim_heap s0 !!! proc) ∧
    p_id (sim_heap s0 !!! q) < p_id (sim_heap s0 !!! proc) ∧
    (first_by burst_time (by_id (sim_heap s0)) (sim_heap s0) ready proc → False).
Proof.
  split; [exact tie_heap_valid|]. split; [by vm_compute|].
  eexists _, _, _, _, 3%nat.
  split; [vm_compute; reflexivity|].
  split; [vm_compute; reflexivity|].
  split; [vm_compute; reflexivity|].
  split; [apply list_elem_of_further, list_elem_of_here|].
  split; [by vm_compute|]. split; [by vm_compute|]. split; [by vm_compute|].
  intros [_ H]. specialize (H 3%nat).
  assert (3%nat ∈ [2%nat; 3%nat]) as Hin
    by (apply list_elem_of_further, list_elem_of_here).
  specialize (H Hin). unfold by_id in H. vm_compute in H.
  destruct H as [H|[_ [H|[_ H]]]]; [discriminate H|discriminate H|by apply H].
Qed.

(** C5, as the code has it.  At every decision point of
    [priority_scheduling] on a valid input, the process selected is, among
    the processes not yet completed that have arrived, one with the
    smallest priority value; among those, one with the smallest arrival
    time; among those, the one that comes first in the input list.  It
    runs to completion in the same iteration. *)
Theorem C5_priority_selection (h : heap) (processes : list ref) (k : nat)
    (st : np_state) :
  valid_input h processes →
  priority_state_at h processes k = Some st →
  np_decides priority (λ _, by_input_order) h processes st.
Proof. apply np_decision. Qed.

Lemma C5_witness :
  ∃ st, priority_state_at scenario_C (all_refs scenario_C) 2 = Some st ∧
        np_decides priority (λ _, by_input_order) scenario_C (all_refs scenario_C) st.
Proof.
  eexists. split; [vm_compute; reflexivity|].
  apply (C5_priority_selection scenario_C (all_refs scenario_C) 2).
  - exact scenario_C_valid.
  - vm_compute. reflexivity.
Defined.

(** C5 as claimed fails, on the same input: the two processes have the
    same priority and arrival time, and [priority_scheduling] selects
    process 2, the first of the list, not the one with the smallest id. *)
Lemma C5_counterexample :
  valid_input tie_heap (all_refs tie_heap) ∧
  chart_of (priority_scheduling 2 tie_heap (all_refs tie_heap))
  = Some [(Pid 2, 0, 3); (Pid 1, 3, 6)] ∧
  ∃ st s0 ready proc q,
    priority_state_at tie_heap (all_refs tie_heap) 0 = Some st ∧
    np_ready st = inr (s0, ready) ∧
    np_select priority (sim_heap s0) ready = Some proc ∧
    q ∈ ready ∧
    priority (sim_heap s0 !!! q) = priority (sim_heap s0 !!! proc) ∧
    arrival_time (sim_heap s0 !!! q) = arrival_time (sim_heap s0 !!! proc) ∧
    p_id (sim_heap s0 !!! q) < p_id (sim_heap s0 !!! proc) ∧
    (first_by priority (by_id (sim_heap s0)) (sim_heap s0) ready proc → False).
Proof.
  split; [exact tie_heap_valid|]. split; [by vm_compute|].
  eexists _, _, _, _, 3%nat.
  split; [vm_compute; reflexivity|].
  split; [vm_compute; reflexivity|].
  split; [vm_compute; reflexivity|].
  split; [apply list_elem_of_further, list_elem_of_here|].
  split; [by vm_compute|]. split; [by vm_compute|]. split; [by vm_compute|].
  intros [_ H]. specialize (H 3%nat).
  assert (3%nat ∈ [2%nat; 3%nat]) as Hin
    by (apply list_elem_of_further, list_elem_of_here).
  specialize (H Hin). unfold by_id in H. vm_compute in H.
  destruct H as [H|[_ [H|[_ H]]]]; [discriminate H|discriminate H|by apply H].
Qed.

(** ** Round robin: the slices *)

Lemma rr_state_inv (h1 : heap) PL time_quantum k s :
  valid_input h1 PL → 0 < time_quantum →
  loop_state k (rr_cond (length PL)) (rr_body PL time_quantum) (rr_init h1) = Some s →
  rr_inv h1 PL time_quantum s ∧ rr_cond (length PL) s = true.
Proof.
  intros Hv HQ.
  apply (loop_state_inv (rr_inv h1 PL time_quantum)).
  - intros s0 s' Hs Hc Hb.
    destruct (rr_body_step h1 PL time_quantum s0 Hv HQ Hs Hc) as (s'' & Hb' & ? & _).
    rewrite Hb in Hb'. by injection Hb' as ->.
  - apply rr_inv_init. by destruct Hv.
Qed.

Lemma rr_chart_shape id t t' s chart :
  rr_chart id t t' s = Some chart → rr_last_ok s →
  (∀ e, last (rr_gantt s) = Some e → entry_end e = t) →
  chart = rr_gantt s ++ [(Pid id, t, t')] ∨
  ∃ init first, rr_gantt s = init ++ [(Pid id, first, t)] ∧
                chart = init ++ [(Pid id, first, t')].
Proof.
  unfold rr_chart, rr_last_ok. intros Hc Hl Hend.
  destruct (last_gantt_entry s) as [[[occ first] last_end]|]; [|left; by injection Hc].
  symmetry in Hl. pose proof (Hend _ Hl) as He. unfold entry_end in He. simpl in He.
  subst last_end.
  destruct (occupant_eqb occ (Pid id) && (t =? t)) eqn:Hb; [|left; by injection Hc].
  apply andb_prop in Hb as [Ho _]. destruct occ as [|i]; [done|].
  simpl in Ho. apply Z.eqb_eq in Ho as ->.
  apply last_Some in Hl as [init Hinit]. rewrite Hinit, set_last_snoc in Hc.
  injection Hc as <-. right. by exists init, first.
Qed.

Lemma final_length_spec time_quantum burst rem :
  0 < time_quantum → 0 < rem ≤ time_quantum →
  (burst - rem) `mod` time_quantum = 0 →
  final_length time_quantum burst = rem.
Proof.
  intros HQ Hrem Hmod. unfold final_length.
  assert (burst `mod` time_quantum = rem `mod` time_quantum) as Heq.
  { apply Z.mod_divide in Hmod as [c Hc]; [|lia].
    replace burst with (rem + c * time_quantum) by lia.
    apply Z_mod_plus_full. }
  rewrite Heq. destruct (decide (rem = time_quantum)) as [->|Hne].
  - by rewrite Z_mod_same_full.
  - rewrite Z.mod_small by lia. destruct (Z.eqb_spec rem 0); [lia|done].
Qed.

Lemma rr_iteration (h : heap) processes time_quantum k s :
  valid_input h processes → 0 < time_quantum →
  rr_state_at h processes time_quantum k = Some s →
  ∃ s', rr_body (process_list_of h processes) time_quantum s = Next s' ∧
        rr_slice_ok time_quantum s s'.
Proof.
  intros Hv HQ Hst. unfold rr_state_at in Hst. unfold process_list_of.
  destruct (start_valid h processes Hv) as (h1 & copies & Hd & Hv1 & _).
  rewrite Hd in Hst |- *.
  set (PL := sorted (λ p, arrival_time (h1 !!! p)) copies) in *.
  destruct (rr_state_inv h1 PL time_quantum k s Hv1 HQ Hst) as [Hs Hc].
  destruct (rr_body_step h1 PL time_quantum s Hv1 HQ Hs Hc)
    as (s' & Hb & Hs' & _ & Hcase).
  exists s'. split; [done|].
  destruct Hcase as [?|(proc & Hin & Hlt & Hstat & Harr & Hq & Hh & Ht & Hchart)];
    [by left|right].
  exists proc. cbv zeta.
  destruct (valid_input_lookup _ _ _ Hv1 Hin) as [_ Hvp].
  destruct (dispatched_spec time_quantum (rr_time s) (h1 !!! proc)
              (rr_heap s !!! proc) HQ (rr_time_nonneg _ _ _ _ Hs) Hvp Hstat)
    as (Hslice & Hrem & _ & Hdone & Hmore); [|done|].
  { destruct (static_field_eqs _ _ Hstat) as (_ & -> & _). done. }
  assert (rr_heap s' !!! proc
          = dispatched time_quantum (rr_time s) (rr_heap s !!! proc)) as Hp'.
  { rewrite Hh. by rewrite list_lookup_total_insert_eq. }
  rewrite Hp'. destruct Hq as ((Hr1 & Hr2) & Hmod & _).
  split; [|split; [done|split; [lia|split; [|split; [|split]]]]].
  - intros r Hr. rewrite Hh. by rewrite list_lookup_total_insert_ne.
  - rewrite Hrem. lia.
  - intros Hnz. destruct (Hmore Hnz) as [_ Hsq]. lia.
  - intros Hz. destruct (Hdone Hz) as [_ Hcp]. split; [|lia].
    rewrite Ht. replace (rr_time s + _ - rr_time s)
      with (Z.min time_quantum (remaining_burst_time (rr_heap s !!! proc))) by lia.
    symmetry. rewrite Hrem in Hz.
    assert (Z.min time_quantum (remaining_burst_time (rr_heap s !!! proc))
            = remaining_burst_time (rr_heap s !!! proc)) as -> by lia.
    apply final_length_spec; [done|lia|done].
  - apply (rr_chart_shape _ _ _ _ _ Hchart (rr_lastok _ _ _ _ Hs)).
    by destruct (rr_chart_ok _ _ _ _ Hs) as (_ & _ & _ & ? & _).
Qed.

Lemma lone_heap_valid : valid_input lone_heap (all_refs lone_heap).
Proof.
  apply scenario_valid; [done| |].
  - repeat constructor; simpl; lia.
  - apply (bool_decide_unpack _). by vm_compute.
Qed.

(** C3, as the code has it.  On a valid input and with a positive quantum,
    every iteration of the loop of [round_robin] is an idle gap or one
    slice of the process at the front of the ready queue.  A slice that
    does not finish its process has length exactly the quantum; the slice
    that finishes it has length [burst mod quantum], or the quantum when
    that is 0.  The chart does not list the slices one by one: a slice
    that follows a run of the same process extends that entry. *)
Theorem C3_round_robin_slices (h : heap) (processes : list ref) (time_quantum : Z)
    (k : nat) (s : rr_state) :
  valid_input h processes → 0 < time_quantum →
  rr_state_at h processes time_quantum k = Some s →
  ∃ s', rr_body (process_list_of h processes) time_quantum s = Next s' ∧
        rr_slice_ok time_quantum s s'.
Proof. apply rr_iteration. Qed.

Lemma C3_witness :
  ∃ s, rr_state_at scenario_D (all_refs scenario_D) 2 2 = Some s ∧
  ∃ s', rr_body (process_list_of scenario_D (all_refs scenario_D)) 2 s = Next s' ∧
        rr_slice_ok 2 s s'.
Proof.
  eexists. split; [vm_compute; reflexivity|].
  apply (C3_round_robin_slices scenario_D (all_refs scenario_D) 2 2).
  - exact scenario_D_valid.
  - lia.
  - vm_compute. reflexivity.
Defined.

(** C3 as claimed fails.  One process with burst time 5 and quantum 2: the
    three slices, of lengths 2, 2 and 1, are merged, and the timeline
    returned has the single entry from 0 to 5.  It is the final segment of
    the process, and its length is not [5 mod 2 = 1]. *)
Lemma C3_counterexample :
  valid_input lone_heap (all_refs lone_heap) ∧
  chart_of (round_robin 3 lone_heap (all_refs lone_heap) 2) = Some [(Pid 1, 0, 5)] ∧
  final_length 2 5 = 1 ∧
  (segments_as_claimed 2 5 (entries_of 1 [(Pid 1, 0, 5)]) → False).
Proof.
  split; [exact lone_heap_valid|]. split; [by vm_compute|]. split; [done|].
  intros [H _]. vm_compute in H. discriminate H.
Qed.

(** ** Round robin with a quantum no burst time exceeds *)





Lemma forget_remaining_idemp p :
  forget_remaining (forget_remaining p) = forget_remaining p.
Proof. done. Qed.







(** The one attribute on which the processes returned by the two calls
    differ: [fcfs] never writes [remaining_burst_time], which keeps the
    burst time, and [round_robin] counts it down to 0. *)
Lemma remaining_after_fcfs_and_round_robin :
  remaining_burst_time <$>
    objects (fcfs lone_heap (all_refs lone_heap)).1 [1%nat] = [5] ∧
  remaining_burst_time <$>
    objects (heap_after lone_heap (round_robin 4 lone_heap (all_refs lone_heap) 5))
            [1%nat] = [0].
Proof. split; vm_compute; reflexivity. Qed.



(** * Further properties of the scheduler *)

(** ** The completed processes are returned in the order of their ids *)

Lemma insert_by_sorted {A} (key : A → Z) x l :
  StronglySorted (λ a b, key a ≤ key b) l →
  StronglySorted (λ a b, key a ≤ key b) (insert_by key x l).
Proof.
  induction 1 as [|y l Hl IH Hy]; simpl.
  - repeat constructor.
  - destruct (Z.leb_spec (key x) (key y)) as [Hxy|Hxy].
    + constructor; [by constructor|]. constructor; [done|].
      eapply Forall_impl; [exact Hy|]. simpl. intros z Hz. lia.
    + constructor; [done|]. rewrite insert_by_perm. constructor; [lia|done].
Qed.

Lemma sorted_sorted {A} (key : A → Z) l :
  StronglySorted (λ a b, key a ≤ key b) (sorted key l).
Proof.
  induction l as [|x l IH]; simpl; [constructor|]. by apply insert_by_sorted.
Qed.

Lemma sorted_strict {A} (key : A → Z) l :
  StronglySorted (λ a b, key a ≤ key b) l → NoDup (key <$> l) →
  StronglySorted Z.lt (key <$> l).
Proof.
  induction 1 as [|x l Hl IH Hx]; simpl; [constructor|].
  intros [Hnx Hn]%NoDup_cons. constructor; [by apply IH|].
  apply Forall_forall. intros k (y & -> & Hy)%list_elem_of_fmap.
  eapply Forall_forall in Hx; [|exact Hy]. simpl in Hx.
  assert (key x ≠ key y); [|lia].
  intros Heq. apply Hnx. rewrite Heq. by apply list_elem_of_fmap_2.
Qed.

Lemma finish_sorted s h' r :
  finish s = (h', Return r) →
  StronglySorted (λ a b, p_id (h' !!! a) ≤ p_id (h' !!! b)) (completed_processes r).
Proof.
  unfold finish. destruct (completed s) as [|x l] eqn:Hc; intros [= <- <-];
    cbn [completed_processes empty_result].
  - constructor.
  - apply (sorted_sorted (λ p, p_id (sim_heap s !!! p)) (x :: l)).
Qed.

Lemma rr_finish_sorted n s h' r :
  rr_finish n s = (h', Return r) →
  StronglySorted (λ a b, p_id (h' !!! a) ≤ p_id (h' !!! b)) (completed_processes r).
Proof.
  unfold rr_finish. destruct (completed_processes_dict s) as [|x l] eqn:Hc;
    intros [= <- <-]; cbn [completed_processes empty_result].
  - constructor.
  - apply (sorted_sorted (λ p : ref, p_id (rr_heap s !!! p)) (dict_values (x :: l))).
Qed.

Lemma nonpreemptive_finish key fuel (h : heap) processes h' r :
  nonpreemptive key fuel h processes = Some (h', Return r) →
  ∃ s, finish s = (h', Return r).
Proof.
  unfold nonpreemptive. destruct (deepcopy h processes) as [h1 copies].
  destruct (while_loop _ _ _ _) as [[st [e|]]|]; [done| |done].
  intros [= H]. by exists (np_sim st).
Qed.

Lemma round_robin_finish fuel (h : heap) processes time_quantum h' r :
  round_robin fuel h processes time_quantum = Some (h', Return r) →
  ∃ n s, rr_finish n s = (h', Return r).
Proof.
  unfold round_robin. destruct (_ <=? 0); [done|].
  destruct (deepcopy h processes) as [h1 copies].
  destruct (while_loop _ _ _ _) as [[s [e|]]|]; [done| |done].
  intros [= H]. by eexists _, s.
Qed.

Lemma returns_at (run : nat → option (heap * outcome)) h' r :
  returns run h' r → ∃ fuel, run fuel = Some (h', Return r).
Proof. intros [fuel0 H]. exists fuel0. by apply H. Qed.

Lemma same_processes_ids (ins outs : list Process) :
  same_processes ins outs → p_id <$> outs ≡ₚ p_id <$> ins.
Proof.
  unfold same_processes. intros Hp.
  assert (∀ l : list Process,
            p_id <$> l = (λ t : Z * Z * Z * Z, t.1.1.1) <$> (static <$> l)) as Hs.
  { intros l. rewrite <- list_fmap_compose. done. }
  rewrite !Hs. by apply fmap_Permutation.
Qed.

Lemma sorted_by_id_intro (h : heap) processes h' r :
  valid_input h processes →
  same_processes (objects h processes) (objects h' (completed_processes r)) →
  StronglySorted (λ a b, p_id (h' !!! a) ≤ p_id (h' !!! b)) (completed_processes r) →
  sorted_by_id h' (completed_processes r).
Proof.
  intros (_ & _ & Hid) Hs Hsorted. unfold sorted_by_id, objects.
  rewrite <- list_fmap_compose. apply (sorted_strict (λ a, p_id (h' !!! a))); [done|].
  apply same_processes_ids in Hs. unfold objects in Hs.
  rewrite <- !list_fmap_compose in Hs. by rewrite Hs.
Qed.

(** X1.  On a valid input each of the four functions returns the
    processes in strictly ascending order of id, whatever the order of the
    input list and the order in which they completed. *)
Theorem X1_completed_sorted_by_id (h : heap) (processes : list ref) (time_quantum : Z) :
  valid_input h processes → 0 < time_quantum →
  every_algorithm h processes time_quantum (λ h' r,
    sorted_by_id h' (completed_processes r) ∧
    p_id <$> objects h' (completed_processes r) ≡ₚ p_id <$> objects h processes).
Proof.
  intros Hv HQ.
  destruct (every_algorithm_ok h processes time_quantum Hv HQ)
    as ((h1 & r1 & E1 & S1 & _) & (h2 & r2 & E2 & S2 & _) &
        (h3 & r3 & E3 & S3 & _) & (h4 & r4 & E4 & S4 & _)).
  split; [|split; [|split]].
  - exists h1, r1. split; [done|]. split; [|by apply same_processes_ids].
    apply (sorted_by_id_intro h processes); [done..|].
    unfold fcfs in E1. destruct (deepcopy h processes). by eapply finish_sorted.
  - exists h2, r2. split; [done|]. split; [|by apply same_processes_ids].
    apply (sorted_by_id_intro h processes); [done..|].
    destruct (returns_at _ _ _ E2) as [fuel H].
    apply nonpreemptive_finish in H as [s H]. by eapply finish_sorted.
  - exists h3, r3. split; [done|]. split; [|by apply same_processes_ids].
    apply (sorted_by_id_intro h processes); [done..|].
    destruct (returns_at _ _ _ E3) as [fuel H].
    apply nonpreemptive_finish in H as [s H]. by eapply finish_sorted.
  - exists h4, r4. split; [done|]. split; [|by apply same_processes_ids].
    apply (sorted_by_id_intro h processes); [done..|].
    destruct (returns_at _ _ _ E4) as [fuel H].
    apply round_robin_finish in H as (n & s & H). by eapply rr_finish_sorted.
Qed.

Lemma X1_witness :
  every_algorithm scenario_C (all_refs scenario_C) 2 (λ h' r,
    sorted_by_id h' (completed_processes r) ∧
    p_id <$> objects h' (completed_processes r)
    ≡ₚ p_id <$> objects scenario_C (all_refs scenario_C)).
Proof.
  apply (X1_completed_sorted_by_id scenario_C (all_refs scenario_C) 2).
  - exact scenario_C_valid.
  - lia.
Defined.

(** ** The clamp of calculate_metrics is not needed on a valid input *)

Lemma run_once_waited p : metrics_ok p → run_once p → waited_for_start p.
Proof.
  unfold metrics_ok, run_once, waited_for_start. intros [Ht Hw] [Ha Hc]. lia.
Qed.

Lemma ran_waited p : metrics_ok p → ran p → waited_unclamped p.
Proof.
  unfold metrics_ok, ran, waited_unclamped. intros [Ht Hw] [Ha Hc]. lia.
Qed.

Lemma Forall_waited_for_start l :
  Forall metrics_ok l → Forall run_once l → Forall waited_for_start l.
Proof.
  intros Hm Hr. apply Forall_forall. intros p Hp.
  apply run_once_waited; by eapply Forall_forall.
Qed.

(** X2.  On a valid input no waiting time is clamped: the turnaround time
    of every process returned is its waiting time plus its burst time.
    For [fcfs], [sjf] and [priority_scheduling] the waiting time is the
    time from arrival to start; for [round_robin] it is at least that. *)
Theorem X2_waiting_time_not_clamped (h : heap) (processes : list ref) (time_quantum : Z) :
  valid_input h processes → 0 < time_quantum →
  (∃ h' r, fcfs h processes = (h', Return r) ∧
     Forall waited_for_start (objects h' (completed_processes r))) ∧
  (∃ h' r, returns (λ fuel, sjf fuel h processes) h' r ∧
     Forall waited_for_start (objects h' (completed_processes r))) ∧
  (∃ h' r, returns (λ fuel, priority_scheduling fuel h processes) h' r ∧
     Forall waited_for_start (objects h' (completed_processes r))) ∧
  (∃ h' r, returns (λ fuel, round_robin fuel h processes time_quantum) h' r ∧
     Forall waited_unclamped (objects h' (completed_processes r))).
Proof.
  intros Hv HQ. split; [|split; [|split]].
  - destruct (fcfs_ok h processes Hv) as (h' & r & E & (_ & Hm & _) & Hr).
    exists h', r. split; [done|]. by apply Forall_waited_for_start.
  - destruct (nonpreemptive_ok burst_time h processes Hv)
      as (h' & r & E & (_ & Hm & _) & Hr).
    exists h', r. split; [done|]. by apply Forall_waited_for_start.
  - destruct (nonpreemptive_ok priority h processes Hv)
      as (h' & r & E & (_ & Hm & _) & Hr).
    exists h', r. split; [done|]. by apply Forall_waited_for_start.
  - destruct (round_robin_ok h processes time_quantum Hv HQ)
      as (h' & r & E & (_ & Hm & Hr & _)).
    exists h', r. split; [done|]. apply Forall_forall. intros p Hp.
    apply ran_waited; by eapply Forall_forall.
Qed.

Lemma X2_witness :
  (∃ h' r, fcfs scenario_B (all_refs scenario_B) = (h', Return r) ∧
     Forall waited_for_start (objects h' (completed_processes r))) ∧
  (∃ h' r, returns (λ fuel, sjf fuel scenario_B (all_refs scenario_B)) h' r ∧
     Forall waited_for_start (objects h' (completed_processes r))) ∧
  (∃ h' r, returns (λ fuel, priority_scheduling fuel scenario_B (all_refs scenario_B))
                   h' r ∧
     Forall waited_for_start (objects h' (completed_processes r))) ∧
  (∃ h' r, returns (λ fuel, round_robin fuel scenario_B (all_refs scenario_B) 3) h' r ∧
     Forall waited_unclamped (objects h' (completed_processes r))).
Proof.
  apply (X2_waiting_time_not_clamped scenario_B (all_refs scenario_B) 3).
  - exact scenario_B_valid.
  - lia.
Defined.

(** ** The totals and the runs of the non-preemptive loops *)

Lemma runs_snoc_idle chart a b : runs (chart ++ [(Idle, a, b)]) = runs chart.
Proof.
  unfold runs. rewrite filter_app, filter_cons_False, filter_nil, app_nil_r; [done|].
  intros H. by apply H.
Qed.

Lemma runs_snoc_pid chart i a b :
  runs (chart ++ [(Pid i, a, b)]) = runs chart ++ [(Pid i, a, b)].
Proof.
  unfold runs. rewrite filter_app, filter_cons_True; [|done]. by rewrite filter_nil.
Qed.

Lemma objects_insert_snoc (h : heap) l proc p :
  proc ∉ l → (proc < length h)%nat →
  objects (<[proc := p]> h) (l ++ [proc]) = objects h l ++ [p].
Proof.
  intros Hn Hlt. unfold objects. rewrite fmap_app. f_equal.
  - apply list_fmap_ext. intros i r Hr. apply list_lookup_total_insert_ne.
    intros ->. apply Hn. by eapply list_elem_of_lookup_2.
  - simpl. by rewrite list_lookup_total_insert_eq.
Qed.

Lemma sim_log_init h : sim_log (sim_init h).
Proof. by constructor. Qed.

Lemma sim_log_idle s t : sim_log s → sim_log (idle_until t s).
Proof.
  intros []. constructor; cbn [idle_until sim_heap completed gantt
    total_waiting_time total_turnaround_time]; [done|done|].
  by rewrite runs_snoc_idle.
Qed.

Lemma sim_log_run h1 PL s proc :
  valid_input h1 PL → sim_inv h1 PL true s → sim_log s →
  proc ∈ PL → proc ∉ completed s →
  arrival_time (h1 !!! proc) ≤ current_time s →
  sim_log (np_run proc s).
Proof.
  intros Hv Hs [Hw Ht Hr] Hin Hnc Harr.
  destruct (sim_inv_run h1 PL s proc Hv Hs Hin Hnc Harr) as [_ ->].
  destruct (valid_input_lookup _ _ _ Hv Hin) as [Hlt _].
  pose proof (inv_static _ _ _ _ Hs) as [Hlen _].
  constructor; cbn [sim_heap completed gantt total_waiting_time total_turnaround_time];
    rewrite objects_insert_snoc by (done || lia).
  - rewrite sumZ_snoc. by rewrite Hw.
  - rewrite sumZ_snoc. by rewrite Ht.
  - rewrite runs_snoc_pid, fmap_app, Hr. done.
Qed.

Lemma fcfs_body_log h1 PL s proc :
  valid_input h1 PL → sim_inv h1 PL false s → sim_log s →
  proc ∈ PL → proc ∉ completed s →
  sim_log (fcfs_body proc s).
Proof.
  intros Hv Hs Hl Hin Hnc.
  destruct (valid_input_lookup _ _ _ Hv Hin) as (Hlt & Hinit & _).
  pose proof (inv_fresh _ _ _ _ Hs proc Hin Hnc) as Hfresh.
  pose proof (inv_static _ _ _ _ Hs) as [Hlen _].
  rewrite fcfs_body_np_run; [|rewrite Hfresh; by rewrite Hinit|lia].
  rewrite Hfresh.
  destruct (Z.ltb_spec (current_time s) (arrival_time (h1 !!! proc))) as [Hlt'|Hge].
  - apply (sim_log_run h1 PL); [done| |by apply sim_log_idle|done|done|done].
    by apply sim_inv_idle.
  - apply (sim_log_run h1 PL); [done| |done|done|done|done].
    by apply sim_inv_weaken.
Qed.

Lemma fcfs_loop_log h1 PL process_queue : ∀ s,
  valid_input h1 PL → sim_inv h1 PL false s → sim_log s →
  completed s ++ process_queue = PL →
  sim_log (fcfs_loop process_queue s).
Proof.
  induction process_queue as [|proc q IH]; intros s Hv Hs Hl Hq; simpl; [done|].
  pose proof (valid_input_NoDup _ _ Hv) as Hnd. rewrite <- Hq in Hnd.
  apply NoDup_app in Hnd as (_ & Hdisj & _).
  assert (proc ∈ PL) as Hin.
  { rewrite <- Hq. apply elem_of_app. right. apply list_elem_of_here. }
  assert (proc ∉ completed s) as Hnc.
  { intros Hc. apply (Hdisj proc Hc). apply list_elem_of_here. }
  destruct (fcfs_body_inv h1 PL s proc) as [Hs' Hc']; try done.
  apply IH; [done|done| |].
  - by apply (fcfs_body_log h1 PL).
  - rewrite Hc', <- Hq. by rewrite <- (assoc_L (++)).
Qed.

Lemma np_body_log key h1 PL st :
  valid_input h1 PL → np_inv h1 PL st → sim_log (np_sim st) →
  np_cond (length PL) st = true →
  ∃ st', np_body key st = Next st' ∧ np_inv h1 PL st' ∧ sim_log (np_sim st') ∧
         (length (remaining_processes st') < length (remaining_processes st))%nat.
Proof.
  intros Hv Hst Hl Hc.
  destruct (np_body_step key h1 PL st Hv Hst Hc)
    as (s0 & proc & rem' & Hr & _ & Hrem & Hb & Hinv & Hs0 & Hc0 & Hin & Hnc & Harr & Hlt).
  exists (mkNp (np_run proc s0) rem'). split; [done|]. split; [done|]. split; [|done].
  cbn [np_sim]. apply (sim_log_run h1 PL); try done.
  destruct (np_ready_step h1 PL st Hv Hst) as (s0' & Hr' & _ & _ & _ & Hcase).
  { intros Hnil. by rewrite Hnil in Hrem. }
  rewrite Hr in Hr'. injection Hr' as -> _.
  destruct Hcase as [->|[-> _]]; [done|]. by apply sim_log_idle.
Qed.

Lemma np_loop_log key h1 PL :
  valid_input h1 PL →
  ∀ fuel, (length PL ≤ fuel)%nat →
    ∃ st, while_loop fuel (np_cond (length PL)) (np_body key)
            (mkNp (sim_init h1) PL) = Some (st, None) ∧
          np_inv h1 PL st ∧ completed (np_sim st) ≡ₚ PL ∧ sim_log (np_sim st).
Proof.
  intros Hv fuel Hfuel.
  destruct (while_loop_total (λ st, np_inv h1 PL st ∧ sim_log (np_sim st))
              (λ st, length (remaining_processes st))
              (np_cond (length PL)) (np_body key)) with (fuel := fuel)
              (s := mkNp (sim_init h1) PL) as (st & Hw & [Hst Hl] & Hc).
  - intros st [Hst Hl] Hc.
    destruct (np_body_log key h1 PL st Hv Hst Hl Hc) as (st' & Hb & ? & ? & ?).
    by exists st'.
  - split; [|apply sim_log_init]. split; [apply sim_inv_init|done].
  - done.
  - destruct (np_loop_total key h1 PL Hv fuel Hfuel) as (st' & Hw' & _ & Hp).
    rewrite Hw in Hw'. injection Hw' as <-. by exists st.
Qed.

Lemma objects_perm (h : heap) l k : l ≡ₚ k → objects h l ≡ₚ objects h k.
Proof. intros H. unfold objects. by apply fmap_Permutation. Qed.

Lemma finish_log s :
  completed s ≠ [] → sim_log s →
  ∃ r, finish s = (sim_heap s, Return r) ∧
       averages_are_means (sim_heap s) r ∧ one_run_each (sim_heap s) r.
Proof.
  intros Hne [Hw Ht Hr]. eexists. split; [by apply finish_spec|].
  set (L := sorted (λ p, p_id (sim_heap s !!! p)) (completed s)).
  assert (objects (sim_heap s) L ≡ₚ objects (sim_heap s) (completed s)) as Hp.
  { apply objects_perm, sorted_perm. }
  unfold averages_are_means, one_run_each.
  cbn [avg_waiting_time avg_turnaround_time gantt_chart completed_processes].
  fold L. rewrite (sumZ_perm _ _ _ Hp), (sumZ_perm _ _ _ Hp), Hp, Hr.
  rewrite Hw, Ht. unfold objects. by rewrite !length_fmap.
Qed.

Lemma fcfs_log (h : heap) processes :
  valid_input h processes →
  ∃ h' r, fcfs h processes = (h', Return r) ∧
          averages_are_means h' r ∧ one_run_each h' r.
Proof.
  intros Hv. destruct (start_valid h processes Hv) as (h1 & copies & Hd & Hv1 & _).
  unfold fcfs. rewrite Hd.
  set (PL := sorted (λ p, arrival_time (h1 !!! p)) copies) in *.
  destruct (fcfs_loop_inv h1 PL PL (sim_init h1) Hv1 (sim_inv_init _ _) eq_refl)
    as [Hs Hc].
  pose proof (fcfs_loop_log h1 PL PL (sim_init h1) Hv1 (sim_inv_init _ _)
                (sim_log_init _) eq_refl) as Hl.
  destruct (finish_log (fcfs_loop PL (sim_init h1))) as (r & Hf & Ha & Ho); [|done|].
  { rewrite Hc. by destruct Hv1. }
  by exists (sim_heap (fcfs_loop PL (sim_init h1))), r.
Qed.

Lemma nonpreemptive_log key (h : heap) processes :
  valid_input h processes →
  ∃ h' r, returns (λ fuel, nonpreemptive key fuel h processes) h' r ∧
          averages_are_means h' r ∧ one_run_each h' r.
Proof.
  intros Hv. destruct (start_valid h processes Hv) as (h1 & copies & Hd & Hv1 & _).
  set (PL := sorted (λ p, arrival_time (h1 !!! p)) copies) in *.
  destruct (np_loop_log key h1 PL Hv1 (length PL)) as (st & Hw & _ & Hc & Hl); [done|].
  destruct (finish_log (np_sim st)) as (r & Hf & Ha & Ho); [|done|].
  { intros Hnil. rewrite Hnil in Hc. apply Permutation_nil_l in Hc.
    destruct Hv1 as [Hne _]. by apply Hne. }
  exists (sim_heap (np_sim st)), r. split; [|done].
  exists (length PL). intros fuel Hfuel.
  unfold nonpreemptive. rewrite Hd. fold PL.
  rewrite (while_loop_mono _ _ _ _ _ _ Hw Hfuel). by rewrite Hf.
Qed.

(** ** The totals of the loop of round robin *)

(** One iteration of the loop of [round_robin]: the arrivals join the
    ready queue, which gives the state [s1]; then an idle gap, when the
    queue is empty, or the dispatch of its first process. *)
Lemma rr_body_cases h1 PL time_quantum s :
  valid_input h1 PL → 0 < time_quantum →
  rr_inv h1 PL time_quantum s →
  rr_cond (length PL) s = true →
  ∃ k,
    (k ≤ length (drop (process_idx s) PL))%nat ∧
    let s1 := rr_with_queue s (ready_queue s ++ take k (drop (process_idx s) PL))
                            (process_idx s + k) in
    rr_inv h1 PL time_quantum s1 ∧ rr_cond (length PL) s1 = true ∧
    ((ready_queue s1 = [] ∧
      ∃ t, rr_time s1 < t ∧ rr_body PL time_quantum s = rr_idle t s1 ∧
           ∃ r0, head (drop (process_idx s1) PL) = Some r0 ∧
                 t = arrival_time (h1 !!! r0)) ∨
     (∃ proc queue chart queue' idx',
        ready_queue s1 = proc :: queue ∧
        rr_chart (p_id (rr_heap s1 !!! proc)) (rr_time s1)
          (rr_time s1 + Z.min time_quantum (remaining_burst_time (rr_heap s1 !!! proc)))
          s1 = Some chart ∧
        rr_body PL time_quantum s
        = Next (rr_with_queue (rr_dispatch time_quantum proc queue chart s1)
                              queue' idx') ∧
        ∃ k', (k' ≤ length (drop (process_idx s1) PL))%nat ∧
              idx' = (process_idx s1 + k')%nat ∧
              queue' = queue ++ take k' (drop (process_idx s1) PL)
                       ++ (if remaining_burst_time
                                (dispatched time_quantum (rr_time s1)
                                            (rr_heap s1 !!! proc)) =? 0
                           then [] else [proc]))).
Proof.
  intros Hv HQ Hs Hc.
  pose proof (valid_input_NoDup _ _ Hv) as HndPL.
  set (U := drop (process_idx s) PL).
  destruct (enqueue_arrivals_spec h1 (rr_heap s) (rr_time s) U
              (ready_queue s) (process_idx s)) as (k & Hadm & Hk & Harr & Hnext).
  { intros r Hr. split; [by apply (rr_fresh _ _ _ _ Hs)|].
    apply drop_elem_of in Hr. by apply (valid_input_lookup _ _ _ Hv Hr). }
  destruct (rr_inv_arrivals h1 PL time_quantum s (ready_queue s) [] k Hv HQ Hs)
    as [Hs1 Hw1]; [by rewrite app_nil_r|done|done|].
  fold U in Hs1, Hw1. rewrite app_nil_r in Hs1, Hw1.
  exists k. fold U. split; [exact Hk|].
  set (s1 := rr_with_queue s (ready_queue s ++ take k U) (process_idx s + k)) in *.
  cbv zeta.
  assert (rr_cond (length PL) s1 = true) as Hc1 by done.
  split; [done|]. split; [done|].
  unfold rr_body. fold U. rewrite Hadm.
  change (mkRR (rr_heap s) (completed_processes_dict s) (rr_gantt s) (rr_time s)
               (rr_total_waiting_time s) (rr_total_turnaround_time s)
               (ready_queue s ++ take k U) (process_idx s + k)
               (last_gantt_entry s)) with s1.
  assert (drop (process_idx s1) PL = drop k U) as HU1.
  { unfold s1, rr_with_queue, U. cbn [process_idx]. by rewrite drop_drop. }
  assert (ready_queue s1 = ready_queue s ++ take k U) as Hrq by done.
  destruct (ready_queue s ++ take k U) as [|proc queue] eqn:Hq1.
  - left. split; [done|].
    apply app_eq_nil in Hq1 as [Hq0 Htk].
    assert (process_idx s + k < length PL)%nat as Hidx.
    { destruct (decide (process_idx s + k < length PL)%nat) as [|Hge]; [done|].
      exfalso. pose proof (rr_perm _ _ _ _ Hs1) as Hp.
      rewrite Hrq in Hp. unfold s1, rr_with_queue in Hp.
      cbn [completed_processes_dict process_idx] in Hp.
      rewrite app_nil_r in Hp.
      rewrite take_ge in Hp by lia. apply Permutation_length in Hp.
      unfold rr_cond in Hc. apply Nat.ltb_lt in Hc.
      rewrite (rr_dict _ _ _ _ Hs), length_fmap in Hc. lia. }
    destruct (Nat.ltb_spec (process_idx s + k) (length PL)) as [_|]; [|lia].
    destruct (lookup_lt_is_Some_2 PL (process_idx s + k) Hidx) as [r Hr].
    rewrite (list_lookup_total_correct _ _ _ Hr).
    assert (head (drop k U) = Some r) as Hhead.
    { rewrite head_lookup. unfold U. by rewrite lookup_drop, lookup_drop, Nat.add_0_r. }
    assert (k = 0%nat) as Hk0.
    { destruct k as [|k]; [done|]. destruct U as [|u U']; [|done].
      by rewrite drop_nil in Hhead. }
    assert (rr_heap s !!! r = h1 !!! r) as Hfr.
    { apply (rr_fresh _ _ _ _ Hs). fold U. apply head_elem_of.
      by rewrite Hk0, drop_0 in Hhead. }
    rewrite Hfr. specialize (Hnext r Hhead).
    exists (arrival_time (h1 !!! r)). split; [done|]. split.
    + destruct (Z.ltb_spec (rr_time s1) (arrival_time (h1 !!! r))) as [_|Hge]; [done|].
      unfold s1, rr_with_queue in Hge. cbn [rr_time] in Hge. lia.
    + exists r. by rewrite HU1.
  - right.
    destruct (rr_inv_dispatch h1 PL time_quantum s1 proc queue Hv HQ Hs1 Hrq Hc1)
      as (chart & Hchart & Hs2 & Hw2 & Ht2 & Hi2 & Hq2 & Hlt).
    destruct (rr_run_spec h1 PL time_quantum proc queue s1 chart Hlt Hchart)
      as (k' & Hrun & Hk' & _).
    { intros r Hr. split; [|split].
      - intros ->. eapply (NoDup_take_drop_disjoint PL); [done| |exact Hr].
        rewrite <- (rr_perm _ _ _ _ Hs1), Hrq. apply elem_of_app. right.
        apply list_elem_of_here.
      - by apply (rr_fresh _ _ _ _ Hs1).
      - apply drop_elem_of in Hr. by apply (valid_input_lookup _ _ _ Hv Hr). }
    eexists proc, queue, chart, _, _. split; [done|]. split; [exact Hchart|].
    split; [exact Hrun|]. by exists k'.
Qed.

Lemma rr_idle_fields t s s' :
  rr_idle t s = Next s' →
  rr_heap s' = rr_heap s ∧
  completed_processes_dict s' = completed_processes_dict s ∧
  rr_total_waiting_time s' = rr_total_waiting_time s ∧
  rr_total_turnaround_time s' = rr_total_turnaround_time s ∧
  ready_queue s' = ready_queue s ∧ process_idx s' = process_idx s ∧
  rr_time s' = t.
Proof.
  unfold rr_idle. destruct (last_gantt_entry s) as [[[occ first] e]|].
  - destruct occ; simpl.
    + destruct (set_last _ _); [|done]. by intros [= <-].
    + by intros [= <-].
  - by intros [= <-].
Qed.




Lemma rr_finish_spec n s :
  completed_processes_dict s ≠ [] →
  rr_finish n s =
    (rr_heap s,
     Return (mkResult (rr_gantt s)
               (average (rr_total_waiting_time s) n)
               (average (rr_total_turnaround_time s) n)
               (sorted (λ p, p_id (rr_heap s !!! p))
                       (dict_values (completed_processes_dict s))))).
Proof. unfold rr_finish. by destruct (completed_processes_dict s). Qed.





(** X4.  On a valid input the timeline of [fcfs], [sjf] and
    [priority_scheduling] has, idle gaps apart, exactly one entry for each
    process returned, and that entry runs from the start time of the
    process to its completion time: no process is split or run twice. *)
Theorem X4_one_run_per_process (h : heap) (processes : list ref) :
  valid_input h processes →
  (∃ h' r, fcfs h processes = (h', Return r) ∧ one_run_each h' r) ∧
  (∃ h' r, returns (λ fuel, sjf fuel h processes) h' r ∧ one_run_each h' r) ∧
  (∃ h' r, returns (λ fuel, priority_scheduling fuel h processes) h' r ∧
           one_run_each h' r).
Proof.
  intros Hv. split; [|split].
  - destruct (fcfs_log h processes Hv) as (h' & r & ? & _ & ?). by exists h', r.
  - destruct (nonpreemptive_log burst_time h processes Hv) as (h' & r & ? & _ & ?).
    by exists h', r.
  - destruct (nonpreemptive_log priority h processes Hv) as (h' & r & ? & _ & ?).
    by exists h', r.
Qed.

Lemma X4_witness :
  (∃ h' r, fcfs scenario_C (all_refs scenario_C) = (h', Return r) ∧ one_run_each h' r) ∧
  (∃ h' r, returns (λ fuel, sjf fuel scenario_C (all_refs scenario_C)) h' r ∧
           one_run_each h' r) ∧
  (∃ h' r, returns (λ fuel, priority_scheduling fuel scenario_C (all_refs scenario_C))
                   h' r ∧
           one_run_each h' r).
Proof.
  apply (X4_one_run_per_process scenario_C (all_refs scenario_C)).
  exact scenario_C_valid.
Defined.

(** ** The processor time of each process *)

Lemma cpu_time_snoc id chart e :
  cpu_time id (chart ++ [e])
  = cpu_time id chart + (if decide (occupant_of e = Pid id) then busy e else 0).
Proof.
  unfold cpu_time, entries_of. rewrite filter_app, sumZ_app. f_equal.
  destruct (decide (occupant_of e = Pid id)) as [He|He].
  - rewrite filter_cons_True by done. rewrite filter_nil. unfold sumZ. simpl. lia.
  - rewrite filter_cons_False by done. by rewrite filter_nil.
Qed.

Lemma cpu_time_snoc_idle id chart a b : cpu_time id (chart ++ [(Idle, a, b)]) = cpu_time id chart.
Proof. rewrite cpu_time_snoc. simpl. lia. Qed.

Lemma cpu_time_snoc_pid id chart i a b :
  cpu_time id (chart ++ [(Pid i, a, b)])
  = cpu_time id chart + (if decide (i = id) then b - a else 0).
Proof.
  rewrite cpu_time_snoc.
  destruct (decide (occupant_of (Pid i, a, b) = Pid id)) as [H|H];
    destruct (decide (i = id)) as [Hi|Hi]; unfold occupant_of in H; simpl in H.
  - done.
  - by injection H.
  - by subst i.
  - done.
Qed.

Lemma last_snoc_inv {A} (l : list A) x :
  last l = Some x → l = removelast l ++ [x].
Proof.
  intros Hl. destruct (last_Some l x) as [[l' ->] _]; [done|].
  by rewrite removelast_last.
Qed.

Lemma set_last_shape {A} (x y : A) l chart :
  set_last x l = Some chart → last l = Some y →
  ∃ init, l = init ++ [y] ∧ chart = init ++ [x].
Proof.
  intros Hs Hl. exists (removelast l). split; [by apply last_snoc_inv|].
  unfold set_last in Hs. destruct l; [done|]. by injection Hs as <-.
Qed.

Lemma rr_idle_cpu_time id t s s' :
  rr_idle t s = Next s' → rr_last_ok s →
  cpu_time id (rr_gantt s') = cpu_time id (rr_gantt s).
Proof.
  unfold rr_idle, rr_last_ok. intros Hi Hl.
  destruct (last_gantt_entry s) as [[[occ first] e]|].
  - destruct occ; simpl in Hi.
    + destruct (set_last _ _) as [chart|] eqn:Hs; [|done].
      injection Hi as <-. cbn [rr_gantt].
      destruct (set_last_shape _ _ _ _ Hs (eq_sym Hl)) as (init & -> & ->).
      by rewrite !cpu_time_snoc_idle.
    + injection Hi as <-. cbn [rr_gantt]. by rewrite cpu_time_snoc_idle.
  - injection Hi as <-. cbn [rr_gantt]. by rewrite cpu_time_snoc_idle.
Qed.

Lemma rr_chart_cpu_time id id0 t t' s chart :
  rr_chart id0 t t' s = Some chart → rr_last_ok s →
  (∀ e, last (rr_gantt s) = Some e → entry_end e = t) →
  cpu_time id chart
  = cpu_time id (rr_gantt s) + (if decide (id0 = id) then t' - t else 0).
Proof.
  intros Hc Hl He.
  destruct (rr_chart_shape _ _ _ _ _ Hc Hl He) as [->|(init & first & -> & ->)].
  - by rewrite cpu_time_snoc_pid.
  - rewrite !cpu_time_snoc_pid. destruct (decide (id0 = id)); lia.
Qed.

Lemma rr_each_init h1 PL : valid_input h1 PL → rr_each h1 PL (rr_init h1).
Proof.
  intros Hv r Hr. cbn [rr_init rr_gantt rr_heap].
  destruct (valid_input_lookup _ _ _ Hv Hr) as (_ & Hinit & _).
  rewrite Hinit at 3. unfold cpu_time, entries_of, sumZ. simpl. lia.
Qed.

Lemma rr_body_each h1 PL time_quantum s :
  valid_input h1 PL → 0 < time_quantum →
  rr_inv h1 PL time_quantum s → rr_each h1 PL s →
  rr_cond (length PL) s = true →
  ∃ s', rr_body PL time_quantum s = Next s' ∧
        rr_inv h1 PL time_quantum s' ∧ rr_each h1 PL s' ∧
        (rr_measure h1 PL s' < rr_measure h1 PL s)%nat.
Proof.
  intros Hv HQ Hs He Hc.
  destruct (rr_body_step h1 PL time_quantum s Hv HQ Hs Hc) as (s' & Hb & Hs' & Hm & _).
  exists s'. split; [done|]. split; [done|]. split; [|done].
  destruct (rr_body_cases h1 PL time_quantum s Hv HQ Hs Hc)
    as (k & _ & Hs1 & Hc1 & Hcase).
  set (s1 := rr_with_queue s (ready_queue s ++ take k (drop (process_idx s) PL))
                           (process_idx s + k)) in *.
  assert (rr_each h1 PL s1) as He1 by done.
  destruct Hcase as [(_ & t & _ & Hidle & _)|(proc & queue & chart & q' & i' & Hq & Hch & Hrun & _)].
  - rewrite Hb in Hidle. symmetry in Hidle.
    destruct (rr_idle_fields _ _ _ Hidle) as (Hh & _).
    intros r Hr. rewrite Hh, (rr_idle_cpu_time _ _ _ _ Hidle (rr_lastok _ _ _ _ Hs1)).
    by apply He1.
  - rewrite Hb in Hrun. injection Hrun as ->.
    destruct (rr_dispatch_fields time_quantum proc queue chart s1) as [Hh Hg].
    assert (proc ∈ PL) as Hin.
    { apply (take_elem_of _ (process_idx s1)). rewrite <- (rr_perm _ _ _ _ Hs1), Hq.
      apply elem_of_app. right. apply list_elem_of_here. }
    destruct (valid_input_lookup _ _ _ Hv Hin) as [Hlt Hvp].
    pose proof (rr_static _ _ _ _ Hs1) as [Hlen Hst].
    destruct (static_field_eqs _ _ (Hst proc)) as (Hid & Harr & _).
    destruct (dispatched_spec time_quantum (rr_time s1) (h1 !!! proc)
                (rr_heap s1 !!! proc) HQ (rr_time_nonneg _ _ _ _ Hs1) Hvp (Hst proc))
      as (_ & Hrem & _).
    { rewrite Harr. apply (rr_arrived _ _ _ _ Hs1).
      rewrite <- (rr_perm _ _ _ _ Hs1), Hq. apply elem_of_app. right.
      apply list_elem_of_here. }
    { apply (rr_queued _ _ _ _ Hs1). rewrite Hq. apply list_elem_of_here. }
    intros r Hr. unfold rr_with_queue. cbn [rr_gantt rr_heap]. rewrite Hh, Hg.
    rewrite (rr_chart_cpu_time _ _ _ _ _ _ Hch (rr_lastok _ _ _ _ Hs1)).
    2:{ destruct (rr_chart_ok _ _ _ _ Hs1) as (_ & _ & _ & Hlast & _). exact Hlast. }
    rewrite (He1 r Hr), Hid.
    destruct (decide (r = proc)) as [->|Hne].
    + rewrite decide_True by done.
      rewrite list_lookup_total_insert_eq by lia. rewrite Hrem. lia.
    + rewrite decide_False.
      * rewrite list_lookup_total_insert_ne by done. lia.
      * intros Heq. apply Hne. symmetry. by eapply valid_input_ids.
Qed.

Lemma rr_loop_each h1 PL time_quantum :
  valid_input h1 PL → 0 < time_quantum →
  ∀ fuel, (rr_measure h1 PL (rr_init h1) ≤ fuel)%nat →
    ∃ s, while_loop fuel (rr_cond (length PL)) (rr_body PL time_quantum) (rr_init h1)
         = Some (s, None) ∧
         rr_inv h1 PL time_quantum s ∧ rr_cond (length PL) s = false ∧
         rr_each h1 PL s.
Proof.
  intros Hv HQ fuel Hfuel.
  destruct (while_loop_total (λ s, rr_inv h1 PL time_quantum s ∧ rr_each h1 PL s)
              (rr_measure h1 PL)
              (rr_cond (length PL)) (rr_body PL time_quantum)) with (fuel := fuel)
              (s := rr_init h1) as (s & Hw & [Hs Hl] & Hc).
  - intros s [Hs Hl] Hc.
    destruct (rr_body_each h1 PL time_quantum s Hv HQ Hs Hl Hc) as (s' & ? & ? & ? & ?).
    by exists s'.
  - split; [|by apply rr_each_init]. apply rr_inv_init. by destruct Hv.
  - done.
  - by exists s.
Qed.

Lemma returns_fun (run : nat → option (heap * outcome)) h1 r1 h2 r2 :
  returns run h1 r1 → returns run h2 r2 → h1 = h2 ∧ r1 = r2.
Proof.
  intros [f1 H1] [f2 H2].
  specialize (H1 (Nat.max f1 f2) (Nat.le_max_l _ _)).
  specialize (H2 (Nat.max f1 f2) (Nat.le_max_r _ _)).
  rewrite H1 in H2. by injection H2.
Qed.

Lemma cpu_time_sum id chart :
  cpu_time id chart
  = sumZ (λ e, if decide (occupant_of e = Pid id) then busy e else 0) chart.
Proof.
  induction chart as [|e chart IH] using rev_ind; [done|].
  by rewrite cpu_time_snoc, sumZ_snoc, IH.
Qed.

Lemma sumZ_runs (f : gantt_entry → Z) chart :
  (∀ e, occupant_of e = Idle → f e = 0) → sumZ f (runs chart) = sumZ f chart.
Proof.
  intros Hf. induction chart as [|e chart IH] using rev_ind; [done|].
  unfold runs in *. rewrite filter_app, !sumZ_app, IH. f_equal.
  destruct (decide (occupant_of e = Idle)) as [He|He].
  - rewrite filter_cons_False by (intros H; by apply H).
    rewrite filter_nil. unfold sumZ. simpl. rewrite (Hf e He). lia.
  - rewrite filter_cons_True by done. by rewrite filter_nil.
Qed.

Lemma sumZ_single {A} (key f : A → Z) l p :
  NoDup (key <$> l) → p ∈ l →
  sumZ (λ q, if decide (key q = key p) then f q else 0) l = f p.
Proof.
  induction l as [|a l IH]; intros Hn Hp; [by apply elem_of_nil in Hp|].
  rewrite fmap_cons in Hn. apply NoDup_cons in Hn as [Hna Hn].
  change (a :: l) with ([a] ++ l). rewrite sumZ_app. unfold sumZ at 1. simpl.
  apply elem_of_cons in Hp as [->|Hp].
  - rewrite decide_True by done.
    assert (sumZ (λ q, if decide (key q = key a) then f q else 0) l = 0) as ->; [|lia].
    rewrite <- (sumZ_ext (λ _, 0)).
    + clear. unfold sumZ. induction l; simpl; lia.
    + intros x Hx. rewrite decide_False; [done|].
      intros Heq. apply Hna. rewrite <- Heq. by apply list_elem_of_fmap_2.
  - rewrite decide_False.
    + rewrite IH by done. lia.
    + intros Heq. apply Hna. rewrite Heq. by apply list_elem_of_fmap_2.
Qed.

Lemma one_run_burst_served (h : heap) processes h' r :
  valid_input h processes →
  same_processes (objects h processes) (objects h' (completed_processes r)) →
  Forall run_once (objects h' (completed_processes r)) →
  one_run_each h' r → burst_served h' r.
Proof.
  intros Hv Hsame Hro Hone. unfold burst_served. apply Forall_forall. intros p Hp.
  set (procs := objects h' (completed_processes r)) in *.
  assert (NoDup (p_id <$> procs)) as Hnd.
  { rewrite (same_processes_ids _ _ Hsame). destruct Hv as (_ & _ & Hid).
    unfold objects. by rewrite <- list_fmap_compose. }
  rewrite cpu_time_sum, <- sumZ_runs.
  2:{ intros e He. rewrite decide_False; [done|]. by rewrite He. }
  rewrite (sumZ_perm _ _ _ Hone), sumZ_fmap.
  rewrite (sumZ_ext _ (λ q, if decide (p_id q = p_id p)
                            then completion_time q - start_time q else 0)).
  - rewrite (sumZ_single p_id (λ q, completion_time q - start_time q)) by done.
    eapply Forall_forall in Hro; [|exact Hp]. destruct Hro as [_ Hc]. lia.
  - intros q _. unfold compose, run_entry, occupant_of, busy, occupant_of,
      entry_end, entry_start. simpl.
    destruct (decide (Pid (p_id q) = Pid (p_id p))) as [H|H];
      destruct (decide (p_id q = p_id p)) as [Hi|Hi]; try done.
    + by injection H.
    + by rewrite Hi in H.
Qed.

Lemma rr_finish_each h1 PL time_quantum s :
  valid_input h1 PL →
  rr_inv h1 PL time_quantum s → rr_each h1 PL s →
  completed_processes_dict s ≠ [] →
  ∃ r, rr_finish (length PL) s = (rr_heap s, Return r) ∧ burst_served (rr_heap s) r.
Proof.
  intros Hv Hs He Hne. eexists. split; [by apply rr_finish_spec|].
  unfold burst_served. cbn [completed_processes gantt_chart].
  apply Forall_forall. intros p (x & -> & Hx)%objects_elem.
  rewrite sorted_perm in Hx.
  assert (x ∈ PL) as Hin.
  { apply (take_elem_of _ (process_idx s)). rewrite <- (rr_perm _ _ _ _ Hs).
    apply elem_of_app. by left. }
  destruct (rr_done _ _ _ _ Hs x Hx) as (_ & _ & _ & Hrem).
  pose proof (rr_static _ _ _ _ Hs) as [_ Hst].
  destruct (static_field_eqs _ _ (Hst x)) as (-> & _ & -> & _).
  rewrite (He x Hin), Hrem. lia.
Qed.

Lemma round_robin_burst_served (h : heap) processes time_quantum :
  valid_input h processes → 0 < time_quantum →
  ∃ h' r, returns (λ fuel, round_robin fuel h processes time_quantum) h' r ∧
          burst_served h' r.
Proof.
  intros Hv HQ. destruct (start_valid h processes Hv) as (h1 & copies & Hd & Hv1 & _).
  set (PL := sorted (λ p, arrival_time (h1 !!! p)) copies) in *.
  destruct (rr_loop_each h1 PL time_quantum Hv1 HQ _ (Nat.le_refl _))
    as (s & Hw & Hs & Hc & Hl).
  destruct (rr_finish_each h1 PL time_quantum s Hv1 Hs Hl) as (r & Hf & Ha).
  { intros Hnil. unfold rr_cond in Hc. rewrite Hnil in Hc. simpl in Hc.
    apply Nat.ltb_ge in Hc. destruct Hv1 as [Hne _]. destruct PL; [done|].
    simpl in Hc. lia. }
  exists (rr_heap s), r. split; [|done].
  exists (rr_measure h1 PL (rr_init h1)). intros fuel Hfuel. unfold round_robin.
  destruct (Z.leb_spec time_quantum 0) as [|_]; [lia|].
  rewrite Hd. fold PL. rewrite (while_loop_mono _ _ _ _ _ _ Hw Hfuel).
  by rewrite Hf.
Qed.

Lemma nonpreemptive_burst_served key (h : heap) processes :
  valid_input h processes →
  ∃ h' r, returns (λ fuel, nonpreemptive key fuel h processes) h' r ∧
          burst_served h' r.
Proof.
  intros Hv.
  destruct (nonpreemptive_ok key h processes Hv) as (h' & r & E & (Hs & _) & Hro).
  destruct (nonpreemptive_log key h processes Hv) as (h2 & r2 & E2 & _ & Hone).
  destruct (returns_fun _ _ _ _ _ E E2) as [<- <-].
  exists h', r. split; [done|]. by apply (one_run_burst_served h processes).
Qed.

(** X5.  On a valid input the timeline each function returns gives every
    process exactly its burst time: the lengths of the entries of a
    process add up to its [burst_time], in one entry for the
    non-preemptive functions and over all its slices for [round_robin]. *)
Theorem X5_timeline_serves_each_burst (h : heap) (processes : list ref)
    (time_quantum : Z) :
  valid_input h processes → 0 < time_quantum →
  every_algorithm h processes time_quantum burst_served.
Proof.
  intros Hv HQ. split; [|split; [|split]].
  - destruct (fcfs_ok h processes Hv) as (h' & r & E & (Hs & _) & Hro).
    destruct (fcfs_log h processes Hv) as (h2 & r2 & E2 & _ & Hone).
    rewrite E in E2. injection E2 as <- <-.
    exists h', r. split; [done|]. by apply (one_run_burst_served h processes).
  - by apply nonpreemptive_burst_served.
  - by apply nonpreemptive_burst_served.
  - by apply round_robin_burst_served.
Qed.

Lemma X5_witness :
  every_algorithm scenario_B (all_refs scenario_B) 3 burst_served.
Proof.
  apply (X5_timeline_serves_each_burst scenario_B (all_refs scenario_B) 3).
  - exact scenario_B_valid.
  - lia.
Defined.

(** ** sjf and priority_scheduling on any input *)







(** ** The schedule of fcfs *)

Lemma fcfs_chain_snoc t l p :
  fcfs_chain t l →
  start_time p = Z.max (chain_end t l) (arrival_time p) →
  completion_time p = start_time p + burst_time p →
  fcfs_chain t (l ++ [p]).
Proof.
  revert t. induction l as [|q l IH]; intros t; simpl.
  - by intros _ ? ?.
  - intros (Hs & Hc & Hl) Hp Hcp. split; [done|]. split; [done|].
    apply IH; [done| |done]. rewrite Hp. f_equal.
    unfold chain_end. destruct l as [|q' l]; [done|].
    change (last (q :: q' :: l)) with (last (q' :: l)).
    by destruct (last (q' :: l)) eqn:Hlast; [|by apply last_None in Hlast].
Qed.

Lemma chain_end_snoc t l p : chain_end t (l ++ [p]) = completion_time p.
Proof. unfold chain_end. by rewrite last_snoc. Qed.

Lemma fcfs_body_chained h1 PL s proc :
  valid_input h1 PL → sim_inv h1 PL false s → fcfs_chained s →
  proc ∈ PL → proc ∉ completed s →
  fcfs_chained (fcfs_body proc s).
Proof.
  intros Hv Hs [Hch Hend] Hin Hnc.
  destruct (valid_input_lookup _ _ _ Hv Hin) as (Hlt & Hinit & _).
  pose proof (inv_fresh _ _ _ _ Hs proc Hin Hnc) as Hfresh.
  pose proof (inv_static _ _ _ _ Hs) as [Hlen _].
  rewrite fcfs_body_np_run; [|rewrite Hfresh; by rewrite Hinit|lia].
  rewrite Hfresh.
  set (s0 := if current_time s <? arrival_time (h1 !!! proc)
             then idle_until (arrival_time (h1 !!! proc)) s else s).
  assert (sim_inv h1 PL true s0 ∧ sim_heap s0 = sim_heap s ∧
          completed s0 = completed s ∧
          current_time s0 = Z.max (current_time s) (arrival_time (h1 !!! proc)))
    as (Hs0 & Hh0 & Hc0 & Ht0).
  { unfold s0.
    destruct (Z.ltb_spec (current_time s) (arrival_time (h1 !!! proc))) as [Hlt'|Hge].
    - split; [by apply sim_inv_idle|]. cbn [idle_until sim_heap completed current_time].
      split; [done|]. split; [done|]. lia.
    - split; [by apply sim_inv_weaken|]. split; [done|]. split; [done|]. lia. }
  destruct (sim_inv_run h1 PL s0 proc Hv Hs0 Hin) as [_ ->]; [by rewrite Hc0|lia|].
  unfold fcfs_chained. cbn [sim_heap completed current_time].
  rewrite Hh0, Hc0, objects_insert_snoc by (done || lia).
  split.
  - apply fcfs_chain_snoc; [done| |done]. cbn [finished start_time arrival_time].
    by rewrite Hend, Ht0.
  - by rewrite chain_end_snoc.
Qed.

Lemma fcfs_loop_chained h1 PL process_queue : ∀ s,
  valid_input h1 PL → sim_inv h1 PL false s → fcfs_chained s →
  completed s ++ process_queue = PL →
  fcfs_chained (fcfs_loop process_queue s).
Proof.
  induction process_queue as [|proc q IH]; intros s Hv Hs Hl Hq; simpl; [done|].
  pose proof (valid_input_NoDup _ _ Hv) as Hnd. rewrite <- Hq in Hnd.
  apply NoDup_app in Hnd as (_ & Hdisj & _).
  assert (proc ∈ PL) as Hin.
  { rewrite <- Hq. apply elem_of_app. right. apply list_elem_of_here. }
  assert (proc ∉ completed s) as Hnc.
  { intros Hc. apply (Hdisj proc Hc). apply list_elem_of_here. }
  destruct (fcfs_body_inv h1 PL s proc) as [Hs' Hc']; try done.
  apply IH; [done|done| |].
  - by apply (fcfs_body_chained h1 PL).
  - rewrite Hc', <- Hq. by rewrite <- (assoc_L (++)).
Qed.

(** X7.  On a valid input [fcfs] serves the processes first come, first
    served: in the order of their arrival times, which is the order of
    their entries in the timeline, the first process starts at its arrival
    time or at 0, whichever is later, and every other process starts when
    it has arrived and the process before it has completed, whichever is
    later; each runs for its burst time from then. *)
Theorem X7_fcfs_first_come_first_served (h : heap) (processes : list ref) :
  valid_input h processes →
  ∃ h' r order, fcfs h processes = (h', Return r) ∧
                first_come_first_served h' r order.
Proof.
  intros Hv. destruct (start_valid h processes Hv) as (h1 & copies & Hd & Hv1 & _).
  unfold fcfs. rewrite Hd.
  set (PL := sorted (λ p, arrival_time (h1 !!! p)) copies) in *.
  destruct (fcfs_loop_inv h1 PL PL (sim_init h1) Hv1 (sim_inv_init _ _) eq_refl)
    as [Hs Hc].
  assert (fcfs_chained (sim_init h1)) as Hinit by done.
  pose proof (fcfs_loop_chained h1 PL PL (sim_init h1) Hv1 (sim_inv_init _ _)
                Hinit eq_refl) as [Hch _].
  set (s := fcfs_loop PL (sim_init h1)) in *.
  eexists _, _, PL. split.
  { apply finish_spec. rewrite Hc. by destruct Hv1. }
  unfold first_come_first_served. cbn [completed_processes gantt_chart].
  rewrite Hc in Hch. rewrite Hc.
  pose proof (inv_static _ _ _ _ Hs) as [_ Hst].
  split; [symmetry; apply sorted_perm|]. split; [|split; [|done]].
  - unfold objects. rewrite <- list_fmap_compose.
    apply (StronglySorted_fmap _ (λ a b, arrival_time (h1 !!! a) ≤ arrival_time (h1 !!! b))).
    + intros x y Hxy. simpl.
      destruct (static_field_eqs _ _ (Hst x)) as (_ & -> & _).
      destruct (static_field_eqs _ _ (Hst y)) as (_ & -> & _). done.
    + apply (sorted_sorted (λ p, arrival_time (h1 !!! p))).
  - rewrite (inv_order _ _ _ _ Hs), Hc. unfold objects.
    rewrite <- list_fmap_compose. apply list_fmap_ext. intros i x _. simpl.
    by destruct (static_field_eqs _ _ (Hst x)) as (-> & _).
Qed.

Lemma X7_witness :
  ∃ h' r order, fcfs scenario_B (all_refs scenario_B) = (h', Return r) ∧
                first_come_first_served h' r order.
Proof.
  apply (X7_fcfs_first_come_first_served scenario_B (all_refs scenario_B)).
  exact scenario_B_valid.
Defined.

(** * The window *)

Section gui_properties.
Context (int_of : string → option Z) {F : Floats}.

(** ** The processes of the window are a valid input *)

Lemma gui_ok_frame (g g' : gui) :
  gui_ok g →
  gui_processes g' = gui_processes g →
  process_id_counter g' = process_id_counter g →
  tree g' = tree g →
  take (length (gui_heap g)) (gui_heap g') = gui_heap g →
  gui_ok g'.
Proof.
  intros (Hv & Hid & Hc & Ht) Hp Hc' Ht' Hh.
  assert (length (gui_heap g) ≤ length (gui_heap g'))%nat as Hlen.
  { apply (f_equal length) in Hh. rewrite length_take in Hh. lia. }
  assert (∀ r, (r < length (gui_heap g))%nat →
               gui_heap g' !!! r = gui_heap g !!! r) as Hsame.
  { intros r Hr.
    rewrite <- (lookup_total_take_lt (gui_heap g') (length (gui_heap g)) r) by done.
    by rewrite Hh. }
  unfold gui_ok. rewrite Hp, Hc', Ht'. split; [|split; [|split; [done|]]].
  - eapply Forall_impl; [exact Hv|]. simpl. intros r [Hr Hvr].
    split; [lia|]. by rewrite Hsame.
  - rewrite <- Hid. apply list_fmap_ext. intros i r Hr. simpl.
    f_equal. apply Hsame. eapply Forall_forall in Hv as [? _]; [done|].
    by eapply list_elem_of_lookup_2.
  - rewrite Ht. apply list_fmap_ext. intros i r Hr. simpl.
    f_equal. symmetry. apply Hsame. eapply Forall_forall in Hv as [? _]; [done|].
    by eapply list_elem_of_lookup_2.
Qed.

Lemma gui_ok_add (g : gui) : gui_ok g → gui_ok (add_process int_of g).1.
Proof.
  intros Hok. unfold add_process.
  destruct (int_of (arrival_entry g)) as [arrival|]; [|done].
  destruct (int_of (burst_entry g)) as [burst|]; [|done].
  destruct (if decide (priority_entry g = "") then Some 0
            else int_of (priority_entry g)) as [prio|]; [|done].
  destruct (Z.ltb_spec arrival 0) as [|Ha]; [done|].
  destruct (Z.leb_spec burst 0) as [|Hb]; [done|].
  destruct (Z.ltb_spec prio 0) as [|Hp]; [done|].
  cbn [orb fst]. destruct Hok as (Hv & Hid & Hc & Ht).
  set (p := Process_init (process_id_counter g) arrival burst prio).
  set (n := length (gui_processes g)) in *.
  assert ((gui_heap g ++ [p]) !!! length (gui_heap g) = p) as Hnew.
  { by rewrite lookup_total_app_r, Nat.sub_diag. }
  assert (∀ r, r ∈ gui_processes g →
               (gui_heap g ++ [p]) !!! r = gui_heap g !!! r) as Hold.
  { intros r Hr. eapply Forall_forall in Hv as [? _]; [|done].
    by rewrite lookup_total_app_l. }
  unfold gui_ok.
  cbn [gui_heap gui_processes process_id_counter tree].
  rewrite Hnew, !length_app. fold n. simpl.
  split; [|split; [|split]].
  - apply Forall_app. split.
    + apply Forall_forall. intros r Hr.
      rewrite Hold by done. eapply Forall_forall in Hv as [? ?]; [|done].
      split; [lia|done].
    + apply Forall_singleton. rewrite Hnew.
      split; [lia|]. split; [done|]. unfold p. simpl. lia.
  - rewrite fmap_app, seq_app, fmap_app. f_equal.
    + rewrite <- Hid. apply list_fmap_ext. intros i r Hr. simpl.
      f_equal. apply Hold. by eapply list_elem_of_lookup_2.
    + simpl. rewrite Hnew. unfold p. simpl. rewrite Hc. f_equal. lia.
  - lia.
  - rewrite fmap_app. f_equal.
    + rewrite Ht. apply list_fmap_ext. intros i r Hr. simpl.
      f_equal. symmetry. apply Hold. by eapply list_elem_of_lookup_2.
    + simpl. by rewrite Hnew.
Qed.

Lemma gui_ok_clear answer (g : gui) : gui_ok g → gui_ok (clear_processes answer g).
Proof. intros Hok. destruct answer; [|done]. by repeat split. Qed.

Lemma call_scheduler_frame fuel algorithm_name (g : gui) c :
  call_scheduler fuel algorithm_name g = Some c →
  match c with
  | Call_done h' _ | Call_raised h' _ =>
      take (length (gui_heap g)) h' = gui_heap g
  | Call_return _ => True
  end.
Proof.
  unfold call_scheduler.
  assert (∀ o, take (length (gui_heap g)) (heap_after (gui_heap g) o) = gui_heap g →
               ∀ c, call_of <$> o = Some c →
               match c with
               | Call_done h' _ | Call_raised h' _ =>
                   take (length (gui_heap g)) h' = gui_heap g
               | Call_return _ => True
               end) as Hcall.
  { intros [[h' [r|e]]|] Ho c'; simpl; intros [= <-]; done. }
  repeat case_decide.
  - intros [= <-]. pose proof (fcfs_frame (gui_heap g) (gui_processes g)) as Hf.
    destruct (fcfs _ _) as [h' [r|e]]; done.
  - apply Hcall, nonpreemptive_frame.
  - apply Hcall, nonpreemptive_frame.
  - destruct (gui_time_quantum g) as [quantum| |].
    + destruct (quantum <=? 0); [by intros [= <-]|].
      pose proof (round_robin_frame fuel (gui_heap g) (gui_processes g) quantum) as Hf.
      destruct (round_robin _ _ _ _) as [[h' [r|[|]]]|]; simpl; by intros [= <-].
    + by intros [= <-].
    + intros [= <-]. by rewrite firstn_all.
  - intros [= <-]. by rewrite firstn_all.
Qed.

Lemma gui_ok_run fuel algorithm_name (g g' : gui) dialogs :
  gui_ok g → run_simulation fuel algorithm_name g = Some (g', dialogs) → gui_ok g'.
Proof.
  intros Hok. unfold run_simulation.
  destruct (gui_processes g) as [|x l] eqn:Hp; [by intros [= <- _]|].
  destruct (call_scheduler fuel algorithm_name (clear_results g)) as [c|] eqn:Hc;
    [|done].
  apply call_scheduler_frame in Hc.
  destruct c as [h' r|d|h' e]; intros [= <- _].
  - by apply (gui_ok_frame g).
  - by apply (gui_ok_frame g); [| | | |apply firstn_all].
  - by apply (gui_ok_frame g).
Qed.

Lemma reachable_ok h0 (g : gui) : reachable int_of h0 g → gui_ok g.
Proof.
  induction 1 as [|g g' _ IH Hstep].
  - by repeat split.
  - destruct Hstep as [a b p q| |answer|fuel name g' ds _ Hrun].
    + by apply (gui_ok_frame g); [| | | |apply firstn_all].
    + by apply gui_ok_add.
    + by apply gui_ok_clear.
    + by eapply gui_ok_run.
Qed.

Lemma gui_ok_valid (g : gui) :
  gui_ok g → gui_processes g ≠ [] → valid_input (gui_heap g) (gui_processes g).
Proof.
  intros (Hv & Hid & _) Hne. split; [done|]. split; [done|].
  rewrite Hid. apply NoDup_fmap; [|apply NoDup_seq]. intros a b. lia.
Qed.

End gui_properties.

(** X8.  In every state the window can reach (the user typing, adding
    processes, clearing them and running simulations in any order) the
    processes it holds are as [Process(...)] made them, with an arrival
    time and a priority that are not negative and a positive burst time;
    their ids are 1, 2, ... in the order of entry, the counter being the
    next id; the list view shows them; and when there is one at least they
    are a valid input of the scheduler.  A rejected entry uses no id, and
    running a simulation changes no process. *)
Theorem X8_window_holds_valid_input (int_of : string → option Z) (F : Floats)
    (h0 : heap) (g : gui) :
  reachable int_of h0 g →
  gui_ok g ∧
  (gui_processes g ≠ [] → valid_input (gui_heap g) (gui_processes g)).
Proof.
  intros Hr. apply reachable_ok in Hr. split; [done|]. by apply gui_ok_valid.
Qed.

Lemma X8_witness :
  let g := (add_process (F := exact_floats) int_of_digits
              (type_entries "3" "5" "" (Var_int 2) (gui_init []))).1 in
  gui_ok g ∧ (gui_processes g ≠ [] → valid_input (gui_heap g) (gui_processes g)).
Proof.
  intros g. apply (X8_window_holds_valid_input int_of_digits exact_floats []).
  eapply reachable_step; [eapply reachable_step; [apply reachable_init|]|].
  - apply (step_type int_of_digits).
  - apply (step_add int_of_digits).
Defined.

Section gui_runs.
Context (int_of : string → option Z) {F : Floats}.

(** ** The scheduler raises nothing in the window *)


End gui_runs.



(** ** The results table *)







Section gui_results.
Context (int_of : string → option Z) {F : Floats}.



End gui_results.



(** * No process waits while the processor is idle *)

Lemma idle_ok_idle h1 PL s t :
  sim_inv h1 PL false s →
  idle_ok h1 PL (gantt s) (completed s) (sim_heap s) →
  (∀ r, r ∈ PL → r ∉ completed s → t ≤ arrival_time (h1 !!! r)) →
  idle_ok h1 PL (gantt (idle_until t s)) (completed (idle_until t s))
          (sim_heap (idle_until t s)).
Proof.
  intros Hs Hk Ht a b r. cbn [idle_until gantt completed sim_heap].
  intros [He|He%list_elem_of_singleton]%elem_of_app Hr; [by apply Hk|].
  injection He as -> ->.
  destruct (decide (r ∈ completed s)) as [Hc|Hc].
  - left. split; [done|]. by destruct (inv_done _ _ _ _ Hs r Hc) as (_ & _ & ?).
  - right. by apply Ht.
Qed.

Lemma idle_ok_run h1 PL s proc :
  valid_input h1 PL → sim_inv h1 PL true s →
  idle_ok h1 PL (gantt s) (completed s) (sim_heap s) →
  proc ∈ PL → proc ∉ completed s →
  arrival_time (h1 !!! proc) ≤ current_time s →
  idle_ok h1 PL (gantt (np_run proc s)) (completed (np_run proc s))
          (sim_heap (np_run proc s)).
Proof.
  intros Hv Hs Hk Hin Hnc Harr.
  destruct (sim_inv_run h1 PL s proc Hv Hs Hin Hnc Harr) as [_ ->].
  cbn [gantt completed sim_heap]. intros a b r.
  intros [He|He%list_elem_of_singleton]%elem_of_app Hr; [|done].
  destruct (Hk a b r He Hr) as [[Hc Hle]|Hge]; [left|by right].
  split; [apply elem_of_app; by left|].
  rewrite list_lookup_total_insert_ne; [done|]. by intros ->.
Qed.

Lemma fcfs_body_idle_ok h1 PL s proc :
  valid_input h1 PL → sim_inv h1 PL false s →
  idle_ok h1 PL (gantt s) (completed s) (sim_heap s) →
  proc ∈ PL → proc ∉ completed s →
  (∀ r, r ∈ PL → r ∉ completed s →
        arrival_time (h1 !!! proc) ≤ arrival_time (h1 !!! r)) →
  idle_ok h1 PL (gantt (fcfs_body proc s)) (completed (fcfs_body proc s))
          (sim_heap (fcfs_body proc s)).
Proof.
  intros Hv Hs Hk Hin Hnc Hfirst.
  destruct (valid_input_lookup _ _ _ Hv Hin) as (Hlt & Hinit & _).
  pose proof (inv_fresh _ _ _ _ Hs proc Hin Hnc) as Hfresh.
  pose proof (inv_static _ _ _ _ Hs) as [Hlen _].
  rewrite fcfs_body_np_run; [|rewrite Hfresh; by rewrite Hinit|lia].
  rewrite Hfresh.
  destruct (Z.ltb_spec (current_time s) (arrival_time (h1 !!! proc))) as [Hlt'|Hge].
  - apply idle_ok_run; [done|by apply sim_inv_idle| |done|done|done].
    by apply idle_ok_idle.
  - apply idle_ok_run; [done|by apply sim_inv_weaken|done..].
Qed.

Lemma fcfs_loop_idle_ok h1 PL process_queue : ∀ s,
  valid_input h1 PL → by_arrival h1 PL → sim_inv h1 PL false s →
  idle_ok h1 PL (gantt s) (completed s) (sim_heap s) →
  completed s ++ process_queue = PL →
  let s' := fcfs_loop process_queue s in
  idle_ok h1 PL (gantt s') (completed s') (sim_heap s').
Proof.
  induction process_queue as [|proc q IH]; intros s Hv Hsorted Hs Hk Hq; simpl; [done|].
  pose proof (valid_input_NoDup _ _ Hv) as Hnd. rewrite <- Hq in Hnd.
  apply NoDup_app in Hnd as (_ & Hdisj & _).
  assert (proc ∈ PL) as Hin.
  { rewrite <- Hq. apply elem_of_app. right. apply list_elem_of_here. }
  assert (proc ∉ completed s) as Hnc.
  { intros Hc. apply (Hdisj proc Hc). apply list_elem_of_here. }
  destruct (fcfs_body_inv h1 PL s proc) as [Hs' Hc']; try done.
  apply IH; [done|done|done| |].
  - apply fcfs_body_idle_ok; try done.
    intros r Hr Hrc. unfold by_arrival in Hsorted. rewrite <- Hq in Hsorted, Hr.
    apply StronglySorted_app_1_r, StronglySorted_inv in Hsorted as [_ Hall].
    apply elem_of_app in Hr as [Hr|Hr]; [done|].
    apply elem_of_cons in Hr as [->|Hr]; [lia|].
    eapply Forall_forall in Hall; [|exact Hr]. exact Hall.
  - rewrite Hc', <- Hq. by rewrite <- (assoc_L (++)).
Qed.

Lemma np_body_idle_ok key h1 PL st :
  valid_input h1 PL → np_inv h1 PL st →
  idle_ok h1 PL (gantt (np_sim st)) (completed (np_sim st)) (sim_heap (np_sim st)) →
  np_cond (length PL) st = true →
  ∃ st', np_body key st = Next st' ∧ np_inv h1 PL st' ∧
         idle_ok h1 PL (gantt (np_sim st')) (completed (np_sim st'))
                 (sim_heap (np_sim st')) ∧
         (length (remaining_processes st') < length (remaining_processes st))%nat.
Proof.
  intros Hv Hst Hk Hc.
  destruct (np_body_step key h1 PL st Hv Hst Hc)
    as (s0 & proc & rem' & Hr & _ & Hrem & Hb & Hinv & Hs0 & Hc0 & Hin & Hnc & Harr & Hlt).
  exists (mkNp (np_run proc s0) rem'). split; [done|]. split; [done|]. split; [|done].
  cbn [np_sim]. apply idle_ok_run; try done.
  destruct (np_ready_step h1 PL st Hv Hst) as (s0' & Hr' & _ & _ & _ & Hcase).
  { intros Hnil. by rewrite Hnil in Hrem. }
  rewrite Hr in Hr'. injection Hr' as -> _.
  destruct Hcase as [->|(Heq & _ & Hmin)]; [done|].
  rewrite Heq. destruct Hst as [Hs Hperm]. apply idle_ok_idle; [done|done|].
  intros r Hr1 Hr2.
  apply min_of_spec in Hmin as [_ Hmin].
  pose proof (inv_static _ _ _ _ Hs) as [_ Hstat].
  destruct (static_field_eqs _ _ (Hstat r)) as (_ & <- & _).
  apply Hmin. apply list_elem_of_fmap. exists r. split; [done|].
  rewrite <- Hperm in Hr1. apply elem_of_app in Hr1 as [Hr1|Hr1]; done.
Qed.

Lemma idle_ok_final h1 PL s L :
  sim_inv h1 PL false s → L ≡ₚ completed s →
  idle_ok h1 PL (gantt s) (completed s) (sim_heap s) →
  ∀ a b p, (Idle, a, b) ∈ gantt s → p ∈ objects (sim_heap s) L →
    completion_time p ≤ a ∨ b ≤ arrival_time p.
Proof.
  intros Hs HL Hk a b p He (r & -> & Hr)%objects_elem. rewrite HL in Hr.
  pose proof (inv_static _ _ _ _ Hs) as [_ Hstat].
  destruct (static_field_eqs _ _ (Hstat r)) as (_ & -> & _).
  destruct (Hk a b r He) as [[_ ?]|?]; [|by left|by right].
  by apply (inv_sub _ _ _ _ Hs).
Qed.

Lemma by_arrival_sorted (h1 : heap) copies :
  by_arrival h1 (sorted (λ p, arrival_time (h1 !!! p)) copies).
Proof. apply (sorted_sorted (λ p, arrival_time (h1 !!! p))). Qed.

Lemma fcfs_idle (h : heap) processes :
  valid_input h processes →
  ∃ h' r, fcfs h processes = (h', Return r) ∧ idle_only_when_none_ready h' r.
Proof.
  intros Hv. destruct (start_valid h processes Hv) as (h1 & copies & Hd & Hv1 & _).
  unfold fcfs. rewrite Hd.
  set (PL := sorted (λ p, arrival_time (h1 !!! p)) copies) in *.
  destruct (fcfs_loop_inv h1 PL PL (sim_init h1) Hv1 (sim_inv_init _ _) eq_refl)
    as [Hs Hc].
  assert (idle_ok h1 PL (gantt (sim_init h1)) (completed (sim_init h1))
                  (sim_heap (sim_init h1))) as Hk0.
  { intros a b r He. by apply elem_of_nil in He. }
  pose proof (fcfs_loop_idle_ok h1 PL PL (sim_init h1) Hv1 (by_arrival_sorted _ _)
                (sim_inv_init _ _) Hk0 eq_refl) as Hk.
  simpl in Hk. set (s := fcfs_loop PL (sim_init h1)) in *.
  eexists _, _. split.
  { apply finish_spec. rewrite Hc. by destruct Hv1. }
  unfold idle_only_when_none_ready. cbn [gantt_chart completed_processes].
  apply (idle_ok_final h1 PL); [done| |done]. apply sorted_perm.
Qed.

Lemma nonpreemptive_idle key (h : heap) processes :
  valid_input h processes →
  ∃ h' r, returns (λ fuel, nonpreemptive key fuel h processes) h' r ∧
          idle_only_when_none_ready h' r.
Proof.
  intros Hv. destruct (start_valid h processes Hv) as (h1 & copies & Hd & Hv1 & _).
  set (PL := sorted (λ p, arrival_time (h1 !!! p)) copies) in *.
  destruct (while_loop_total
              (λ st, np_inv h1 PL st ∧
                     idle_ok h1 PL (gantt (np_sim st)) (completed (np_sim st))
                             (sim_heap (np_sim st)))
              (λ st, length (remaining_processes st))
              (np_cond (length PL)) (np_body key)) with (fuel := length PL)
              (s := mkNp (sim_init h1) PL) as (st & Hw & [Hst Hk] & Hc).
  { intros st [Hst Hk] Hc.
    destruct (np_body_idle_ok key h1 PL st Hv1 Hst Hk Hc) as (st' & ? & ? & ? & ?).
    by exists st'. }
  { split; [split; [apply sim_inv_init|done]|].
    intros a b r He. by apply elem_of_nil in He. }
  { done. }
  destruct (np_loop_total key h1 PL Hv1 (length PL)) as (st' & Hw' & _ & Hp); [done|].
  rewrite Hw in Hw'. injection Hw' as <-.
  eexists _, _. split.
  - exists (length PL). intros fuel Hfuel.
    unfold nonpreemptive. rewrite Hd. fold PL.
    rewrite (while_loop_mono _ _ _ _ _ _ Hw Hfuel).
    f_equal. apply finish_spec. intros Hnil. rewrite Hnil in Hp.
    apply Permutation_nil_l in Hp. destruct Hv1 as [Hne _]. by apply Hne.
  - unfold idle_only_when_none_ready. cbn [gantt_chart completed_processes].
    destruct Hst as [Hs _].
    apply (idle_ok_final h1 PL); [done| |done]. apply sorted_perm.
Qed.

(** ** Round robin *)

Lemma rr_idle_shape t s s' :
  rr_idle t s = Next s' → rr_last_ok s →
  rr_gantt s' = rr_gantt s ++ [(Idle, rr_time s, t)] ∨
  ∃ init first e, rr_gantt s = init ++ [(Idle, first, e)] ∧
                  rr_gantt s' = init ++ [(Idle, first, t)].
Proof.
  unfold rr_idle, rr_last_ok. intros Hi Hl.
  destruct (last_gantt_entry s) as [[[occ first] e]|].
  - destruct occ; simpl in Hi.
    + destruct (set_last _ _) as [chart|] eqn:Hs; [|done].
      injection Hi as <-. cbn [rr_gantt]. right.
      destruct (set_last_shape _ _ _ _ Hs (eq_sym Hl)) as (init & -> & ->).
      by exists init, first, e.
    + injection Hi as <-. by left.
  - injection Hi as <-. by left.
Qed.

Lemma by_arrival_drop h1 PL n r0 r :
  by_arrival h1 PL → head (drop n PL) = Some r0 → r ∈ drop n PL →
  arrival_time (h1 !!! r0) ≤ arrival_time (h1 !!! r).
Proof.
  unfold by_arrival. intros Hs Hh Hr. rewrite <- (take_drop n PL) in Hs.
  apply StronglySorted_app_1_r in Hs.
  destruct (drop n PL) as [|x l]; [done|]. injection Hh as ->.
  apply StronglySorted_inv in Hs as [_ Hall].
  apply elem_of_cons in Hr as [->|Hr]; [lia|].
  eapply Forall_forall in Hall; [|exact Hr]. exact Hall.
Qed.

Lemma rr_idle_idle_ok h1 PL time_quantum s t s' r0 :
  valid_input h1 PL → by_arrival h1 PL →
  rr_inv h1 PL time_quantum s → ready_queue s = [] →
  rr_idle t s = Next s' →
  head (drop (process_idx s) PL) = Some r0 → t = arrival_time (h1 !!! r0) →
  idle_ok h1 PL (rr_gantt s) (dict_values (completed_processes_dict s)) (rr_heap s) →
  idle_ok h1 PL (rr_gantt s') (dict_values (completed_processes_dict s')) (rr_heap s').
Proof.
  intros Hv Hsorted Hs Hq Hidle Hhead Ht Hk.
  destruct (rr_idle_fields _ _ _ Hidle) as (-> & -> & _).
  set (D := dict_values (completed_processes_dict s)) in *.
  assert (D ≡ₚ take (process_idx s) PL) as HD.
  { pose proof (rr_perm _ _ _ _ Hs) as Hp. rewrite Hq, app_nil_r in Hp. exact Hp. }
  assert (∀ r, r ∈ PL → r ∈ D ∨ t ≤ arrival_time (h1 !!! r)) as Hsplit.
  { intros r Hr. rewrite <- (take_drop (process_idx s) PL) in Hr.
    apply elem_of_app in Hr as [Hr|Hr]; [left; by rewrite HD|right].
    rewrite Ht. by eapply by_arrival_drop. }
  destruct (rr_chart_ok _ _ _ _ Hs) as (_ & _ & _ & Hlast & _).
  destruct (rr_idle_shape _ _ _ Hidle (rr_lastok _ _ _ _ Hs))
    as [->|(init & first & e & Hg & ->)].
  - intros a b r [He|He%list_elem_of_singleton]%elem_of_app Hr; [by apply Hk|].
    injection He as -> ->.
    destruct (Hsplit r Hr) as [HrD|?]; [left|by right]. split; [done|].
    by destruct (rr_done _ _ _ _ Hs r HrD) as (_ & _ & ? & _).
  - assert (e = rr_time s) as ->.
    { apply (Hlast (Idle, first, e)). by rewrite Hg, last_snoc. }
    intros a b r [He|He%list_elem_of_singleton]%elem_of_app Hr.
    { apply Hk; [|done]. rewrite Hg. apply elem_of_app. by left. }
    injection He as -> ->.
    destruct (Hk first (rr_time s) r) as [?|Hge]; [|done|by left|].
    { rewrite Hg. apply elem_of_app. right. by apply list_elem_of_singleton. }
    destruct (Hsplit r Hr) as [HrD|?]; [|by right]. exfalso.
    destruct (rr_done _ _ _ _ Hs r HrD) as (_ & [Ha Hrun] & Hc & _).
    destruct (valid_input_lookup _ _ _ Hv Hr) as (_ & _ & _ & Hb & _).
    pose proof (rr_static _ _ _ _ Hs) as [_ Hst].
    destruct (static_field_eqs _ _ (Hst r)) as (_ & Hea & Heb & _). lia.
Qed.

Lemma rr_dispatch_idle_ok h1 PL time_quantum s proc queue chart :
  valid_input h1 PL →
  rr_inv h1 PL time_quantum s →
  ready_queue s = proc :: queue →
  rr_chart (p_id (rr_heap s !!! proc)) (rr_time s)
    (rr_time s + Z.min time_quantum (remaining_burst_time (rr_heap s !!! proc))) s
  = Some chart →
  rr_inv h1 PL time_quantum (rr_dispatch time_quantum proc queue chart s) →
  idle_ok h1 PL (rr_gantt s) (dict_values (completed_processes_dict s)) (rr_heap s) →
  let s' := rr_dispatch time_quantum proc queue chart s in
  idle_ok h1 PL (rr_gantt s') (dict_values (completed_processes_dict s')) (rr_heap s').
Proof.
  intros Hv Hs Hq Hch Hs' Hk s'.
  pose proof (valid_input_NoDup _ _ Hv) as HndPL.
  set (D := dict_values (completed_processes_dict s)) in *.
  assert (NoDup (D ++ proc :: queue)) as Hnd.
  { rewrite <- Hq. unfold D. rewrite (rr_perm _ _ _ _ Hs).
    rewrite <- (take_drop (process_idx s) PL) in HndPL.
    by apply NoDup_app in HndPL as (? & _). }
  apply NoDup_app in Hnd as (_ & Hdisj & _).
  assert (proc ∉ D) as HpD.
  { intros Hx. apply (Hdisj proc Hx). apply list_elem_of_here. }
  destruct (rr_dispatch_fields time_quantum proc queue chart s) as [Hh Hg].
  assert (∀ r, r ∈ D → r ∈ dict_values (completed_processes_dict s')) as Hsub.
  { pose proof (rr_perm _ _ _ _ Hs') as Hperm'.
    pose proof (rr_perm _ _ _ _ Hs) as Hperm. rewrite Hq in Hperm. fold D in Hperm.
    revert Hperm'. unfold s', rr_dispatch.
    destruct (remaining_burst_time _ =? 0);
      cbn [completed_processes_dict ready_queue process_idx]; intros Hperm' r Hr;
      [|done].
    assert (dict_values (dict_set
              (p_id (dispatched time_quantum (rr_time s) (rr_heap s !!! proc)))
              proc (completed_processes_dict s)) ≡ₚ D ++ [proc]) as ->.
    { apply (Permutation_app_inv_r queue). rewrite Hperm', <- Hperm.
      by rewrite <- (assoc_L (++)). }
    apply elem_of_app. by left. }
  destruct (rr_chart_ok _ _ _ _ Hs) as (_ & _ & _ & Hlast & _).
  intros a b r He Hr. fold s' in Hh, Hg. rewrite Hg in He. rewrite Hh.
  assert ((Idle, a, b) ∈ rr_gantt s) as He'.
  { destruct (rr_chart_shape _ _ _ _ _ Hch (rr_lastok _ _ _ _ Hs) Hlast)
      as [->|(init & first & -> & ->)].
    - by apply elem_of_app in He as [He|He%list_elem_of_singleton].
    - apply elem_of_app in He as [He|He%list_elem_of_singleton]; [|done].
      apply elem_of_app. by left. }
  destruct (Hk a b r He' Hr) as [[HrD Hle]|?]; [left|by right].
  split; [by apply Hsub|].
  rewrite list_lookup_total_insert_ne; [done|]. by intros ->.
Qed.

Lemma rr_body_idle_ok h1 PL time_quantum s :
  valid_input h1 PL → by_arrival h1 PL → 0 < time_quantum →
  rr_inv h1 PL time_quantum s →
  idle_ok h1 PL (rr_gantt s) (dict_values (completed_processes_dict s)) (rr_heap s) →
  rr_cond (length PL) s = true →
  ∃ s', rr_body PL time_quantum s = Next s' ∧
        rr_inv h1 PL time_quantum s' ∧
        idle_ok h1 PL (rr_gantt s') (dict_values (completed_processes_dict s'))
                (rr_heap s') ∧
        (rr_measure h1 PL s' < rr_measure h1 PL s)%nat.
Proof.
  intros Hv Hsorted HQ Hs Hk Hc.
  destruct (rr_body_step h1 PL time_quantum s Hv HQ Hs Hc) as (s' & Hb & Hs' & Hm & _).
  exists s'. split; [done|]. split; [done|]. split; [|done].
  destruct (rr_body_cases h1 PL time_quantum s Hv HQ Hs Hc)
    as (k & _ & Hs1 & Hc1 & Hcase).
  set (s1 := rr_with_queue s (ready_queue s ++ take k (drop (process_idx s) PL))
                           (process_idx s + k)) in *.
  assert (idle_ok h1 PL (rr_gantt s1) (dict_values (completed_processes_dict s1))
                  (rr_heap s1)) as Hk1 by done.
  destruct Hcase as [(Hq & t & _ & Hidle & r0 & Hhead & Ht)
                    |(proc & queue & chart & q' & i' & Hq & Hch & Hrun & _)].
  - rewrite Hb in Hidle. symmetry in Hidle.
    by apply (rr_idle_idle_ok h1 PL time_quantum s1 t s' r0).
  - rewrite Hb in Hrun. injection Hrun as ->.
    destruct (rr_inv_dispatch h1 PL time_quantum s1 proc queue Hv HQ Hs1 Hq Hc1)
      as (chart' & Hch' & Hs2 & _).
    rewrite Hch in Hch'. injection Hch' as <-.
    by apply (rr_dispatch_idle_ok h1 PL time_quantum s1 proc queue chart).
Qed.

Lemma round_robin_idle (h : heap) processes time_quantum :
  valid_input h processes → 0 < time_quantum →
  ∃ h' r, returns (λ fuel, round_robin fuel h processes time_quantum) h' r ∧
          idle_only_when_none_ready h' r.
Proof.
  intros Hv HQ. destruct (start_valid h processes Hv) as (h1 & copies & Hd & Hv1 & _).
  set (PL := sorted (λ p, arrival_time (h1 !!! p)) copies) in *.
  destruct (while_loop_total
              (λ s, rr_inv h1 PL time_quantum s ∧
                    idle_ok h1 PL (rr_gantt s)
                            (dict_values (completed_processes_dict s)) (rr_heap s))
              (rr_measure h1 PL)
              (rr_cond (length PL)) (rr_body PL time_quantum))
         with (fuel := rr_measure h1 PL (rr_init h1))
              (s := rr_init h1) as (s & Hw & [Hs Hk] & Hc).
  { intros s [Hs Hk] Hc.
    destruct (rr_body_idle_ok h1 PL time_quantum s Hv1 (by_arrival_sorted _ _) HQ
                Hs Hk Hc) as (s' & ? & ? & ? & ?).
    by exists s'. }
  { split; [apply rr_inv_init; by destruct Hv1|].
    intros a b r He. by apply elem_of_nil in He. }
  { done. }
  eexists _, _. split.
  - exists (rr_measure h1 PL (rr_init h1)). intros fuel Hfuel. unfold round_robin.
    destruct (Z.leb_spec time_quantum 0) as [|_]; [lia|].
    rewrite Hd. fold PL. rewrite (while_loop_mono _ _ _ _ _ _ Hw Hfuel).
    f_equal. apply rr_finish_spec.
    intros Hnil. unfold rr_cond in Hc. rewrite Hnil in Hc. simpl in Hc.
    apply Nat.ltb_ge in Hc. destruct Hv1 as [Hne _]. destruct PL; [done|].
    simpl in Hc. lia.
  - unfold idle_only_when_none_ready. cbn [gantt_chart completed_processes].
    intros a b p He (r & -> & Hr)%objects_elem. rewrite sorted_perm in Hr.
    assert (r ∈ PL) as Hin.
    { apply (take_elem_of _ (process_idx s)). rewrite <- (rr_perm _ _ _ _ Hs).
      apply elem_of_app. by left. }
    pose proof (rr_static _ _ _ _ Hs) as [_ Hst].
    destruct (static_field_eqs _ _ (Hst r)) as (_ & -> & _).
    destruct (Hk a b r He Hin) as [[_ ?]|?]; [by left|by right].
Qed.

(** X11.  On a valid input no process waits while the processor is idle:
    for every ["Idle"] entry of the timeline each function returns, every
    process has completed by the time the gap begins or arrives no earlier
    than it ends.  The gap lasts until the next arrival and no longer. *)
Theorem X11_idle_only_when_none_ready (h : heap) (processes : list ref)
    (time_quantum : Z) :
  valid_input h processes → 0 < time_quantum →
  every_algorithm h processes time_quantum idle_only_when_none_ready.
Proof.
  intros Hv HQ. split; [|split; [|split]].
  - by apply fcfs_idle.
  - by apply nonpreemptive_idle.
  - by apply nonpreemptive_idle.
  - by apply round_robin_idle.
Qed.

Lemma gap_heap_valid : valid_input gap_heap (all_refs gap_heap).
Proof.
  apply scenario_valid; [done| |].
  - repeat constructor; simpl; lia.
  - apply (bool_decide_unpack _). by vm_compute.
Qed.

Lemma gap_heap_chart :
  chart_of (round_robin 6 gap_heap (all_refs gap_heap) 2)
  = Some [(Idle, 0, 2); (Pid 1, 2, 5); (Idle, 5, 10); (Pid 2, 10, 11)].
Proof. by vm_compute. Qed.

Lemma X11_witness :
  every_algorithm gap_heap (all_refs gap_heap) 2 idle_only_when_none_ready.
Proof.
  apply (X11_idle_only_when_none_ready gap_heap (all_refs gap_heap) 2).
  - exact gap_heap_valid.
  - lia.
Defined.

(** * calculate_metrics, on any process *)

(** X12.  [calculate_metrics] writes the waiting and turnaround times and
    nothing else, and a second call changes nothing more.  With a
    completion time it leaves a waiting time that is not negative; with
    the completion time unset (-1) it marks both metrics as unset
    (-1) and raises nothing. *)
Theorem X12_calculate_metrics_writes_two_attributes (p : Process) :
  calculate_metrics (calculate_metrics p) = calculate_metrics p ∧
  static (calculate_metrics p) = static p ∧
  remaining_burst_time (calculate_metrics p) = remaining_burst_time p ∧
  start_time (calculate_metrics p) = start_time p ∧
  completion_time (calculate_metrics p) = completion_time p ∧
  (completion_time p = -1 →
   waiting_time (calculate_metrics p) = -1 ∧
   turnaround_time (calculate_metrics p) = -1) ∧
  (completion_time p ≠ -1 → 0 ≤ waiting_time (calculate_metrics p)).
Proof.
  destruct (calculate_metrics_static p) as (Hs & Hr & Hst & Hc).
  split; [|split; [done|]; split; [done|]; split; [done|]; split; [done|]; split].
  2:{ intros Hct. unfold calculate_metrics. rewrite Hct. done. }
  2:{ intros Hne. destruct (calculate_metrics_ok p Hne) as [_ ->]. lia. }
  destruct p as [id arr burst prio rem st ct wt tat].
  unfold calculate_metrics, set_turnaround_time, set_waiting_time.
  cbn [completion_time waiting_time turnaround_time arrival_time burst_time
       p_id priority remaining_burst_time start_time].
  destruct (Z.eqb_spec ct (-1)) as [|Hne]; cbn [negb].
  - cbn [completion_time waiting_time turnaround_time arrival_time burst_time
         p_id priority remaining_burst_time start_time].
    destruct (Z.eqb_spec ct (-1)); [done|lia].
  - destruct (Z.ltb_spec (ct - arr - burst) 0) as [Hlt|Hge];
      cbn [completion_time waiting_time turnaround_time arrival_time burst_time
           p_id priority remaining_burst_time start_time];
      destruct (Z.eqb_spec ct (-1)); try done; cbn [negb];
      destruct (Z.ltb_spec (ct - arr - burst) 0); try lia; done.
Qed.

(** * The colours of the bars of the chart *)

Lemma color_of_None id d : color_of id d = None ↔ id ∉ d.*1.
Proof.
  induction d as [|[k c] d IH]; simpl.
  - split; [intros _ H; by apply elem_of_nil in H|done].
  - destruct (Z.eqb_spec k id) as [->|Hne].
    + split; [done|]. intros H. exfalso. apply H, list_elem_of_here.
    + rewrite IH, not_elem_of_cons. split; [by split|by intros [_ ?]].
Qed.

Lemma color_of_app_l id d d' : id ∈ d.*1 → color_of id (d ++ d') = color_of id d.
Proof.
  induction d as [|[k c] d IH]; simpl; [by intros H%elem_of_nil|].
  destruct (Z.eqb_spec k id) as [->|Hne]; [done|].
  intros [?|?]%elem_of_cons; [done|]. by apply IH.
Qed.

Lemma color_of_snoc_new id c d : id ∉ d.*1 → color_of id (d ++ [(id, c)]) = Some c.
Proof.
  induction d as [|[k c'] d IH]; simpl.
  - intros _. by rewrite Z.eqb_refl.
  - intros [Hne Hd]%not_elem_of_cons.
    destruct (Z.eqb_spec k id) as [->|_]; [done|]. by apply IH.
Qed.

Lemma color_of_lookup d k id c :
  NoDup d.*1 → d !! k = Some (id, c) → color_of id d = Some c.
Proof.
  revert k. induction d as [|[k' c'] d IH]; intros k; [done|].
  rewrite fmap_cons. intros [Hn Hnd]%NoDup_cons. simpl. destruct k as [|k]; simpl.
  - intros [= -> ->]. by rewrite Z.eqb_refl.
  - intros Hk. destruct (Z.eqb_spec k' id) as [->|_]; [|by eapply IH].
    exfalso. apply Hn. apply list_elem_of_fmap. exists (id, c).
    split; [done|]. by eapply list_elem_of_lookup_2.
Qed.

Lemma bars_snoc chart e :
  bars (chart ++ [e])
  = bars chart ++ (if decide (entry_start e < entry_end e) then [e] else []).
Proof.
  unfold bars. by rewrite filter_app.
Qed.

Lemma pids_app l k : pids (l ++ k) = pids l ++ pids k.
Proof. apply omap_app. Qed.

Section bars_properties.
Context {F : Floats}.

Lemma rectangle_fills_app (l k : list canvas_item) :
  rectangle_fills (l ++ k) = rectangle_fills l ++ rectangle_fills k.
Proof. apply omap_app. Qed.

Lemma bar_fill_ext (d d' : list (Z * string)) chart :
  (∀ id, id ∈ pids chart → colour_in d' id = colour_in d id) →
  bar_fill (colour_in d') <$> chart = bar_fill (colour_in d) <$> chart.
Proof.
  intros H. apply list_fmap_ext. intros i [[occ a] b] He.
  unfold bar_fill, occupant_of. simpl. destruct occ as [|id]; [done|].
  apply H. unfold pids. apply list_elem_of_omap. exists (Pid id, a, b).
  split; [by eapply list_elem_of_lookup_2|done].
Qed.

Lemma draw_entry_inv scale_factor chart e st :
  draw_inv chart st → draw_inv (chart ++ [e]) (draw_entry scale_factor e st).
Proof.
  intros (Hfill & Hnd & Hkeys & Hidx & Hcol).
  destruct e as [[occ a] b]. unfold draw_inv, draw_entry.
  rewrite bars_snoc. unfold entry_start, entry_end. cbn [fst snd].
  destruct (Z.leb_spec (b - a) 0) as [Hle|Hgt].
  { rewrite decide_False by lia. rewrite app_nil_r. by do 4 (split; [done|]). }
  rewrite decide_True by lia.
  destruct occ as [|id].
  - unfold draw_inv. cbn [drawn process_colors color_index].
    split; [|by rewrite pids_app, app_nil_r].
    destruct (num_gt_int _ 25); rewrite !rectangle_fills_app, fmap_app, Hfill;
      simpl; by rewrite ?app_nil_r.
  - destruct (color_of id (process_colors st)) as [c|] eqn:Hc.
    + assert (id ∈ (process_colors st).*1) as Hin.
      { destruct (decide (id ∈ (process_colors st).*1)) as [|Hn]; [done|].
        apply color_of_None in Hn. by rewrite Hn in Hc. }
      unfold draw_inv. cbn [drawn process_colors color_index].
      split; [|split; [done|split; [|done]]].
      * destruct (num_gt_int _ 25); rewrite !rectangle_fills_app, fmap_app, Hfill;
          simpl; by rewrite ?app_nil_r.
      * intros i. rewrite pids_app. simpl. rewrite elem_of_app, list_elem_of_singleton.
        rewrite <- Hkeys. split; [by left|]. by intros [?| ->].
    + apply color_of_None in Hc.
      set (c := colors !!! (color_index st `mod` length colors)%nat).
      unfold draw_inv. cbn [drawn process_colors color_index].
      assert (colour_in (process_colors st ++ [(id, c)]) id = c) as Hnew.
      { unfold colour_in. by rewrite color_of_snoc_new. }
      split; [|split; [|split; [|split]]].
      * fold (colour_in (process_colors st ++ [(id, c)]) id). rewrite Hnew.
        rewrite fmap_app.
        rewrite (bar_fill_ext (process_colors st) (process_colors st ++ [(id, c)])).
        2:{ intros i Hi. apply Hkeys in Hi. unfold colour_in.
            by rewrite color_of_app_l. }
        destruct (num_gt_int _ 25); rewrite !rectangle_fills_app, Hfill;
          simpl; unfold bar_fill, occupant_of; simpl; by rewrite Hnew, ?app_nil_r.
      * rewrite fmap_app. apply NoDup_app. split; [done|]. split.
        -- intros x Hx [->|?%elem_of_nil]%elem_of_cons; done.
        -- simpl. apply NoDup_singleton.
      * intros i. rewrite fmap_app, pids_app. simpl.
        rewrite !elem_of_app, !list_elem_of_singleton, <- Hkeys. done.
      * rewrite length_app. simpl. lia.
      * intros k i c' Hk. apply lookup_app_Some in Hk as [Hk|[Hge Hk]].
        -- by eapply Hcol.
        -- apply list_lookup_singleton_Some in Hk as [Hk0 [= <- <-]].
           unfold c. f_equal. f_equal. lia.
Qed.

Lemma draw_loop_inv scale_factor chart :
  draw_inv chart (foldl (λ st entry, draw_entry scale_factor entry st)
                        (mkDraw [] [] 0 (Int padding)) chart).
Proof.
  induction chart as [|e chart IH] using rev_ind.
  - unfold draw_inv. simpl. split; [done|]. split; [apply NoDup_nil_2|].
    split; [done|]. split; [done|]. intros k id c Hk. done.
  - rewrite foldl_snoc. by apply draw_entry_inv.
Qed.

Lemma draw_inv_colours chart st :
  draw_inv chart st →
  (∀ id, id ∈ pids (bars chart) →
         colour_in (process_colors st) id ∈ colors ∧
         colour_in (process_colors st) id ≠ "#555") ∧
  ((∀ ids, NoDup ids → ids ⊆ pids (bars chart) → (length ids ≤ 9)%nat) →
   ∀ i j, i ∈ pids (bars chart) → j ∈ pids (bars chart) →
          colour_in (process_colors st) i = colour_in (process_colors st) j → i = j).
Proof.
  intros (_ & Hnd & Hkeys & _ & Hcol).
  assert (∀ id, id ∈ pids (bars chart) →
            ∃ k, process_colors st !! k = Some (id, colour_in (process_colors st) id) ∧
                 colour_in (process_colors st) id = colors !!! (k `mod` 9)%nat) as Hat.
  { intros id Hid. apply Hkeys in Hid.
    apply list_elem_of_fmap in Hid as ([id' c] & Heq & Hin).
    simpl in Heq. subst id.
    apply list_elem_of_lookup in Hin as [k Hk]. exists k.
    unfold colour_in. rewrite (color_of_lookup _ _ _ _ Hnd Hk). simpl.
    split; [done|]. by apply (Hcol k id'). }
  assert (NoDup colors) as Hndc by (apply (bool_decide_unpack _); by vm_compute).
  assert (∀ m, (m < 9)%nat → colors !! m = Some (colors !!! m)) as Hlook.
  { intros m Hm. apply list_lookup_lookup_total_lt. simpl. lia. }
  split.
  - intros id Hid. destruct (Hat id Hid) as (k & _ & ->).
    assert (colors !!! (k `mod` 9)%nat ∈ colors) as Hin.
    { eapply list_elem_of_lookup_2. apply Hlook. apply Nat.mod_upper_bound. lia. }
    split; [done|]. intros Heq. rewrite Heq in Hin. revert Hin.
    apply (bool_decide_unpack _). by vm_compute.
  - intros Hfew i j Hi Hj Heq.
    destruct (Hat i Hi) as (ki & Hki & Hci). destruct (Hat j Hj) as (kj & Hkj & Hcj).
    assert (length (process_colors st).*1 ≤ 9)%nat as Hlen.
    { apply Hfew; [done|]. intros x Hx. by apply Hkeys. }
    rewrite length_fmap in Hlen.
    apply lookup_lt_Some in Hki as Hlti. apply lookup_lt_Some in Hkj as Hltj.
    rewrite Nat.mod_small in Hci by lia. rewrite Nat.mod_small in Hcj by lia.
    assert (ki = kj) as ->.
    { eapply (NoDup_lookup colors); [done| |].
      - apply Hlook. lia.
      - rewrite <- Hci, Heq, Hcj. apply Hlook. lia. }
    rewrite Hki in Hkj. by injection Hkj.
Qed.

End bars_properties.

(** X13.  [draw_gantt_chart] draws one rectangle for each entry of the
    chart that has a duration, in the order of the chart, and colours the
    processes consistently: all the bars of a process have one colour,
    taken from the palette, whereas the bars of idle gaps are grey
    ("#555"), which is no colour of the palette; and as long as the chart
    has no more than nine processes, two processes never share a colour.
    (With more, the palette is used again from its beginning.) *)
Theorem X13_bars_are_coloured_by_process (F : Floats) (c : canvas)
    (chart : list gantt_entry) :
  ∃ colour : Z → string,
    rectangle_fills (items (draw_gantt_chart c chart)) = bar_fill colour <$> bars chart ∧
    (∀ id, id ∈ pids (bars chart) → colour id ∈ colors ∧ colour id ≠ "#555") ∧
    ((∀ ids, NoDup ids → ids ⊆ pids (bars chart) → (length ids ≤ 9)%nat) →
     ∀ i j, i ∈ pids (bars chart) → j ∈ pids (bars chart) →
            colour i = colour j → i = j).
Proof.
  unfold draw_gantt_chart. destruct (last chart) as [[[occ a] max_time]|] eqn:Hlast.
  - cbn [items].
    set (scale_factor := if 0 <? max_time
                         then num_div (Int (Z.max 1000 (max_time * 20))) (Int max_time)
                         else Int 1).
    pose proof (draw_loop_inv scale_factor chart) as Hinv.
    set (st := foldl _ _ chart) in *.
    exists (colour_in (process_colors st)). split.
    + rewrite rectangle_fills_app. simpl. rewrite app_nil_r. by destruct Hinv.
    + by apply draw_inv_colours.
  - apply last_None in Hlast as ->. exists (λ _, ""). simpl. split; [done|].
    split; [by intros id H%elem_of_nil|]. by intros _ i j H%elem_of_nil.
Qed.

(** * The two averages *)








(** * One process at a time *)

Lemma contiguous_after x l :
  contiguous (x :: l) → Forall (λ e, entry_start e < entry_end e) (x :: l) →
  Forall (λ e', entry_end x ≤ entry_start e') l.
Proof.
  revert x. induction l as [|y l IH]; intros x Hc Hp; [constructor|].
  destruct Hc as [Hxy Hc]. apply Forall_cons in Hp as [Hx Hp].
  constructor; [lia|]. specialize (IH y Hc Hp).
  apply Forall_cons in Hp as [Hy _].
  eapply Forall_impl; [exact IH|]. simpl. intros e He. lia.
Qed.

Lemma contiguous_sorted chart :
  contiguous chart → Forall (λ e, entry_start e < entry_end e) chart →
  StronglySorted (λ e e', entry_end e ≤ entry_start e') chart.
Proof.
  induction chart as [|x l IH]; intros Hc Hp; [constructor|].
  constructor; [|by apply contiguous_after].
  destruct Hc as [_ Hc]. apply Forall_cons in Hp as [_ Hp]. by apply IH.
Qed.

Lemma StronglySorted_two {A} (R : A → A → Prop) l x y :
  StronglySorted R l → x ∈ l → y ∈ l → x = y ∨ R x y ∨ R y x.
Proof.
  induction 1 as [|a l Hl IH Ha]; intros Hx Hy; [by apply elem_of_nil in Hx|].
  apply elem_of_cons in Hx as [->|Hx]; apply elem_of_cons in Hy as [->|Hy].
  - by left.
  - right. left. by eapply Forall_forall in Ha.
  - right. right. by eapply Forall_forall in Ha.
  - by apply IH.
Qed.

Lemma one_run_one_at_a_time (h : heap) processes h' r :
  schedule_ok h processes h' r → one_run_each h' r →
  one_at_a_time (objects h' (completed_processes r)).
Proof.
  intros (_ & _ & _ & Hc & Hp & _) Hone p q Hp1 Hq1 Hne.
  assert (∀ x, x ∈ objects h' (completed_processes r) → run_entry x ∈ gantt_chart r)
    as Hin.
  { intros x Hx. eapply (list_elem_of_filter (λ e, occupant_of e ≠ Idle)).
    fold (runs (gantt_chart r)). rewrite Hone. by apply list_elem_of_fmap_2. }
  destruct (StronglySorted_two _ _ (run_entry p) (run_entry q)
              (contiguous_sorted _ Hc Hp) (Hin p Hp1) (Hin q Hq1)) as [Heq|[H|H]].
  - unfold run_entry in Heq. by injection Heq.
  - by left.
  - by right.
Qed.

(** X15.  On a valid input [fcfs], [sjf] and [priority_scheduling] run one
    process at a time: of two processes returned, one has completed when
    the other starts. *)
Theorem X15_one_process_at_a_time (h : heap) (processes : list ref) :
  valid_input h processes →
  (∃ h' r, fcfs h processes = (h', Return r) ∧
           one_at_a_time (objects h' (completed_processes r))) ∧
  (∃ h' r, returns (λ fuel, sjf fuel h processes) h' r ∧
           one_at_a_time (objects h' (completed_processes r))) ∧
  (∃ h' r, returns (λ fuel, priority_scheduling fuel h processes) h' r ∧
           one_at_a_time (objects h' (completed_processes r))).
Proof.
  intros Hv.
  assert (∀ key, ∃ h' r, returns (λ fuel, nonpreemptive key fuel h processes) h' r ∧
                         one_at_a_time (objects h' (completed_processes r))) as Hnp.
  { intros key.
    destruct (nonpreemptive_ok key h processes Hv) as (h' & r & E & Hs & _).
    destruct (nonpreemptive_log key h processes Hv) as (h2 & r2 & E2 & _ & Hone).
    destruct (returns_fun _ _ _ _ _ E E2) as [<- <-].
    exists h', r. split; [done|]. by apply (one_run_one_at_a_time h processes). }
  split; [|split; apply Hnp].
  destruct (fcfs_ok h processes Hv) as (h' & r & E & Hs & _).
  destruct (fcfs_log h processes Hv) as (h2 & r2 & E2 & _ & Hone).
  rewrite E in E2. injection E2 as <- <-.
  exists h', r. split; [done|]. by apply (one_run_one_at_a_time h processes).
Qed.

Lemma X15_witness :
  (∃ h' r, fcfs scenario_C (all_refs scenario_C) = (h', Return r) ∧
           one_at_a_time (objects h' (completed_processes r))) ∧
  (∃ h' r, returns (λ fuel, sjf fuel scenario_C (all_refs scenario_C)) h' r ∧
           one_at_a_time (objects h' (completed_processes r))) ∧
  (∃ h' r, returns (λ fuel, priority_scheduling fuel scenario_C (all_refs scenario_C))
                   h' r ∧
           one_at_a_time (objects h' (completed_processes r))).
Proof.
  apply (X15_one_process_at_a_time scenario_C (all_refs scenario_C)).
  exact scenario_C_valid.
Defined.

(** * From the first entry of a process to its last *)

Lemma entries_of_snoc id chart e :
  entries_of id (chart ++ [e])
  = entries_of id chart ++ (if decide (occupant_of e = Pid id) then [e] else []).
Proof. unfold entries_of. by rewrite filter_app. Qed.

Lemma entries_of_snoc_idle id chart a b :
  entries_of id (chart ++ [(Idle, a, b)]) = entries_of id chart.
Proof. rewrite entries_of_snoc. simpl. by rewrite app_nil_r. Qed.

Lemma entries_of_snoc_pid id chart i a b :
  entries_of id (chart ++ [(Pid i, a, b)])
  = entries_of id chart ++ (if decide (i = id) then [(Pid i, a, b)] else []).
Proof.
  rewrite entries_of_snoc. f_equal.
  destruct (decide (occupant_of (Pid i, a, b) = Pid id)) as [H|H];
    destruct (decide (i = id)) as [Hi|Hi]; unfold occupant_of in H; simpl in H.
  - done.
  - by injection H.
  - by subst i.
  - done.
Qed.

Lemma rr_idle_entries id t s s' :
  rr_idle t s = Next s' → rr_last_ok s →
  entries_of id (rr_gantt s') = entries_of id (rr_gantt s).
Proof.
  intros Hi Hl.
  destruct (rr_idle_shape _ _ _ Hi Hl) as [->|(init & first & e & -> & ->)].
  - apply entries_of_snoc_idle.
  - by rewrite !entries_of_snoc_idle.
Qed.

Lemma rr_chart_entries_other id id0 t t' s chart :
  rr_chart id0 t t' s = Some chart → rr_last_ok s →
  (∀ e, last (rr_gantt s) = Some e → entry_end e = t) →
  id0 ≠ id →
  entries_of id chart = entries_of id (rr_gantt s).
Proof.
  intros Hc Hl He Hne.
  destruct (rr_chart_shape _ _ _ _ _ Hc Hl He) as [->|(init & first & -> & ->)].
  - rewrite entries_of_snoc_pid, decide_False by done. by rewrite app_nil_r.
  - rewrite !entries_of_snoc_pid, !decide_False by done. done.
Qed.

Lemma rr_chart_entries_self id t t' s chart :
  rr_chart id t t' s = Some chart → rr_last_ok s →
  (∀ e, last (rr_gantt s) = Some e → entry_end e = t) →
  let es := entries_of id (rr_gantt s) in
  let es' := entries_of id chart in
  (∃ el, last es' = Some el ∧ entry_end el = t') ∧
  (es = [] → es' = [(Pid id, t, t')]) ∧
  (∀ e0, head es = Some e0 →
         ∃ e0', head es' = Some e0' ∧ entry_start e0' = entry_start e0).
Proof.
  intros Hc Hl He.
  destruct (rr_chart_shape _ _ _ _ _ Hc Hl He) as [->|(init & first & -> & ->)];
    cbv zeta; rewrite !entries_of_snoc_pid, !decide_True by done.
  - split; [|split].
    + exists (Pid id, t, t'). by rewrite last_snoc.
    + by intros ->.
    + intros e0 H0. exists e0. split; [|done].
      destruct (entries_of id (rr_gantt s)); [done|]. exact H0.
  - split; [|split].
    + exists (Pid id, first, t'). by rewrite last_snoc.
    + intros H. symmetry in H. by apply app_cons_not_nil in H.
    + intros e0 H0. destruct (entries_of id init) as [|x l].
      * simpl in H0. injection H0 as <-. by eexists.
      * exists e0. by split.
Qed.

Lemma dispatched_start time_quantum now p :
  start_time (dispatched time_quantum now p)
  = if start_time p =? -1 then now else start_time p.
Proof.
  unfold dispatched.
  set (p1 := if start_time p =? -1 then set_start_time now p else p).
  assert (start_time p1 = if start_time p =? -1 then now else start_time p) as <-.
  { unfold p1. by destruct (start_time p =? -1). }
  destruct (_ =? 0); [|done].
  by destruct (calculate_metrics_static
                 (set_completion_time
                    (now + Z.min time_quantum (remaining_burst_time p1))
                    (set_remaining_burst_time
                       (remaining_burst_time p1
                        - Z.min time_quantum (remaining_burst_time p1)) p1)))
    as (_ & _ & -> & _).
Qed.

Lemma rr_span_init h1 PL : valid_input h1 PL → rr_span h1 PL (rr_init h1).
Proof.
  intros Hv r Hr. cbn [rr_init rr_gantt rr_heap]. left. split; [done|].
  destruct (valid_input_lookup _ _ _ Hv Hr) as (_ & -> & _). done.
Qed.

Lemma rr_body_span h1 PL time_quantum s :
  valid_input h1 PL → 0 < time_quantum →
  rr_inv h1 PL time_quantum s → rr_span h1 PL s →
  rr_cond (length PL) s = true →
  ∃ s', rr_body PL time_quantum s = Next s' ∧
        rr_inv h1 PL time_quantum s' ∧ rr_span h1 PL s' ∧
        (rr_measure h1 PL s' < rr_measure h1 PL s)%nat.
Proof.
  intros Hv HQ Hs He Hc.
  destruct (rr_body_step h1 PL time_quantum s Hv HQ Hs Hc) as (s' & Hb & Hs' & Hm & _).
  exists s'. split; [done|]. split; [done|]. split; [|done].
  destruct (rr_body_cases h1 PL time_quantum s Hv HQ Hs Hc)
    as (k & _ & Hs1 & Hc1 & Hcase).
  set (s1 := rr_with_queue s (ready_queue s ++ take k (drop (process_idx s) PL))
                           (process_idx s + k)) in *.
  assert (rr_span h1 PL s1) as He1 by done.
  destruct Hcase as [(_ & t & _ & Hidle & _)|(proc & queue & chart & q' & i' & Hq & Hch & Hrun & _)].
  - rewrite Hb in Hidle. symmetry in Hidle.
    destruct (rr_idle_fields _ _ _ Hidle) as (Hh & _).
    intros r Hr. cbv zeta.
    rewrite Hh, (rr_idle_entries _ _ _ _ Hidle (rr_lastok _ _ _ _ Hs1)).
    by apply He1.
  - rewrite Hb in Hrun. injection Hrun as ->.
    destruct (rr_dispatch_fields time_quantum proc queue chart s1) as [Hh Hg].
    assert (proc ∈ PL) as Hin.
    { apply (take_elem_of _ (process_idx s1)). rewrite <- (rr_perm _ _ _ _ Hs1), Hq.
      apply elem_of_app. right. apply list_elem_of_here. }
    destruct (valid_input_lookup _ _ _ Hv Hin) as [Hlt Hvp].
    pose proof (rr_static _ _ _ _ Hs1) as [Hlen Hst].
    destruct (static_field_eqs _ _ (Hst proc)) as (Hid & Harr & _).
    destruct (dispatched_spec time_quantum (rr_time s1) (h1 !!! proc)
                (rr_heap s1 !!! proc) HQ (rr_time_nonneg _ _ _ _ Hs1) Hvp (Hst proc))
      as (_ & _ & _ & Hdone & _).
    { rewrite Harr. apply (rr_arrived _ _ _ _ Hs1).
      rewrite <- (rr_perm _ _ _ _ Hs1), Hq. apply elem_of_app. right.
      apply list_elem_of_here. }
    { apply (rr_queued _ _ _ _ Hs1). rewrite Hq. apply list_elem_of_here. }
    pose proof (dispatched_start time_quantum (rr_time s1) (rr_heap s1 !!! proc)) as Hstart.
    pose proof (rr_time_nonneg _ _ _ _ Hs1) as Htime.
    destruct (rr_chart_ok _ _ _ _ Hs1) as (_ & _ & _ & Hlast & _).
    intros r Hr. unfold rr_with_queue. cbn [rr_gantt rr_heap]. rewrite Hh, Hg.
    destruct (decide (r = proc)) as [->|Hne].
    + rewrite list_lookup_total_insert_eq by lia. rewrite <- Hid.
      destruct (rr_chart_entries_self _ _ _ _ _ Hch (rr_lastok _ _ _ _ Hs1) Hlast)
        as ((el & Hel & Hend) & Hnil & Hhead).
      right. specialize (He1 proc Hin). cbv zeta in He1. rewrite <- Hid in He1.
      destruct He1 as [[Hes Hst0]|(e0 & el0 & He0 & _ & Hs0 & Hpos & _)].
      * rewrite (Hnil Hes). eexists _, _. split; [done|]. split; [done|].
        rewrite Hstart, Hst0. simpl. split; [done|]. split; [done|].
        intros Hz. destruct (Hdone Hz) as [_ Hcomp]. symmetry. exact Hcomp.
      * destruct (Hhead e0 He0) as (e0' & He0' & Heq).
        exists e0', el. split; [done|]. split; [done|].
        rewrite Hstart. destruct (Z.eqb_spec (start_time (rr_heap s1 !!! proc)) (-1));
          [lia|]. split; [by rewrite Heq|]. split; [done|].
        intros Hz. rewrite Hend. destruct (Hdone Hz) as [_ Hcomp]. symmetry. exact Hcomp.
    + rewrite list_lookup_total_insert_ne by done.
      rewrite (rr_chart_entries_other _ _ _ _ _ _ Hch (rr_lastok _ _ _ _ Hs1) Hlast).
      * by apply He1.
      * rewrite Hid. intros Heq. apply Hne. by eapply valid_input_ids.
Qed.

Lemma round_robin_spans (h : heap) processes time_quantum :
  valid_input h processes → 0 < time_quantum →
  ∃ h' r, returns (λ fuel, round_robin fuel h processes time_quantum) h' r ∧
          Forall (spans_its_entries (gantt_chart r))
                 (objects h' (completed_processes r)).
Proof.
  intros Hv HQ. destruct (start_valid h processes Hv) as (h1 & copies & Hd & Hv1 & _).
  set (PL := sorted (λ p, arrival_time (h1 !!! p)) copies) in *.
  destruct (while_loop_total (λ s, rr_inv h1 PL time_quantum s ∧ rr_span h1 PL s)
              (rr_measure h1 PL)
              (rr_cond (length PL)) (rr_body PL time_quantum))
         with (fuel := rr_measure h1 PL (rr_init h1))
              (s := rr_init h1) as (s & Hw & [Hs Hk] & Hc).
  { intros s [Hs Hk] Hc.
    destruct (rr_body_span h1 PL time_quantum s Hv1 HQ Hs Hk Hc) as (s' & ? & ? & ? & ?).
    by exists s'. }
  { split; [apply rr_inv_init; by destruct Hv1|by apply rr_span_init]. }
  { done. }
  eexists _, _. split.
  - exists (rr_measure h1 PL (rr_init h1)). intros fuel Hfuel. unfold round_robin.
    destruct (Z.leb_spec time_quantum 0) as [|_]; [lia|].
    rewrite Hd. fold PL. rewrite (while_loop_mono _ _ _ _ _ _ Hw Hfuel).
    f_equal. apply rr_finish_spec.
    intros Hnil. unfold rr_cond in Hc. rewrite Hnil in Hc. simpl in Hc.
    apply Nat.ltb_ge in Hc. destruct Hv1 as [Hne _]. destruct PL; [done|].
    simpl in Hc. lia.
  - cbn [gantt_chart completed_processes]. apply Forall_forall.
    intros p (r & -> & Hr)%objects_elem. rewrite sorted_perm in Hr.
    assert (r ∈ PL) as Hin.
    { apply (take_elem_of _ (process_idx s)). rewrite <- (rr_perm _ _ _ _ Hs).
      apply elem_of_app. by left. }
    pose proof (rr_static _ _ _ _ Hs) as [_ Hst].
    destruct (static_field_eqs _ _ (Hst r)) as (Hid & Harr & _).
    destruct (rr_done _ _ _ _ Hs r Hr) as (_ & [Ha _] & _ & Hrem).
    destruct (valid_input_lookup _ _ _ Hv1 Hin) as (_ & _ & Ha0 & _).
    unfold spans_its_entries. rewrite Hid.
    destruct (Hk r Hin) as [[_ Hst0]|(e0 & el & He0 & Hel & Hs0 & _ & Hend)]; [lia|].
    exists e0, el. split; [done|]. split; [done|]. split; [done|]. by apply Hend.
Qed.

Lemma entries_of_runs id chart : entries_of id (runs chart) = entries_of id chart.
Proof.
  induction chart as [|[[occ a] b] chart IH] using rev_ind; [done|].
  destruct occ as [|i].
  - by rewrite runs_snoc_idle, entries_of_snoc_idle.
  - by rewrite runs_snoc_pid, !entries_of_snoc_pid, IH.
Qed.

Lemma entries_of_run_entries procs p :
  NoDup (p_id <$> procs) → p ∈ procs →
  entries_of (p_id p) (run_entry <$> procs) ≡ₚ [run_entry p].
Proof.
  induction procs as [|a l IH]; intros Hn Hp; [by apply elem_of_nil in Hp|].
  rewrite fmap_cons in Hn. apply NoDup_cons in Hn as [Hna Hn].
  rewrite fmap_cons. unfold entries_of. rewrite filter_cons.
  fold (entries_of (p_id p) (run_entry <$> l)).
  apply elem_of_cons in Hp as [->|Hp].
  - rewrite decide_True by done.
    assert (entries_of (p_id a) (run_entry <$> l) = []) as ->; [|done].
    destruct (entries_of (p_id a) (run_entry <$> l)) as [|e es] eqn:He; [done|].
    exfalso. assert (e ∈ entries_of (p_id a) (run_entry <$> l)) as Hin.
    { rewrite He. apply list_elem_of_here. }
    apply list_elem_of_filter in Hin as [Hocc (x & -> & Hx)%list_elem_of_fmap].
    apply Hna. unfold run_entry, occupant_of in Hocc. simpl in Hocc.
    injection Hocc as <-. by apply list_elem_of_fmap_2.
  - rewrite decide_False; [by apply IH|].
    unfold run_entry, occupant_of. simpl. intros [= Heq].
    apply Hna. rewrite Heq. by apply list_elem_of_fmap_2.
Qed.

Lemma one_run_spans (h : heap) processes h' r :
  valid_input h processes →
  same_processes (objects h processes) (objects h' (completed_processes r)) →
  one_run_each h' r →
  Forall (spans_its_entries (gantt_chart r)) (objects h' (completed_processes r)).
Proof.
  intros Hv Hsame Hone. apply Forall_forall. intros p Hp.
  set (procs := objects h' (completed_processes r)) in *.
  assert (NoDup (p_id <$> procs)) as Hnd.
  { rewrite (same_processes_ids _ _ Hsame). destruct Hv as (_ & _ & Hid).
    unfold objects. by rewrite <- list_fmap_compose. }
  assert (entries_of (p_id p) (gantt_chart r) = [run_entry p]) as Heq.
  { apply Permutation_singleton_r.
    rewrite <- (entries_of_runs (p_id p) (gantt_chart r)).
    unfold entries_of at 1. rewrite Hone. by apply entries_of_run_entries. }
  unfold spans_its_entries. rewrite Heq. by exists (run_entry p), (run_entry p).
Qed.

(** X16.  On a valid input, in the timeline each function returns, the
    first entry of every process starts at its [start_time] and its last
    entry ends at its [completion_time]: the two attributes are the
    bounds of what the timeline shows of the process, also when round
    robin has merged or interleaved its slices. *)
Theorem X16_process_spans_its_entries (h : heap) (processes : list ref)
    (time_quantum : Z) :
  valid_input h processes → 0 < time_quantum →
  every_algorithm h processes time_quantum (λ h' r,
    Forall (spans_its_entries (gantt_chart r)) (objects h' (completed_processes r))).
Proof.
  intros Hv HQ.
  assert (∀ key, ∃ h' r, returns (λ fuel, nonpreemptive key fuel h processes) h' r ∧
            Forall (spans_its_entries (gantt_chart r))
                   (objects h' (completed_processes r))) as Hnp.
  { intros key.
    destruct (nonpreemptive_ok key h processes Hv) as (h' & r & E & (Hs & _) & _).
    destruct (nonpreemptive_log key h processes Hv) as (h2 & r2 & E2 & _ & Hone).
    destruct (returns_fun _ _ _ _ _ E E2) as [<- <-].
    exists h', r. split; [done|]. by apply (one_run_spans h processes). }
  split; [|split; [apply Hnp|split; [apply Hnp|by apply round_robin_spans]]].
  destruct (fcfs_ok h processes Hv) as (h' & r & E & (Hs & _) & _).
  destruct (fcfs_log h processes Hv) as (h2 & r2 & E2 & _ & Hone).
  rewrite E in E2. injection E2 as <- <-.
  exists h', r. split; [done|]. by apply (one_run_spans h processes).
Qed.

Lemma X16_witness :
  every_algorithm scenario_B (all_refs scenario_B) 3 (λ h' r,
    Forall (spans_its_entries (gantt_chart r)) (objects h' (completed_processes r))).
Proof.
  apply (X16_process_spans_its_entries scenario_B (all_refs scenario_B) 3).
  - exact scenario_B_valid.
  - lia.
Defined.

(** * The places of the bars *)

Section places_properties.
Context {F : Floats}.

Lemma rectangle_spans_app (l k : list canvas_item) :
  rectangle_spans (l ++ k) = rectangle_spans l ++ rectangle_spans k.
Proof. apply omap_app. Qed.

Lemma side_by_side_bar (l : list canvas_item) x w texts y0 y1 fill outline :
  side_by_side l x → rectangle_spans texts = [] →
  side_by_side (l ++ [Rectangle x y0 (num_add x w) y1 fill outline] ++ texts)
               (num_add x w).
Proof.
  intros (Hhead & Hadj & Hend) Ht. unfold side_by_side.
  rewrite !rectangle_spans_app, Ht, app_nil_r. simpl.
  split; [|split].
  - intros s Hs. destruct (rectangle_spans l) as [|a spans] eqn:Hl.
    + simpl in Hs. injection Hs as <-. simpl. by rewrite Hend.
    + apply Hhead. exact Hs.
  - apply adjacent_snoc. split; [done|]. intros y Hy. simpl.
    by rewrite Hend, Hy.
  - by rewrite last_snoc.
Qed.

Lemma draw_entry_side_by_side scale_factor e st :
  side_by_side (drawn st) (current_x st) →
  side_by_side (drawn (draw_entry scale_factor e st))
               (current_x (draw_entry scale_factor e st)).
Proof.
  intros Hs. destruct e as [[occ a] b]. unfold draw_entry.
  destruct (b - a <=? 0); [done|].
  destruct occ as [|id]; [|destruct (color_of id (process_colors st))];
    cbn [drawn current_x]; destruct (num_gt_int _ 25);
    rewrite <- ?(assoc_L (++)); by apply side_by_side_bar.
Qed.

Lemma draw_loop_side_by_side scale_factor chart :
  let st := foldl (λ st entry, draw_entry scale_factor entry st)
                  (mkDraw [] [] 0 (Int padding)) chart in
  side_by_side (drawn st) (current_x st).
Proof.
  induction chart as [|e chart IH] using rev_ind.
  - simpl. by split.
  - cbv zeta. rewrite foldl_snoc. by apply draw_entry_side_by_side.
Qed.

End places_properties.

(** X17.  [draw_gantt_chart] lays the bars of the chart side by side:
    the first begins at the left padding and every other begins at the
    very abscissa at which the one before it ends, so that no gap and no
    overlap separates them; the label of the final time, that of the end
    of the last entry, stands below the right end of the last bar; and the
    scroll region is set for that time.  For the empty chart the canvas is
    left empty. *)
Theorem X17_bars_side_by_side (F : Floats) (c : canvas) (chart : list gantt_entry) :
  chart_drawn chart (draw_gantt_chart c chart).
Proof.
  unfold chart_drawn, draw_gantt_chart.
  destruct (last chart) as [[[occ a] max_time]|] eqn:Hlast; [|done].
  cbn [items scrollregion].
  set (scale_factor := if 0 <? max_time
                       then num_div (Int (Z.max 1000 (max_time * 20))) (Int max_time)
                       else Int 1).
  pose proof (draw_loop_side_by_side scale_factor chart) as Hs. cbv zeta in Hs.
  eexists _, _. split; [reflexivity|]. split; [exact Hs|done].
Qed.

(** * The entries of round robin, in quanta *)

Lemma rr_dispatch_dict h1 PL time_quantum s proc queue chart :
  valid_input h1 PL →
  rr_inv h1 PL time_quantum s →
  ready_queue s = proc :: queue →
  rr_inv h1 PL time_quantum (rr_dispatch time_quantum proc queue chart s) →
  let p := dispatched time_quantum (rr_time s) (rr_heap s !!! proc) in
  dict_values (completed_processes_dict (rr_dispatch time_quantum proc queue chart s))
  ≡ₚ dict_values (completed_processes_dict s)
     ++ (if remaining_burst_time p =? 0 then [proc] else []) ∧
  proc ∉ dict_values (completed_processes_dict s).
Proof.
  intros Hv Hs Hq Hs' p.
  pose proof (valid_input_NoDup _ _ Hv) as HndPL.
  set (D := dict_values (completed_processes_dict s)) in *.
  assert (NoDup (D ++ proc :: queue)) as Hnd.
  { rewrite <- Hq. unfold D. rewrite (rr_perm _ _ _ _ Hs).
    rewrite <- (take_drop (process_idx s) PL) in HndPL.
    by apply NoDup_app in HndPL as (? & _). }
  apply NoDup_app in Hnd as (_ & Hdisj & _).
  split; [|intros Hx; apply (Hdisj proc Hx); apply list_elem_of_here].
  pose proof (rr_perm _ _ _ _ Hs') as Hperm'.
  pose proof (rr_perm _ _ _ _ Hs) as Hperm. rewrite Hq in Hperm. fold D in Hperm.
  revert Hperm'. unfold rr_dispatch. fold p.
  destruct (remaining_burst_time p =? 0);
    cbn [completed_processes_dict ready_queue process_idx]; intros Hperm'.
  - apply (Permutation_app_inv_r queue). rewrite Hperm', <- Hperm.
    by rewrite <- (assoc_L (++)).
  - by rewrite app_nil_r.
Qed.

Lemma rr_idle_quanta h1 time_quantum t s s' :
  rr_idle t s = Next s' → rr_last_ok s →
  quanta_ok h1 time_quantum (rr_gantt s)
            (dict_values (completed_processes_dict s)) (rr_heap s) →
  quanta_ok h1 time_quantum (rr_gantt s')
            (dict_values (completed_processes_dict s')) (rr_heap s').
Proof.
  intros Hidle Hl Hk. destruct (rr_idle_fields _ _ _ Hidle) as (-> & -> & _).
  intros i a b He. apply Hk.
  destruct (rr_idle_shape _ _ _ Hidle Hl) as [Hg|(init & first & e & Hg & Hg')].
  - rewrite Hg in He. by apply elem_of_app in He as [He|He%list_elem_of_singleton].
  - rewrite Hg' in He. rewrite Hg.
    apply elem_of_app in He as [He|He%list_elem_of_singleton]; [|done].
    apply elem_of_app. by left.
Qed.

Lemma rr_dispatch_quanta h1 PL time_quantum s proc queue chart :
  valid_input h1 PL → 0 < time_quantum →
  rr_inv h1 PL time_quantum s →
  ready_queue s = proc :: queue →
  rr_chart (p_id (rr_heap s !!! proc)) (rr_time s)
    (rr_time s + Z.min time_quantum (remaining_burst_time (rr_heap s !!! proc))) s
  = Some chart →
  rr_inv h1 PL time_quantum (rr_dispatch time_quantum proc queue chart s) →
  quanta_ok h1 time_quantum (rr_gantt s)
            (dict_values (completed_processes_dict s)) (rr_heap s) →
  let s' := rr_dispatch time_quantum proc queue chart s in
  quanta_ok h1 time_quantum (rr_gantt s')
            (dict_values (completed_processes_dict s')) (rr_heap s').
Proof.
  intros Hv HQ Hs Hq Hch Hs' Hk s'.
  destruct (rr_dispatch_dict h1 PL time_quantum s proc queue chart Hv Hs Hq Hs')
    as [HD HpD].
  fold s' in HD. set (D := dict_values (completed_processes_dict s)) in *.
  set (p := dispatched time_quantum (rr_time s) (rr_heap s !!! proc)) in *.
  set (slice := Z.min time_quantum (remaining_burst_time (rr_heap s !!! proc))) in *.
  destruct (rr_dispatch_fields time_quantum proc queue chart s) as [Hh Hg].
  fold s' p in Hh, Hg.
  assert (proc ∈ PL) as Hin.
  { apply (take_elem_of _ (process_idx s)). rewrite <- (rr_perm _ _ _ _ Hs), Hq.
    apply elem_of_app. right. apply list_elem_of_here. }
  destruct (valid_input_lookup _ _ _ Hv Hin) as [Hlt Hvp].
  pose proof (rr_static _ _ _ _ Hs) as [Hlen Hst].
  destruct (static_field_eqs _ _ (Hst proc)) as (Hid & Harr & _).
  destruct (dispatched_spec time_quantum (rr_time s) (h1 !!! proc)
              (rr_heap s !!! proc) HQ (rr_time_nonneg _ _ _ _ Hs) Hvp (Hst proc))
    as (_ & _ & _ & Hdone & Hmore).
  { rewrite Harr. apply (rr_arrived _ _ _ _ Hs).
    rewrite <- (rr_perm _ _ _ _ Hs), Hq. apply elem_of_app. right.
    apply list_elem_of_here. }
  { apply (rr_queued _ _ _ _ Hs). rewrite Hq. apply list_elem_of_here. }
  fold p slice in Hdone, Hmore.
  assert (∀ i a b,
            (b - a) `mod` time_quantum = 0 ∨
            (∃ r, r ∈ D ∧ p_id (h1 !!! r) = i ∧ completion_time (rr_heap s !!! r) = b) →
            (b - a) `mod` time_quantum = 0 ∨
            (∃ r, r ∈ dict_values (completed_processes_dict s') ∧
                  p_id (h1 !!! r) = i ∧ completion_time (rr_heap s' !!! r) = b)) as Hold.
  { intros i a b [?|(r & Hr & Hi & Hc)]; [by left|right].
    exists r. split; [rewrite HD; apply elem_of_app; by left|]. split; [done|].
    rewrite Hh, list_lookup_total_insert_ne; [done|]. by intros ->. }
  assert (∀ a, (rr_time s - a) `mod` time_quantum = 0 →
            (rr_time s + slice - a) `mod` time_quantum = 0 ∨
            (∃ r, r ∈ dict_values (completed_processes_dict s') ∧
                  p_id (h1 !!! r) = p_id (rr_heap s !!! proc) ∧
                  completion_time (rr_heap s' !!! r) = rr_time s + slice)) as Hnew.
  { intros a Ha. destruct (Z.eqb_spec (remaining_burst_time p) 0) as [Hz|Hnz].
    - right. exists proc. split; [rewrite HD; apply elem_of_app; right;
                                  apply list_elem_of_here|].
      split; [done|]. rewrite Hh, list_lookup_total_insert_eq by lia.
      by destruct (Hdone Hz) as [_ ->].
    - left. destruct (Hmore Hnz) as [_ ->].
      replace (rr_time s + time_quantum - a)
        with ((rr_time s - a) + 1 * time_quantum) by lia.
      by rewrite Z_mod_plus_full. }
  destruct (rr_chart_ok _ _ _ _ Hs) as (_ & _ & _ & Hlast & _).
  intros i a b He. rewrite Hg in He.
  destruct (rr_chart_shape _ _ _ _ _ Hch (rr_lastok _ _ _ _ Hs) Hlast)
    as [->|(init & first & Hgs & ->)].
  - apply elem_of_app in He as [He|He%list_elem_of_singleton].
    + by apply Hold, Hk.
    + injection He as -> -> ->. apply Hnew. by rewrite Z.sub_diag.
  - apply elem_of_app in He as [He|He%list_elem_of_singleton].
    + apply Hold, Hk. rewrite Hgs. apply elem_of_app. by left.
    + injection He as -> -> ->. apply Hnew.
      destruct (Hk (p_id (rr_heap s !!! proc)) first (rr_time s))
        as [?|(r & Hr & Hi & _)]; [|done|].
      { rewrite Hgs. apply elem_of_app. right. by apply list_elem_of_singleton. }
      exfalso. apply HpD. replace proc with r; [done|].
      eapply valid_input_ids; [done| |done|by rewrite Hi].
      apply (take_elem_of _ (process_idx s)). rewrite <- (rr_perm _ _ _ _ Hs).
      apply elem_of_app. by left.
Qed.

Lemma rr_body_quanta h1 PL time_quantum s :
  valid_input h1 PL → 0 < time_quantum →
  rr_inv h1 PL time_quantum s →
  quanta_ok h1 time_quantum (rr_gantt s)
            (dict_values (completed_processes_dict s)) (rr_heap s) →
  rr_cond (length PL) s = true →
  ∃ s', rr_body PL time_quantum s = Next s' ∧
        rr_inv h1 PL time_quantum s' ∧
        quanta_ok h1 time_quantum (rr_gantt s')
                  (dict_values (completed_processes_dict s')) (rr_heap s') ∧
        (rr_measure h1 PL s' < rr_measure h1 PL s)%nat.
Proof.
  intros Hv HQ Hs Hk Hc.
  destruct (rr_body_step h1 PL time_quantum s Hv HQ Hs Hc) as (s' & Hb & Hs' & Hm & _).
  exists s'. split; [done|]. split; [done|]. split; [|done].
  destruct (rr_body_cases h1 PL time_quantum s Hv HQ Hs Hc)
    as (k & _ & Hs1 & Hc1 & Hcase).
  set (s1 := rr_with_queue s (ready_queue s ++ take k (drop (process_idx s) PL))
                           (process_idx s + k)) in *.
  assert (quanta_ok h1 time_quantum (rr_gantt s1)
                    (dict_values (completed_processes_dict s1)) (rr_heap s1))
    as Hk1 by done.
  destruct Hcase as [(_ & t & _ & Hidle & _)
                    |(proc & queue & chart & q' & i' & Hq & Hch & Hrun & _)].
  - rewrite Hb in Hidle. symmetry in Hidle.
    by apply (rr_idle_quanta h1 time_quantum t s1 s' Hidle (rr_lastok _ _ _ _ Hs1)).
  - rewrite Hb in Hrun. injection Hrun as ->.
    destruct (rr_inv_dispatch h1 PL time_quantum s1 proc queue Hv HQ Hs1 Hq Hc1)
      as (chart' & Hch' & Hs2 & _).
    rewrite Hch in Hch'. injection Hch' as <-.
    by apply (rr_dispatch_quanta h1 PL time_quantum s1 proc queue chart).
Qed.

(** X18.  On a valid input and with a positive quantum, every entry of a
    process in the timeline [round_robin] returns is a whole number of
    quanta long, unless it ends at the completion time of the process:
    the merging of consecutive slices joins whole quanta, and only the
    last slice of a process can be shorter. *)
Theorem X18_round_robin_entries_in_quanta (h : heap) (processes : list ref)
    (time_quantum : Z) :
  valid_input h processes → 0 < time_quantum →
  ∃ h' r, returns (λ fuel, round_robin fuel h processes time_quantum) h' r ∧
          entries_in_quanta time_quantum h' r.
Proof.
  intros Hv HQ. destruct (start_valid h processes Hv) as (h1 & copies & Hd & Hv1 & _).
  set (PL := sorted (λ p, arrival_time (h1 !!! p)) copies) in *.
  destruct (while_loop_total
              (λ s, rr_inv h1 PL time_quantum s ∧
                    quanta_ok h1 time_quantum (rr_gantt s)
                              (dict_values (completed_processes_dict s)) (rr_heap s))
              (rr_measure h1 PL)
              (rr_cond (length PL)) (rr_body PL time_quantum))
         with (fuel := rr_measure h1 PL (rr_init h1))
              (s := rr_init h1) as (s & Hw & [Hs Hk] & Hc).
  { intros s [Hs Hk] Hc.
    destruct (rr_body_quanta h1 PL time_quantum s Hv1 HQ Hs Hk Hc)
      as (s' & ? & ? & ? & ?).
    by exists s'. }
  { split; [apply rr_inv_init; by destruct Hv1|].
    intros i a b He. by apply elem_of_nil in He. }
  { done. }
  eexists _, _. split.
  - exists (rr_measure h1 PL (rr_init h1)). intros fuel Hfuel. unfold round_robin.
    destruct (Z.leb_spec time_quantum 0) as [|_]; [lia|].
    rewrite Hd. fold PL. rewrite (while_loop_mono _ _ _ _ _ _ Hw Hfuel).
    f_equal. apply rr_finish_spec.
    intros Hnil. unfold rr_cond in Hc. rewrite Hnil in Hc. simpl in Hc.
    apply Nat.ltb_ge in Hc. destruct Hv1 as [Hne _]. destruct PL; [done|].
    simpl in Hc. lia.
  - unfold entries_in_quanta. cbn [gantt_chart completed_processes].
    intros i a b He. destruct (Hk i a b He) as [?|(r & Hr & Hi & Hcomp)]; [by left|].
    right. exists (rr_heap s !!! r). split; [|split; [|done]].
    + apply objects_elem. exists r. split; [done|]. by rewrite sorted_perm.
    + pose proof (rr_static _ _ _ _ Hs) as [_ Hst].
      by destruct (static_field_eqs _ _ (Hst r)) as (-> & _).
Qed.

Lemma X18_witness :
  ∃ h' r, returns (λ fuel, round_robin fuel lone_heap (all_refs lone_heap) 2) h' r ∧
          entries_in_quanta 2 h' r.
Proof.
  apply (X18_round_robin_entries_in_quanta lone_heap (all_refs lone_heap) 2).
  - exact lone_heap_valid.
  - lia.
Defined.

(** ** Round robin starts the processes in the order of arrival *)

Lemma filter_ext_elem {A} (P Q : A → Prop) `{!∀ x, Decision (P x)}
    `{!∀ x, Decision (Q x)} (l : list A) :
  (∀ x, x ∈ l → P x ↔ Q x) → filter P l = filter Q l.
Proof.
  induction l as [|a l IH]; intros Hpq; [done|].
  rewrite !filter_cons. rewrite IH by (intros x Hx; apply Hpq; by right).
  destruct (decide (P a)) as [Hp|Hp], (decide (Q a)) as [Hq|Hq]; try done.
  - exfalso. apply Hq, Hpq; [left|done].
  - exfalso. apply Hp, Hpq; [left|done].
Qed.

Lemma filter_all {A} (P : A → Prop) `{!∀ x, Decision (P x)} (l : list A) :
  Forall P l → filter P l = l.
Proof.
  induction 1 as [|a l Ha _ IH]; [done|].
  by rewrite filter_cons, decide_True, IH.
Qed.

Lemma filter_none {A} (P : A → Prop) `{!∀ x, Decision (P x)} (l : list A) :
  Forall (λ x, ¬ P x) l → filter P l = [].
Proof.
  induction 1 as [|a l Ha _ IH]; [done|].
  by rewrite filter_cons, decide_False, IH.
Qed.

Lemma rr_dispatch_time time_quantum proc queue chart s :
  rr_time (rr_dispatch time_quantum proc queue chart s)
  = rr_time s + Z.min time_quantum (remaining_burst_time (rr_heap s !!! proc)).
Proof. unfold rr_dispatch. by destruct (_ =? 0). Qed.
Lemma rr_order_init h1 PL : rr_order PL (rr_init h1).
Proof.
  exists 0%nat. unfold rr_init. cbn [rr_heap ready_queue process_idx rr_time].
  split; [done|]. rewrite take_0. split; constructor.
Qed.

Lemma rr_order_arrivals h1 PL time_quantum s k :
  valid_input h1 PL → rr_inv h1 PL time_quantum s → rr_order PL s →
  rr_order PL (rr_with_queue s (ready_queue s ++ take k (drop (process_idx s) PL))
                             (process_idx s + k)).
Proof.
  intros Hv Hs (j & Hj & Hsort & Hall). exists j.
  unfold rr_with_queue. cbn [rr_heap ready_queue process_idx rr_time].
  split; [|done].
  rewrite filter_app, (filter_all _ (take k _)).
  - rewrite <- Hj, <- !app_assoc. f_equal. rewrite <- drop_drop. apply take_drop.
  - apply Forall_forall. intros r Hr%take_elem_of.
    rewrite (rr_fresh _ _ _ _ Hs r Hr). apply drop_elem_of in Hr.
    by destruct (valid_input_lookup _ _ _ Hv Hr) as (_ & -> & _).
Qed.

Lemma rr_order_idle PL t s s' :
  rr_idle t s = Next s' → rr_time s < t → rr_order PL s → rr_order PL s'.
Proof.
  intros (Hh & _ & _ & _ & Hq & Hi & Ht)%rr_idle_fields Hlt (j & Hj & Hsort & Hall).
  exists j. rewrite Hh, Hq, Hi, Ht. split; [done|]. split; [done|].
  eapply Forall_impl; [exact Hall|]. simpl. intros; lia.
Qed.

Lemma rr_order_dispatch h1 PL time_quantum s proc queue chart k :
  valid_input h1 PL → 0 < time_quantum →
  rr_inv h1 PL time_quantum s →
  ready_queue s = proc :: queue →
  rr_order PL s →
  rr_order PL
    (rr_with_queue (rr_dispatch time_quantum proc queue chart s)
       (queue ++ take k (drop (process_idx s) PL)
          ++ (if remaining_burst_time
                   (dispatched time_quantum (rr_time s) (rr_heap s !!! proc)) =? 0
              then [] else [proc]))
       (process_idx s + k)).
Proof.
  intros Hv HQ Hs Hq (j & Hj & Hsort & Hall).
  pose proof (valid_input_NoDup _ _ Hv) as HndPL.
  assert (proc ∈ take (process_idx s) PL) as Hpt.
  { rewrite <- (rr_perm _ _ _ _ Hs), Hq. apply elem_of_app. right.
    apply list_elem_of_here. }
  assert (proc ∈ PL) as Hin by (by eapply take_elem_of).
  assert (proc ∉ queue) as Hnq.
  { assert (NoDup (dict_values (completed_processes_dict s) ++ proc :: queue)) as Hnd.
    { rewrite <- Hq, (rr_perm _ _ _ _ Hs).
      rewrite <- (take_drop (process_idx s) PL) in HndPL.
      by apply NoDup_app in HndPL as (? & _). }
    apply NoDup_app in Hnd as (_ & _ & Hnd). by apply NoDup_cons in Hnd as [? _]. }
  assert (proc ∉ drop (process_idx s) PL) as Hnu.
  { intros Hd. by eapply (NoDup_take_drop_disjoint PL). }
  destruct (valid_input_lookup _ _ _ Hv Hin) as [Hlt Hvp].
  pose proof (rr_static _ _ _ _ Hs) as [Hlen Hst].
  destruct (static_field_eqs _ _ (Hst proc)) as (Hid & Harr & _).
  pose proof (rr_time_nonneg _ _ _ _ Hs) as Htime.
  assert (queued_ok time_quantum (rr_time s) (h1 !!! proc) (rr_heap s !!! proc)) as Hqok.
  { apply (rr_queued _ _ _ _ Hs). rewrite Hq. apply list_elem_of_here. }
  destruct (dispatched_spec time_quantum (rr_time s) (h1 !!! proc)
              (rr_heap s !!! proc) HQ Htime Hvp (Hst proc)) as (Hslice & _).
  { rewrite Harr. by apply (rr_arrived _ _ _ _ Hs). }
  { done. }
  pose proof (dispatched_start time_quantum (rr_time s) (rr_heap s !!! proc)) as Hstart.
  destruct (rr_dispatch_fields time_quantum proc queue chart s) as [Hh _].
  pose proof (rr_dispatch_time time_quantum proc queue chart s) as Ht.
  unfold rr_order, rr_with_queue. cbn [rr_heap ready_queue process_idx rr_time].
  rewrite Hh, Ht.
  set (p' := dispatched time_quantum (rr_time s) (rr_heap s !!! proc)) in *.
  set (slice := Z.min time_quantum (remaining_burst_time (rr_heap s !!! proc))) in *.
  set (h' := <[proc := p']> (rr_heap s)).
  assert (∀ r, r ≠ proc → h' !!! r = rr_heap s !!! r) as Hother.
  { intros r Hne. unfold h'. by rewrite list_lookup_total_insert_ne. }
  assert (h' !!! proc = p') as Hself.
  { unfold h'. rewrite list_lookup_total_insert_eq; [done|lia]. }
  assert (start_time (h1 !!! proc) = -1) as Hinit.
  { by destruct Hvp as (-> & _). }
  assert (0 ≤ start_time p') as Hpos.
  { rewrite Hstart. destruct (Z.eqb_spec (start_time (rr_heap s !!! proc)) (-1)); [done|].
    destruct Hqok as (_ & _ & [Heq|(_ & ? & _)]); [|done]. by rewrite Heq in n. }
  set (U := drop (process_idx s) PL) in *.
  assert (filter (λ r, start_time (h' !!! r) = -1)
            (queue ++ take k U ++ (if remaining_burst_time p' =? 0 then [] else [proc]))
            ++ drop (process_idx s + k) PL
          = filter (λ r, start_time (rr_heap s !!! r) = -1) queue ++ U) as ->.
  { rewrite !filter_app.
    rewrite (filter_ext_elem (λ r, start_time (h' !!! r) = -1)
               (λ r, start_time (rr_heap s !!! r) = -1) queue).
    2:{ intros r Hr. rewrite Hother; [done|]. by intros ->. }
    rewrite (filter_all _ (take k U)).
    2:{ apply Forall_forall. intros r Hr%take_elem_of.
        rewrite Hother by (by intros ->).
        rewrite (rr_fresh _ _ _ _ Hs r Hr). apply drop_elem_of in Hr.
        by destruct (valid_input_lookup _ _ _ Hv Hr) as (_ & -> & _). }
    rewrite (filter_none _ (if remaining_burst_time p' =? 0 then [] else [proc])).
    2:{ destruct (_ =? 0); constructor; [|constructor]. rewrite Hself. lia. }
    rewrite app_nil_r, <- app_assoc. f_equal. unfold U.
    rewrite <- drop_drop. apply take_drop. }
  rewrite Hq, filter_cons in Hj.
  destruct (decide (start_time (rr_heap s !!! proc) = -1)) as [Hnew|Hold].
  - assert (PL !! j = Some proc) as Hlook.
    { pose proof (lookup_drop PL j 0) as Hl. rewrite <- Hj, Nat.add_0_r in Hl.
      by rewrite <- Hl. }
    assert (start_time p' = rr_time s) as Hnow.
    { rewrite Hstart, Hnew. done. }
    assert (∀ r, r ∈ take j PL → h' !!! r = rr_heap s !!! r) as Hbefore.
    { intros r Hr. apply Hother. intros ->.
      apply (NoDup_take_drop_disjoint PL j proc HndPL Hr).
      rewrite <- Hj. apply list_elem_of_here. }
    exists (S j). split; [|split].
    + rewrite <- Nat.add_1_r, <- drop_drop, <- Hj. done.
    + rewrite (take_S_r _ _ _ Hlook), fmap_app. apply StronglySorted_app_2.
      * intros x1 x2 (r & -> & Hr)%list_elem_of_fmap Hx2.
        apply list_elem_of_singleton in Hx2 as ->.
        rewrite Hself, Hnow, (Hbefore r Hr).
        eapply Forall_forall in Hall; [|exact Hr]. simpl in Hall. lia.
      * rewrite (list_fmap_ext _ (λ r, start_time (rr_heap s !!! r))); [done|].
        intros i r Hi. rewrite Hbefore; [done|]. by eapply list_elem_of_lookup_2.
      * repeat constructor.
    + rewrite (take_S_r _ _ _ Hlook). apply Forall_app. split.
      * apply Forall_forall. intros r Hr. rewrite (Hbefore r Hr).
        eapply Forall_forall in Hall; [|exact Hr]. simpl in Hall. lia.
      * constructor; [|constructor]. rewrite Hself, Hnow. lia.
  - assert (∀ r, start_time (h' !!! r) = start_time (rr_heap s !!! r)) as Hsame.
    { intros r. destruct (decide (r = proc)) as [->|Hne]; [|by rewrite Hother].
      rewrite Hself, Hstart.
      by destruct (Z.eqb_spec (start_time (rr_heap s !!! proc)) (-1)). }
    exists j. split; [done|]. split.
    + rewrite (list_fmap_ext _ (λ r, start_time (rr_heap s !!! r))); [done|].
      intros i r _. apply Hsame.
    + eapply Forall_impl; [exact Hall|]. simpl. intros r Hr. rewrite Hsame. lia.
Qed.

Lemma rr_body_order h1 PL time_quantum s :
  valid_input h1 PL → 0 < time_quantum →
  rr_inv h1 PL time_quantum s → rr_order PL s →
  rr_cond (length PL) s = true →
  ∃ s', rr_body PL time_quantum s = Next s' ∧
        rr_inv h1 PL time_quantum s' ∧ rr_order PL s' ∧
        (rr_measure h1 PL s' < rr_measure h1 PL s)%nat.
Proof.
  intros Hv HQ Hs Ho Hc.
  destruct (rr_body_step h1 PL time_quantum s Hv HQ Hs Hc) as (s' & Hb & Hs' & Hm & _).
  exists s'. split; [done|]. split; [done|]. split; [|done].
  destruct (rr_body_cases h1 PL time_quantum s Hv HQ Hs Hc)
    as (k & _ & Hs1 & Hc1 & Hcase).
  pose proof (rr_order_arrivals h1 PL time_quantum s k Hv Hs Ho) as Ho1.
  set (s1 := rr_with_queue s (ready_queue s ++ take k (drop (process_idx s) PL))
                           (process_idx s + k)) in *.
  destruct Hcase as [(_ & t & Hlt & Hidle & _)
                    |(proc & queue & chart & q' & i' & Hq & Hch & Hrun
                      & k' & _ & -> & ->)].
  - rewrite Hb in Hidle. symmetry in Hidle. by apply (rr_order_idle PL t s1 s').
  - rewrite Hb in Hrun. injection Hrun as ->.
    by apply (rr_order_dispatch h1 PL time_quantum s1 proc queue chart k').
Qed.

Lemma sorted_both {A} (g f : A → Z) (l : list A) x y :
  StronglySorted (λ a b, g a ≤ g b) l → StronglySorted Z.lt (f <$> l) →
  x ∈ l → y ∈ l → g x < g y → f x < f y.
Proof.
  induction l as [|a l IH]; intros Hg Hf Hx Hy Hlt; [by apply elem_of_nil in Hx|].
  rewrite fmap_cons in Hf.
  apply StronglySorted_inv in Hg as [Hg Hga].
  apply StronglySorted_inv in Hf as [Hf Hfa].
  apply elem_of_cons in Hx as [->|Hx]; apply elem_of_cons in Hy as [->|Hy].
  - lia.
  - eapply Forall_forall in Hfa; [exact Hfa|]. by apply list_elem_of_fmap_2.
  - eapply Forall_forall in Hga; [|exact Hx]. simpl in Hga. lia.
  - by apply IH.
Qed.

(** X19.  On a valid input and with a positive quantum, [round_robin]
    gives the processor for the first time in the order of arrival: of
    two returned processes, the one with the smaller arrival time has the
    smaller start time, whatever the burst times and the quantum are. *)
Theorem X19_round_robin_starts_in_arrival_order (h : heap) (processes : list ref)
    (time_quantum : Z) :
  valid_input h processes → 0 < time_quantum →
  ∃ h' r, returns (λ fuel, round_robin fuel h processes time_quantum) h' r ∧
          starts_in_arrival_order (objects h' (completed_processes r)).
Proof.
  intros Hv HQ. destruct (start_valid h processes Hv) as (h1 & copies & Hd & Hv1 & _).
  pose proof (by_arrival_sorted h1 copies) as Hby.
  set (PL := sorted (λ p, arrival_time (h1 !!! p)) copies) in *.
  destruct (while_loop_total (λ s, rr_inv h1 PL time_quantum s ∧ rr_order PL s)
              (rr_measure h1 PL)
              (rr_cond (length PL)) (rr_body PL time_quantum))
         with (fuel := rr_measure h1 PL (rr_init h1))
              (s := rr_init h1) as (s & Hw & [Hs Hk] & Hc).
  { intros s [Hs Hk] Hc.
    destruct (rr_body_order h1 PL time_quantum s Hv1 HQ Hs Hk Hc)
      as (s' & ? & ? & ? & ?).
    by exists s'. }
  { split; [apply rr_inv_init; by destruct Hv1|apply rr_order_init]. }
  { done. }
  eexists _, _. split.
  - exists (rr_measure h1 PL (rr_init h1)). intros fuel Hfuel. unfold round_robin.
    destruct (Z.leb_spec time_quantum 0) as [|_]; [lia|].
    rewrite Hd. fold PL. rewrite (while_loop_mono _ _ _ _ _ _ Hw Hfuel).
    f_equal. apply rr_finish_spec.
    intros Hnil. unfold rr_cond in Hc. rewrite Hnil in Hc. simpl in Hc.
    apply Nat.ltb_ge in Hc. destruct Hv1 as [Hne _]. destruct PL; [done|].
    simpl in Hc. lia.
  - cbn [completed_processes].
    intros p q (rp & -> & Hrp)%objects_elem (rq & -> & Hrq)%objects_elem Hlt.
    rewrite sorted_perm in Hrp, Hrq.
    destruct Hk as (j & Hj & Hsort & _).
    pose proof (rr_perm _ _ _ _ Hs) as Hperm.
    pose proof (Permutation_length Hperm) as Hlen.
    rewrite length_app in Hlen.
    rewrite length_take in Hlen.
    unfold rr_cond in Hc. apply Nat.ltb_ge in Hc.
    assert (length (dict_values (completed_processes_dict s))
            = length (completed_processes_dict s)) as Hdl.
    { unfold dict_values. by rewrite length_fmap. }
    assert (take j PL = PL) as Hall.
    { apply take_ge, drop_nil_inv. rewrite <- Hj.
      assert (ready_queue s = []) as -> by (apply length_zero_iff_nil; lia).
      rewrite (drop_ge PL (process_idx s)); [done|lia]. }
    rewrite Hall in Hsort.
    assert (∀ r, r ∈ dict_values (completed_processes_dict s) → r ∈ PL) as Hin.
    { intros r Hr. apply (take_elem_of _ (process_idx s)). rewrite <- Hperm.
      apply elem_of_app. by left. }
    pose proof (rr_static _ _ _ _ Hs) as [_ Hst].
    destruct (static_field_eqs _ _ (Hst rp)) as (_ & Hap & _).
    destruct (static_field_eqs _ _ (Hst rq)) as (_ & Haq & _).
    rewrite Hap, Haq in Hlt.
    by apply (sorted_both (λ r, arrival_time (h1 !!! r))
                (λ r, start_time (rr_heap s !!! r)) PL rp rq Hby Hsort
                (Hin rp Hrp) (Hin rq Hrq)).
Qed.

Lemma X19_witness :
  ∃ h' r, returns (λ fuel, round_robin fuel scenario_B (all_refs scenario_B) 3) h' r ∧
          starts_in_arrival_order (objects h' (completed_processes r)).
Proof.
  apply (X19_round_robin_starts_in_arrival_order scenario_B (all_refs scenario_B) 3).
  - exact scenario_B_valid.
  - lia.
Defined.
